(** * becsy: the entity store, its entity handles and the handle pool

    A shallow embedding of [src/entity.ts] and [src/pool.ts].

    - JavaScript numbers that the store manipulates are integers; they are
      modelled as [Z].  A value that may also be [undefined] (an array hole, an
      out-of-range typed-array read) or [NaN] (an index computed from
      [undefined]) is a [jsnum := option Z] with [None] for both: every
      operator the source applies to such a value ([&], [|], [!==], [??],
      indexing) treats the two alike.
    - The WebAssembly memory is a finite map from word index to 32-bit word,
      zero where unset; the four [Uint32Array]s are windows on it.
    - Methods are state transformers over one [World]; an exception is an
      [outcome] and leaves the mutations made before it in place, as in
      JavaScript. *)

From stdpp Require Import gmap strings list fin_maps.
From Stdlib Require Import ZArith Lia.

Open Scope Z_scope.

(** ** JavaScript numbers and the 32-bit operators *)

Abbreviation jsnum := (option Z).

Abbreviation undefined := (@None Z).

(** ECMAScript ToUint32 and ToInt32 on an integral number. *)
Definition ToUint32 (z : Z) : Z := z mod 2 ^ 32.

Definition ToInt32 (z : Z) : Z :=
  let int32bit := z mod 2 ^ 32 in
  if int32bit <? 2 ^ 31 then int32bit else int32bit - 2 ^ 32.

(** [undefined] and [NaN] convert to [+0]. *)
Definition js_int32 (v : jsnum) : Z :=
  match v with Some z => ToInt32 z | None => 0 end.

(** [a & b], [a | b] and [~a]: operands through ToInt32, a signed result. *)
Definition js_and (a b : jsnum) : Z := Z.land (js_int32 a) (js_int32 b).
Definition js_or (a b : jsnum) : Z := Z.lor (js_int32 a) (js_int32 b).
Definition js_not (a : jsnum) : Z := Z.lnot (js_int32 a).

(** [a !== b] on numbers and [undefined]. *)
Definition strict_ne (a b : jsnum) : bool := negb (bool_decide (a = b)).

(** [a ?? b]. *)
Definition nullish (a : jsnum) (b : Z) : Z := default b a.

(** ** Outcomes and the store monad *)

Inductive Error : Type :=
  | CapacityError            (* Max number of entities reached *)
  | BadArguments             (* Bad arguments to createEntity *)
  | AlreadyHas               (* Entity already has a ... component *)
  | NoComponent              (* Entity doesn't have a ... component *)
  | CapabilityError (write : bool)  (* System didn't mark component ... as writable/readable *)
  | TypeError                (* a property read on undefined *)
  | WasmTrap.                (* RuntimeError raised by the scanning kernel *)

Inductive outcome (A : Type) : Type :=
  | Ok (a : A)
  | Throw (e : Error)
  | OutOfFuel.

Arguments Ok {A} a.
Arguments Throw {A} e.
Arguments OutOfFuel {A}.

#[global] Instance Error_eq_dec : EqDecision Error.
Proof. solve_decision. Defined.

Section Monad.
Context {S : Type}.

Definition M (A : Type) : Type := S → outcome A * S.

Definition ret {A} (a : A) : M A := fun s => (Ok a, s).

Definition bind {A B} (m : M A) (k : A → M B) : M B :=
  fun s =>
    match m s with
    | (Ok a, s') => k a s'
    | (Throw e, s') => (Throw e, s')
    | (OutOfFuel, s') => (OutOfFuel, s')
    end.

Definition throw {A} (e : Error) : M A := fun s => (Throw e, s).
Definition get : M S := fun s => (Ok s, s).
Definition gets {A} (f : S → A) : M A := fun s => (Ok (f s), s).
Definition modify (f : S → S) : M unit := fun s => (Ok tt, f s).
End Monad.

Arguments M : clear implicits.

Declare Scope store_scope.
Delimit Scope store_scope with store.
Notation "'let!' x ':=' m 'in' k" := (bind m (fun x => k))
  (at level 10, x name, m at level 100, k at level 200) : store_scope.
Notation "m ;; k" := (bind m (fun _ => k))
  (at level 100, right associativity) : store_scope.
Open Scope store_scope.

(** ** Static metadata of component types

    [src/component.ts] is not among the sources.  A [ComponentType] value
    stands for a registered component class together with what
    [this.controllers.get(type)!] yields for it: the controller's [flagOffset],
    [flagMask] and [fields].  Theorems take these as given. *)

Inductive FieldKind : Type :=
  | TypeRef                  (* Type.ref *)
  | TypeOther.               (* any other field type *)

#[global] Instance FieldKind_eq_dec : EqDecision FieldKind.
Proof. solve_decision. Defined.

Record Field : Type := { fname : string; ftype : FieldKind }.

Record ComponentType : Type := {
  name : string;
  componentId : nat;
  flagOffset : nat;
  flagMask : Z;
  fields : list Field
}.

(** Modelled from the spec: the controller's constructor, which is missing
    from the sources.  "Each component type owns exactly one bit, assigned at
    store-construction time in registration order": ordinal [n] gets word
    [n / 32] and the bit [1 << (n % 32)], a signed 32-bit value as JavaScript's
    shift produces it. *)
Definition Controller (n : nat) (nm : string) (fs : list Field) : ComponentType :=
  {| name := nm; componentId := n;
     flagOffset := n / 32;
     flagMask := ToInt32 (Z.shiftl 1 (Z.of_nat (n mod 32)));
     fields := fs |}.

(** Stored field values, as far as the store looks at them. *)
Inductive FieldVal : Type :=
  | VNull
  | VRef (target : Z)
  | VData (z : Z).

#[global] Instance FieldVal_eq_dec : EqDecision FieldVal.
Proof. solve_decision. Defined.

(** The view a controller's [bind(id, allowWrite)] returns. *)
Record Component : Type := {
  c_type : ComponentType;
  c_id : jsnum;
  c_writable : bool
}.

(** ** Pool *)

Module Pool.
Section WithClass.
Context {T : Type}.
(** [new Class()]: the fields of a fresh object. *)
Variable Class : T.

(** [list] holds references into the object heap. *)
Record t : Type := { list_ : list nat; next : nat }.

(** The pool together with the heap its objects live in. *)
Definition state : Type := t * list T.

(** The constructor's loop: [n] fresh objects, each pushed on the list. *)
Fixpoint populate (n : nat) (s : state) : state :=
  match n with
  | O => s
  | S k =>
      let '(p, heap) := populate k s in
      ({| list_ := list_ p ++ [length heap]; next := next p |}, heap ++ [Class])
  end.

(** [new Pool(Class, initialSize)] *)
Definition new (initialSize : nat) (heap : list T) : state :=
  populate initialSize ({| list_ := []; next := 0 |}, heap).

(** [if (this.next === this.list.length) this.list.push(new this.Class())] *)
Definition grow (s : state) : state :=
  let '(p, heap) := s in
  if (next p =? length (list_ p))%nat
  then ({| list_ := list_ p ++ [length heap]; next := next p |}, heap ++ [Class])
  else s.

(** [take()]: [return this.list[this.next++]] *)
Definition take (s : state) : option nat * state :=
  let '(p, heap) := grow s in
  (list_ p !! next p, ({| list_ := list_ p; next := S (next p) |}, heap)).

(** [borrow()]: [return this.list[this.next]] *)
Definition borrow (s : state) : option nat * state :=
  let '(p, heap) := grow s in
  (list_ p !! next p, (p, heap)).

(** [reset()] *)
Definition reset (s : state) : state :=
  let '(p, heap) := s in
  ({| list_ := list_ p; next := 0 |}, heap).

(** A well-formed pool: the cursor is within the list, the references are
    distinct, and each points into the heap. *)
Definition wf (s : state) : Prop :=
  (next (fst s) ≤ length (list_ (fst s)))%nat
  ∧ NoDup (list_ (fst s))
  ∧ Forall (fun r => (r < length (snd s))%nat) (list_ (fst s)).
End WithClass.
End Pool.

(** ** The world: store, pooled handles, dispatcher, component storage *)

(** [class Entity]: [__entities] always points at the one store of the world
    and is left out; [joined] is only ever reset to [undefined]. *)
Record Entity : Type := { __id : jsnum; joined : option (list string) }.

(** [new Entity()]: no field is set. *)
Definition newEntity : Entity := {| __id := undefined; joined := None |}.

Record ReadWriteMasks : Type := { read : list jsnum; write : list jsnum }.

(** Calls made on the collaborators, in order: [dispatcher.flush()] and the
    store's own [bind(id)]. *)
Inductive Event : Type :=
  | EvFlush
  | EvBind (id : jsnum).

#[global] Instance Event_eq_dec : EqDecision Event.
Proof. solve_decision. Defined.

Record World : Type := {
  (* class Entities *)
  maxNum : Z;
  types : list ComponentType;
  nextId : Z;
  memory : gmap Z Z;
  pool : Pool.t;
  (* the objects the pool refers to *)
  heap : list Entity;
  (* the dispatcher: the masks of the executing system, if one is executing,
     and the record of calls *)
  rwMasks : option ReadWriteMasks;
  events : list Event;
  (* the controllers' field storage: (component ordinal, slot, field) *)
  storage : gmap (nat * jsnum * string) FieldVal
}.

Definition set_nextId (v : Z) (w : World) : World :=
  {| maxNum := maxNum w; types := types w; nextId := v; memory := memory w;
     pool := pool w; heap := heap w; rwMasks := rwMasks w; events := events w;
     storage := storage w |}.

Definition set_memory (m : gmap Z Z) (w : World) : World :=
  {| maxNum := maxNum w; types := types w; nextId := nextId w; memory := m;
     pool := pool w; heap := heap w; rwMasks := rwMasks w; events := events w;
     storage := storage w |}.

Definition set_pool (p : Pool.t) (h : list Entity) (w : World) : World :=
  {| maxNum := maxNum w; types := types w; nextId := nextId w; memory := memory w;
     pool := p; heap := h; rwMasks := rwMasks w; events := events w;
     storage := storage w |}.

Definition set_rwMasks (r : option ReadWriteMasks) (w : World) : World :=
  {| maxNum := maxNum w; types := types w; nextId := nextId w; memory := memory w;
     pool := pool w; heap := heap w; rwMasks := r; events := events w;
     storage := storage w |}.

Definition emit (e : Event) (w : World) : World :=
  {| maxNum := maxNum w; types := types w; nextId := nextId w; memory := memory w;
     pool := pool w; heap := heap w; rwMasks := rwMasks w; events := events w ++ [e];
     storage := storage w |}.

Definition set_storage (st : gmap (nat * jsnum * string) FieldVal) (w : World) : World :=
  {| maxNum := maxNum w; types := types w; nextId := nextId w; memory := memory w;
     pool := pool w; heap := heap w; rwMasks := rwMasks w; events := events w;
     storage := st |}.

(** *** The read-only fields the constructor derives *)

Definition ceil_div (a b : Z) : Z := - ((- a) / b).

(** [this.stride = Math.ceil(this.controllers.size / 32)] *)
Definition stride (w : World) : Z := ceil_div (Z.of_nat (length (types w))) 32.

(** [maxEntities], the constructor's argument: [this.maxNum = maxEntities + 1] *)
Definition maxEntities (w : World) : Z := maxNum w - 1.

Definition flagSegmentSize (w : World) : Z := maxNum w * stride w * 4.
Definition filterSegmentSize (w : World) : Z := maxEntities w * 4.

(** Pages of 64 KiB. *)
Definition blocks (w : World) : Z :=
  ceil_div (3 * flagSegmentSize w + filterSegmentSize w) (2 ^ 16).

(** *** Typed-array windows on the memory *)

(** A [Uint32Array(buffer, byteOffset, length)], with the byte offset in
    words: every offset the constructor passes is a multiple of 4. *)
Record View : Type := { base : Z; len : Z }.

Definition current (w : World) : View :=
  {| base := 0; len := maxNum w * stride w |}.
Definition previous (w : World) : View :=
  {| base := flagSegmentSize w / 4; len := maxNum w * stride w |}.
Definition mutations (w : World) : View :=
  {| base := 2 * flagSegmentSize w / 4; len := maxNum w * stride w |}.
Definition filtered (w : World) : View :=
  {| base := 3 * flagSegmentSize w / 4; len := maxEntities w |}.

(** The word at a word index: zero where nothing was stored; a cell is a
    32-bit word, so the stored integer counts modulo [2^32]. *)
Definition mem_word (m : gmap Z Z) (a : Z) : Z := default 0 (m !! a) mod 2 ^ 32.

(** [view[i]]: [undefined] outside the window and at a [NaN] index. *)
Definition ta_get (v : View) (m : gmap Z Z) (i : jsnum) : jsnum :=
  match i with
  | Some i => if bool_decide (0 ≤ i < len v) then Some (mem_word m (base v + i)) else None
  | None => None
  end.

(** [view[i] = x]: the value through ToUint32; ignored outside the window. *)
Definition ta_put (v : View) (i : jsnum) (x : Z) (m : gmap Z Z) : gmap Z Z :=
  match i with
  | Some i => if bool_decide (0 ≤ i < len v) then <[base v + i := ToUint32 x]> m else m
  | None => m
  end.

(** [view.fill(x)] over the first [n] elements. *)
Fixpoint fill_words (v : View) (x : Z) (n : nat) (m : gmap Z Z) : gmap Z Z :=
  match n with
  | O => m
  | S k => ta_put v (Some (Z.of_nat k)) x (fill_words v x k m)
  end.

Definition ta_fill (v : View) (x : Z) (m : gmap Z Z) : gmap Z Z :=
  fill_words v x (Z.to_nat (len v)) m.

(** [dst.set(src)] for two windows of one buffer: the source is read as it
    was before the call. *)
Fixpoint copy_words (dst src : View) (m0 : gmap Z Z) (n : nat) (m : gmap Z Z) : gmap Z Z :=
  match n with
  | O => m
  | S k =>
      ta_put dst (Some (Z.of_nat k)) (nullish (ta_get src m0 (Some (Z.of_nat k))) 0)
        (copy_words dst src m0 k m)
  end.

Definition ta_set (dst src : View) (m : gmap Z Z) : gmap Z Z :=
  copy_words dst src m (Z.to_nat (len src)) m.

(** [id * this.stride], and [id * this.stride + offset]; [NaN] when [id] is
    [undefined]. *)
Definition slot_base (w : World) (id : jsnum) : jsnum :=
  match id with Some i => Some (i * stride w) | None => None end.

Definition slot_index (w : World) (id : jsnum) (offset : Z) : jsnum :=
  match slot_base w id with Some b => Some (b + offset) | None => None end.

(** ** class Entities *)

Abbreviation St := (M World).

(** [step()]; both windows have [maxNum * stride] elements, so [set] never
    raises its RangeError. *)
Definition step : St unit :=
  modify (fun w =>
    let m1 := ta_set (previous w) (current w) (memory w) in
    set_memory (ta_fill (mutations w) 0 m1) w).

(** [bind(id)] *)
Definition bindEntity (id : jsnum) : St nat :=
  fun w =>
    let '(r, (p, h)) := Pool.borrow newEntity (pool w, heap w) in
    let w1 := emit (EvBind id) (set_pool p h w) in
    match r with
    | Some entity =>
        (* entity.__reset(this, id) *)
        (Ok entity, set_pool p (<[entity := {| __id := id; joined := None |}]> h) w1)
    | None => (Throw TypeError, w1)
    end.

(** [createFilledMask()] *)
Definition createFilledMask (w : World) : list jsnum :=
  replicate (Z.to_nat (stride w)) (Some 4294967295).

(** *** JavaScript arrays with holes *)

(** [a[i]] *)
Definition array_get (a : list jsnum) (i : nat) : jsnum := mjoin (a !! i).

(** [a.length = n] *)
Definition array_set_length (a : list jsnum) (n : nat) : list jsnum :=
  take n a ++ replicate (n - length a) undefined.

(** [a[i] = v], growing the array when [i] is past its end. *)
Definition array_put (a : list jsnum) (i : nat) (v : jsnum) : list jsnum :=
  if (i <? length a)%nat then <[i := v]> a
  else a ++ replicate (i - length a) undefined ++ [v].

(** A relative index of [fill], clamped as the language prescribes. *)
Definition clamp (len rel : Z) : Z :=
  if rel <? 0 then Z.max (len + rel) 0 else Z.min rel len.

(** [a.fill(v, start, end)] *)
Definition array_fill (a : list jsnum) (v : Z) (start end_ : Z) : list jsnum :=
  let n := Z.of_nat (length a) in
  let k := clamp n start in
  let final := clamp n end_ in
  imap (fun i x => if bool_decide (k ≤ Z.of_nat i < final) then Some v else x) a.

(** [extendMaskAndSetFlag(mask, type)]; the array is updated in place, the
    model returns its new contents. *)
Definition extendMaskAndSetFlag (mask : list jsnum) (type : ComponentType) : list jsnum :=
  let mask1 :=
    if (length mask <=? flagOffset type)%nat then
      let grown := array_set_length mask (flagOffset type + 1) in
      array_fill grown 0 (Z.of_nat (length grown)) (Z.of_nat (flagOffset type))
    else mask in
  array_put mask1 (flagOffset type)
    (Some (js_or (array_get mask1 (flagOffset type)) (Some (flagMask type)))).

(** [maskHasFlag(mask, type)] *)
Definition maskHasFlag (mask : list jsnum) (type : ComponentType) : bool :=
  negb (js_and (Some (nullish (array_get mask (flagOffset type)) 0))
               (Some (flagMask type)) =? 0).

(** [getFields(type)] *)
Definition getFields (type : ComponentType) : list Field := fields type.

Definition flag_index (w : World) (id : jsnum) (type : ComponentType) : jsnum :=
  slot_index w id (Z.of_nat (flagOffset type)).

(** [hasFlag(id, type)] *)
Definition hasFlag (w : World) (id : jsnum) (type : ComponentType) : bool :=
  negb (js_and (ta_get (current w) (memory w) (flag_index w id type))
               (Some (flagMask type)) =? 0).

(** [setFlag(id, type)] *)
Definition setFlag (id : jsnum) (type : ComponentType) : St unit :=
  modify (fun w =>
    let i := flag_index w id type in
    set_memory
      (ta_put (current w) i
         (js_or (ta_get (current w) (memory w) i) (Some (flagMask type))) (memory w)) w).

(** [clearFlag(id, type)] *)
Definition clearFlag (id : jsnum) (type : ComponentType) : St unit :=
  modify (fun w =>
    let i := flag_index w id type in
    set_memory
      (ta_put (current w) i
         (js_and (ta_get (current w) (memory w) i)
                 (Some (js_not (Some (flagMask type))))) (memory w)) w).

(** [isAllocated(id, entities)]: the loop leaves with [true] at the first
    word that is not [0]. *)
Definition isAllocated (w : World) (id : jsnum) (entities : View) : bool :=
  existsb
    (fun offset => strict_ne (ta_get entities (memory w) (slot_index w id offset)) (Some 0))
    (seqZ 0 (stride w)).

(** [markMutated(id, type)] *)
Definition markMutated (id : jsnum) (type : ComponentType) : St unit :=
  modify (fun w =>
    let i := flag_index w id type in
    set_memory
      (ta_put (mutations w) i
         (js_or (ta_get (mutations w) (memory w) i) (Some (flagMask type))) (memory w)) w).

(** Modelled from the spec: the controller's [init(id, values)], missing from
    the sources ("delegates field initialization to that type's Controller"):
    every declared field takes the value given for it, a plain [0] otherwise. *)
Fixpoint value_for (values : list (string * FieldVal)) (field : string) : FieldVal :=
  match values with
  | [] => VData 0
  | (k, v) :: rest => if bool_decide (k = field) then v else value_for rest field
  end.

Definition initComponent (type : ComponentType) (id : jsnum)
    (values : list (string * FieldVal)) : St unit :=
  modify (fun w =>
    set_storage
      (foldl (fun st f => <[(componentId type, id, fname f) := value_for values (fname f)]> st)
             (storage w) (fields type)) w).

(** Modelled from the spec: the controller's [bind(id, allowWrite)], missing
    from the sources: a view on the slot's fields of that type. *)
Definition bindComponent (type : ComponentType) (id : jsnum) (allowWrite : bool) : St Component :=
  ret {| c_type := type; c_id := id; c_writable := allowWrite |}.

(** Modelled from the spec: [component[field] = v] through such a view, which
    writes the slot's field in the controller's storage. *)
Definition setField (c : Component) (field : string) (v : FieldVal) : St unit :=
  modify (fun w =>
    set_storage (<[(componentId (c_type c), c_id c, field) := v]> (storage w)) w).

(** The stored value of a field of a slot's component. *)
Definition getField (w : World) (type : ComponentType) (id : jsnum) (field : string)
    : option FieldVal :=
  storage w !! (componentId type, id, field).

(** [offset + i] *)
Definition slot_word (offset : jsnum) (i : Z) : jsnum :=
  match offset with Some b => Some (b + i) | None => None end.

(** [match(id, entities, positiveMask, negativeMask)]: the two loops, each
    leaving with [false] at the first word that fails. *)
Fixpoint match_positive (w : World) (entities : View) (offset : jsnum) (i : Z)
    (positiveMask : list jsnum) : bool :=
  match positiveMask with
  | [] => true
  | maskByte :: rest =>
      if strict_ne
           (Some (js_and (ta_get entities (memory w) (slot_word offset i)) maskByte))
           maskByte
      then false
      else match_positive w entities offset (i + 1) rest
  end.

Fixpoint match_negative (w : World) (entities : View) (offset : jsnum) (i : Z)
    (negativeMask : list jsnum) : bool :=
  match negativeMask with
  | [] => true
  | maskByte :: rest =>
      if strict_ne
           (Some (js_and (ta_get entities (memory w) (slot_word offset i)) maskByte))
           (Some 0)
      then false
      else match_negative w entities offset (i + 1) rest
  end.

Definition match_ (w : World) (id : jsnum) (entities : View)
    (positiveMask negativeMask : option (list jsnum)) : bool :=
  let offset := slot_base w id in
  (match positiveMask with
   | Some pm => match_positive w entities offset 0 pm
   | None => true
   end)
  &&
  (match negativeMask with
   | Some nm => match_negative w entities offset 0 nm
   | None => true
   end).

Definition matchCurrent (w : World) (id : jsnum) (pm nm : option (list jsnum)) : bool :=
  match_ w id (current w) pm nm.
Definition matchPrevious (w : World) (id : jsnum) (pm nm : option (list jsnum)) : bool :=
  match_ w id (previous w) pm nm.
Definition matchMutated (w : World) (id : jsnum) (pm nm : option (list jsnum)) : bool :=
  match_ w id (mutations w) pm nm.

(** ** class Entity

    A handle is a reference into the heap of pooled [Entity] objects; its
    methods read [this.__id] at the time of the call. *)

Module Entity.

(** [this.__id] *)
Definition id_of (w : World) (this : nat) : jsnum :=
  match heap w !! this with Some e => __id e | None => undefined end.

(** [__checkMask(type, write)] *)
Definition __checkMask (type : ComponentType) (write_ : bool) : St unit :=
  fun w =>
    match rwMasks w with
    | Some rw =>
        if negb (maskHasFlag (if write_ then write rw else read rw) type)
        then (Throw (CapabilityError write_), w)
        else (Ok tt, w)
    | None => (Ok tt, w)
    end.

(** [has(type)] *)
Definition has (this : nat) (type : ComponentType) : St bool :=
  __checkMask type false ;;
  gets (fun w => hasFlag w (id_of w this) type).

(** [add(type, values)] *)
Definition add (this : nat) (type : ComponentType) (values : list (string * FieldVal))
    : St nat :=
  __checkMask type true ;;
  let! present := has this type in
  if present : bool then throw AlreadyHas
  else
    let! id := gets (fun w => id_of w this) in
    setFlag id type ;;
    initComponent type id values ;;
    ret this.

(** [__get(type, allowWrite)]; [None] is the [undefined] it returns *)
Definition __get (this : nat) (type : ComponentType) (allowWrite : bool)
    : St (option Component) :=
  __checkMask type allowWrite ;;
  let! present := has this type in
  if negb present then ret None
  else
    let! id := gets (fun w => id_of w this) in
    let! c := bindComponent type id allowWrite in
    ret (Some c).

(** [read(type)] *)
Definition read (this : nat) (type : ComponentType) : St Component :=
  let! component := __get this type false in
  match component with
  | None => throw NoComponent
  | Some c => ret c
  end.

(** [readIfPresent(type)] *)
Definition readIfPresent (this : nat) (type : ComponentType) : St (option Component) :=
  __get this type false.

(** [write(type)] *)
Definition write (this : nat) (type : ComponentType) : St Component :=
  let! component := __get this type true in
  match component with
  | None => throw NoComponent
  | Some c =>
      let! id := gets (fun w => id_of w this) in
      markMutated id type ;;
      ret c
  end.

Definition is_ref (f : Field) : bool := bool_decide (ftype f = TypeRef).

(** The loop of [__deindexOutboundRefs] over the fields. *)
Fixpoint null_refs (component : Component) (fs : list Field) : St unit :=
  match fs with
  | [] => ret tt
  | field :: rest =>
      (if is_ref field then setField component (fname field) VNull else ret tt) ;;
      null_refs component rest
  end.

(** [__deindexOutboundRefs(type)] *)
Definition __deindexOutboundRefs (this : nat) (type : ComponentType) : St unit :=
  let fs := getFields type in
  if existsb is_ref fs then
    let! component := write this type in
    null_refs component fs
  else ret tt.

(** [__wipeInboundRefs()]: "TODO: implement" *)
Definition __wipeInboundRefs (this : nat) : St unit := ret tt.

(** [__remove(type)] *)
Definition __remove (this : nat) (type : ComponentType) : St bool :=
  __deindexOutboundRefs this type ;;
  let! id := gets (fun w => id_of w this) in
  clearFlag id type ;;
  let! allocated := gets (fun w => isAllocated w (id_of w this) (current w)) in
  (if negb allocated then __wipeInboundRefs this else ret tt) ;;
  ret true.

(** [remove(type)] *)
Definition remove (this : nat) (type : ComponentType) : St bool :=
  __checkMask type true ;;
  let! present := gets (fun w => hasFlag w (id_of w this) type) in
  if negb present then ret false
  else
    __remove this type ;;
    ret true.

(** The loop of [delete()] over [this.__entities.types]. *)
Fixpoint delete_loop (this : nat) (ts : list ComponentType) : St unit :=
  match ts with
  | [] => ret tt
  | type :: rest =>
      let! present := gets (fun w => hasFlag w (id_of w this) type) in
      (if negb present then ret tt
       else
         __checkMask type true ;;
         __remove this type ;;
         ret tt) ;;
      delete_loop this rest
  end.

(** [delete()] *)
Definition delete (this : nat) : St unit :=
  let! ts := gets types in
  delete_loop this ts.

End Entity.

(** ** Entity creation *)

(** An element of [initialComponents]: a component class ([typeof] gives
    ['function']) or anything else, taken as the values of the class before
    it. *)
Inductive InitItem : Type :=
  | ItemType (type : ComponentType)
  | ItemValues (values : list (string * FieldVal)).

(** The [for] loop of [createEntity] over [initialComponents]. *)
Fixpoint add_initial (entity : nat) (items : list InitItem) : St unit :=
  match items with
  | [] => ret tt
  | ItemValues _ :: _ => throw BadArguments
  | ItemType type :: rest =>
      match rest with
      | ItemValues value :: rest' =>
          Entity.add entity type value ;; add_initial entity rest'
      | _ =>
          (* the next element is a class, or there is none: value = undefined *)
          Entity.add entity type [] ;; add_initial entity rest
      end
  end.

(** [id += 1; if (id === this.maxNum) id = 1;] *)
Definition next_slot (w : World) (id : Z) : Z :=
  if id + 1 =? maxNum w then 1 else id + 1.

(** The [while (true)] loop of [createEntity]; [fuel] bounds its turns. *)
Fixpoint createEntity_loop (fuel : nat) (initial id : Z)
    (initialComponents : option (list InitItem)) : St nat :=
  match fuel with
  | O => fun w => (OutOfFuel, w)
  | S fuel' =>
      fun w =>
        if negb (isAllocated w (Some id) (current w))
           && negb (isAllocated w (Some id) (previous w))
        then
          (let! entity := bindEntity (Some id) in
           match initialComponents with
           | Some items => add_initial entity items
           | None => ret tt
           end ;;
           modify (fun w' => set_nextId (next_slot w' id) w') ;;
           ret entity) w
        else if next_slot w id =? initial then (Throw CapacityError, w)
        else createEntity_loop fuel' initial (next_slot w id) initialComponents w
  end.

(** [createEntity(initialComponents)] *)
Definition createEntity (fuel : nat) (initialComponents : option (list InitItem)) : St nat :=
  fun w => createEntity_loop fuel (nextId w) (nextId w) initialComponents w.

(** ** The scanning kernel

    The WebAssembly function [iterateAll] of [generateWasmModule], over the
    memory as its state.  Locals and parameters are [i32]: integers modulo
    [2^32].  A load or store outside the memory traps. *)

Module Kernel.

Definition i32 (z : Z) : Z := z mod 2 ^ 32.

Record locals : Type := {
  segSize : Z; posMask : Z; negMask : Z;
  id : Z; numResults : Z;
  currOffset : Z; prevOffset : Z; filtOffset : Z
}.

(** [i32.load]; every address the function forms is a multiple of 4
    ([segSize] is), so the memory is read by whole words. *)
Definition load (bytes : Z) (addr : Z) : M (gmap Z Z) Z :=
  fun m =>
    if (addr + 4 <=? bytes) && (addr mod 4 =? 0)
    then (Ok (mem_word m (addr / 4)), m)
    else (Throw WasmTrap, m).

(** [i32.store] *)
Definition store (bytes : Z) (addr : Z) (v : Z) : M (gmap Z Z) unit :=
  fun m =>
    if (addr + 4 <=? bytes) && (addr mod 4 =? 0)
    then (Ok tt, <[addr / 4 := i32 v]> m)
    else (Throw WasmTrap, m).

Definition b2i (b : bool) : Z := if b then 1 else 0.

(** One turn of [loop $top]: the locals after it, and whether [br_if $break]
    was taken. *)
Definition turn (bytes : Z) (l : locals) : M (gmap Z Z) (locals * bool) :=
  let! w1 := load bytes (currOffset l) in
  let! w2 := load bytes (currOffset l) in
  let cond :=
    Z.land (b2i (Z.land w1 (posMask l) =? posMask l))
           (b2i (Z.land w2 (negMask l) =? 0)) in
  let! l1 :=
    (if negb (cond =? 0) then
       store bytes (filtOffset l) (id l) ;;
       ret {| segSize := segSize l; posMask := posMask l; negMask := negMask l;
              id := id l; numResults := i32 (numResults l + 1);
              currOffset := currOffset l; prevOffset := prevOffset l;
              filtOffset := i32 (filtOffset l + 4) |}
     else ret l) in
  let l2 :=
    {| segSize := segSize l1; posMask := posMask l1; negMask := negMask l1;
       id := i32 (id l1 + 1); numResults := numResults l1;
       currOffset := i32 (currOffset l1 + 4); prevOffset := i32 (prevOffset l1 + 4);
       filtOffset := filtOffset l1 |} in
  ret (l2, currOffset l2 =? segSize l2).

Fixpoint loop (fuel : nat) (bytes : Z) (l : locals) : M (gmap Z Z) locals :=
  match fuel with
  | O => fun m => (OutOfFuel, m)
  | S fuel' =>
      let! r := turn bytes l in
      if snd r then ret (fst r) else loop fuel' bytes (fst r)
  end.

(** The exported function; arguments arrive as [i32]. *)
Definition iterateAll (fuel : nat) (bytes : Z) (segSize_ posMask_ negMask_ : Z)
    : M (gmap Z Z) Z :=
  let l0 :=
    {| segSize := i32 segSize_; posMask := i32 posMask_; negMask := i32 negMask_;
       id := 1; numResults := 0;
       currOffset := 4;
       prevOffset := i32 (i32 segSize_ + 4);
       filtOffset := i32 (i32 segSize_ * 3) |} in
  let! l := loop fuel bytes l0 in
  ret (numResults l).

End Kernel.

(** ** Iteration *)

(** Modelled from the spec: the dispatcher's [flush()], missing from the
    sources ("invoked between iteration elements"); the call is recorded. *)
Definition flush : St unit := modify (emit EvFlush).

Inductive IteratorResult : Type :=
  | Done
  | Value (entity : nat).

(** [mask?.[0] ?? 0] *)
Definition first_word (mask : option (list jsnum)) : Z :=
  match mask with
  | Some a => nullish (array_get a 0) 0
  | None => 0
  end.

(** Run a computation on the memory inside the world. *)
Definition on_memory {A} (c : M (gmap Z Z) A) : St A :=
  fun w => let '(r, m) := c (memory w) in (r, set_memory m w).

(** [iterateAll(withMask, withoutMask)]: the kernel runs once, at the call;
    the iterable it returns is determined by [numResults]. *)
Definition iterateAll (fuel : nat) (withMask withoutMask : option (list jsnum)) : St Z :=
  let! w := get in
  let! n :=
    on_memory (Kernel.iterateAll fuel (blocks w * 2 ^ 16) (flagSegmentSize w)
                 (first_word withMask) (first_word withoutMask)) in
  ret (ToInt32 n).

(** [next()] of an iterator of that iterable; [i] is the iterator's variable,
    [-1] when it is created. *)
Definition iterateAll_next (numResults : Z) (i : Z) : St (IteratorResult * Z) :=
  (if 0 <=? i then flush else ret tt) ;;
  let i := i + 1 in
  if numResults <=? i then ret (Done, i)
  else
    let! id := gets (fun w => ta_get (filtered w) (memory w) (Some i)) in
    let! entity := bindEntity id in
    ret (Value entity, i).

(** [while (id < maxEntities && !predicate(id)) id++], which takes at most
    [n = maxEntities - id] turns. *)
Fixpoint iterate_skip (predicate : Z → World → bool) (w : World) (n : nat) (id : Z) : Z :=
  match n with
  | O => id
  | S k =>
      if (id <? maxNum w) && negb (predicate id w)
      then iterate_skip predicate w k (id + 1)
      else id
  end.

(** [next()] of an iterator of [iterate(predicate)]; [id] is the iterator's
    variable, [1] when it is created.  The predicate reads the store. *)
Definition iterate_next (predicate : Z → World → bool) (id : Z) : St (IteratorResult * Z) :=
  flush ;;
  let! w := get in
  let id := iterate_skip predicate w (Z.to_nat (maxNum w - id)) id in
  if id <? maxNum w then
    let! entity := bindEntity (Some id) in
    ret (Value entity, id + 1)
  else ret (Done, id).

(** [new Entities(maxEntities, types, dispatcher)]: each class, given by its
    name and fields, gets its controller with the next ordinal; the memory
    starts zeroed; [rw] is the dispatcher's [rwMasks]. *)
Definition Entities (maxEntities_ : Z) (types_ : list (string * list Field))
    (rw : option ReadWriteMasks) : World :=
  let '(p, h) := Pool.new newEntity 20 [] in
  {| maxNum := maxEntities_ + 1;
     types := imap (fun componentId c => Controller componentId (fst c) (snd c)) types_;
     nextId := 1; memory := ∅;
     pool := p; heap := h; rwMasks := rw; events := []; storage := ∅ |}.

(** ** The decorator [system]

    [systemTypes] is a module-level array.  System classes, schedule
    functions and system groups are JavaScript objects, compared by
    identity; a name stands for each.  [typeof arg === 'function'] holds of
    classes and of schedule functions, [arg.__system] only of system
    classes. *)

Module Decorators.

(** What [system] may be given as [arg]. *)
Inductive SystemArg : Type :=
  | ArgSystemClass (systemClass : string)   (* a function with [__system] *)
  | ArgScheduleFn (scheduler : string)      (* a function without [__system] *)
  | ArgGroup (systemGroup : string)         (* an object *)
  | ArgUndefined.

(** An element of [systemTypes]. *)
Inductive SystemEntry : Type :=
  | SystemType (systemClass : string)
  | SystemGroup (systemGroup : string).

#[global] Instance SystemEntry_eq_dec : EqDecision SystemEntry.
Proof. solve_decision. Defined.

Record Registry : Type := {
  systemTypes : list SystemEntry;
  (* [group.__contents], by group *)
  __contents : gmap string (list string);
  (* [systemClass.__staticScheduler], by class *)
  __staticScheduler : gmap string string
}.

Definition empty : Registry :=
  {| systemTypes := []; __contents := ∅; __staticScheduler := ∅ |}.

(** [systemTypes.push(x)] *)
Definition push_system (x : SystemEntry) (r : Registry) : Registry :=
  {| systemTypes := systemTypes r ++ [x];
     __contents := __contents r; __staticScheduler := __staticScheduler r |}.

(** The closure [system] returns: the [arg] (a group or [undefined]) and the
    [scheduler] it captured. *)
Record SystemDecorator : Type := {
  d_group : option string;
  d_scheduler : option string
}.

(** [system(arg, scheduler)]: [None] where it returns nothing. *)
Definition system (arg : SystemArg) (scheduler : option string) (r : Registry)
    : option SystemDecorator * Registry :=
  match arg with
  | ArgScheduleFn s =>
      (* scheduler = arg; arg = undefined; *)
      (Some {| d_group := None; d_scheduler := Some s |}, r)
  | ArgSystemClass c => (None, push_system (SystemType c) r)
  | ArgGroup g =>
      (* if (arg && !systemTypes.includes(arg)) systemTypes.push(arg); *)
      (Some {| d_group := Some g; d_scheduler := scheduler |},
       if bool_decide (SystemGroup g ∈ systemTypes r) then r
       else push_system (SystemGroup g) r)
  | ArgUndefined => (Some {| d_group := None; d_scheduler := scheduler |}, r)
  end.

(** [group.__contents] *)
Definition contents_of (r : Registry) (g : string) : list string :=
  default [] (__contents r !! g).

(** The closure applied to a system class. *)
Definition system_decorator (d : SystemDecorator) (systemClass : string) (r : Registry)
    : Registry :=
  let r1 :=
    match d_group d with
    | Some g =>
        {| systemTypes := systemTypes r;
           __contents := <[g := contents_of r g ++ [systemClass]]> (__contents r);
           __staticScheduler := __staticScheduler r |}
    | None => r
    end in
  let r2 :=
    match d_scheduler d with
    | Some s =>
        {| systemTypes := systemTypes r1;
           __contents := __contents r1;
           __staticScheduler := <[systemClass := s]> (__staticScheduler r1) |}
    | None => r1
    end in
  push_system (SystemType systemClass) r2.

(** [@system(arg, scheduler) class systemClass ...]: the call and, where it
    returns one, the decorator applied to the class. *)
Definition decorated (arg : SystemArg) (scheduler : option string) (systemClass : string)
    (r : Registry) : Registry :=
  match system arg scheduler r with
  | (Some d, r1) => system_decorator d systemClass r1
  | (None, r1) => r1
  end.

End Decorators.

(** * The vocabulary of the statements *)

(** A computation keeps a relation [R] between the state it starts in and
    the state it leaves, however it ends. *)
Definition frame {S : Type} (R : S → S → Prop) {A} (m : M S A) : Prop :=
  ∀ s, R s (snd (m s)).

(** What no method of the store or of a handle changes but [bindEntity]:
    the pool and the heap of handles; and what nothing changes: the read-only
    fields. *)
Definition same_handles (w w' : World) : Prop :=
  pool w' = pool w ∧ heap w' = heap w ∧ maxNum w' = maxNum w ∧ types w' = types w.

(** The store's pool of handles is well formed. *)
Definition pool_wf (w : World) : Prop := Pool.wf (pool w, heap w).

#[global] Instance pool_wf_dec w : Decision (pool_wf w).
Proof. unfold pool_wf, Pool.wf. apply _. Defined.

(** The object [this.pool.borrow()] would return now. *)
Definition handle_of (w : World) : option nat :=
  fst (Pool.borrow newEntity (pool w, heap w)).

(** Two component classes: [A] with a reference field and a number, [B]
    without fields. *)
Definition fieldsA : list Field :=
  [{| fname := "target"; ftype := TypeRef |}; {| fname := "x"; ftype := TypeOther |}].

Definition compA : ComponentType := Controller 0 "A" fieldsA.
Definition compB : ComponentType := Controller 1 "B" [].

(** [new Entities(4, [A, B], dispatcher)], no system executing. *)
Definition demo : World := Entities 4 [("A", fieldsA); ("B", [])] None.

(** A number as the 32-bit word it stands for, its bits 0 to 31: [2147483648]
    and [-2147483648] are one word, bit 31 alone. *)
Definition word32 (z : Z) : Z := z mod 2 ^ 32.

(** The word test in the specification's words: the buffer word AND the mask
    word equals the mask word, "all required bits set" ... *)
Definition required_bits_set (word mask : Z) : bool :=
  Z.land (word32 word) (word32 mask) =? word32 mask.

(** ... and the buffer word AND the mask word is zero, "no forbidden bits
    set". *)
Definition forbidden_bits_clear (word mask : Z) : bool :=
  Z.land (word32 word) (word32 mask) =? 0.

(** The buffer word of a slot at a word index. *)
Definition buffer_word (w : World) (entities : View) (id : Z) (i : nat) : jsnum :=
  ta_get entities (memory w) (Some (id * stride w + Z.of_nat i)).

(** The specification's test of a slot against a positive mask: every word
    present in the mask has its bits set in the buffer word at the same
    index.  An omitted mask and the indices past the mask's end ask
    nothing. *)
Definition covers (w : World) (entities : View) (id : Z)
    (positiveMask : option (list jsnum)) : Prop :=
  ∀ mask (i : nat) maskWord word,
    positiveMask = Some mask → mask !! i = Some (Some maskWord) →
    buffer_word w entities id i = Some word →
    required_bits_set word maskWord = true.

(** The same against a negative mask: no word present in the mask has a bit
    in common with the buffer word at the same index. *)
Definition avoids (w : World) (entities : View) (id : Z)
    (negativeMask : option (list jsnum)) : Prop :=
  ∀ mask (i : nat) maskWord word,
    negativeMask = Some mask → mask !! i = Some (Some maskWord) →
    buffer_word w entities id i = Some word →
    forbidden_bits_clear word maskWord = true.

(** A mask that is not longer than a slot. *)
Definition within (w : World) (mask : option (list jsnum)) : Prop :=
  ∀ a, mask = Some a → Z.of_nat (length a) ≤ stride w.

(** A store of 32 component types and one slot, whose entity has all 32 of
    them: every bit of the word of slot 1 is set. *)
Definition full32 : World :=
  let w := Entities 1 (replicate 32 ("T", [])) None in
  snd (createEntity 1 (Some (ItemType <$> types w)) w).

(** Whether the executing system may read ([wr = false]) or write the type;
    anything goes while no system is executing. *)
Definition may (w : World) (wr : bool) (type : ComponentType) : bool :=
  match rwMasks w with
  | Some rw => maskHasFlag (if wr then write rw else read rw) type
  | None => true
  end.

(** The masks of a system that declared no component at all. *)
Definition undeclared : ReadWriteMasks := {| read := []; write := [] |}.

(** The store with slot 1 holding an [A], that system executing. *)
Definition denied : World :=
  set_rwMasks (Some undeclared)
    (snd (createEntity 4 (Some [ItemType compA]) demo)).

(** Two windows that do not overlap. *)
Definition apart (v1 v2 : View) : Prop :=
  base v1 + len v1 ≤ base v2 ∨ base v2 + len v2 ≤ base v1.

(** The storage once the reference fields of a component view are nulled. *)
Definition nulled (c : Component) (fs : list Field)
    (st : gmap (nat * jsnum * string) FieldVal) : gmap (nat * jsnum * string) FieldVal :=
  foldl (fun st f =>
           if Entity.is_ref f then <[(componentId (c_type c), c_id c, fname f) := VNull]> st
           else st) st fs.

(** The test of [createEntity]: unallocated in both buffers. *)
Definition free (w : World) (id : Z) : bool :=
  negb (isAllocated w (Some id) (current w)) && negb (isAllocated w (Some id) (previous w)).

(** What [createEntity] does with the slot it settles on. *)
Definition allocate (ic : option (list InitItem)) (id : Z) : St nat :=
  let! entity := bindEntity (Some id) in
  match ic with
  | Some items => add_initial entity items
  | None => ret tt
  end ;;
  modify (fun w' => set_nextId (next_slot w' id) w') ;;
  ret entity.

(** The slots the scan visits from [id] on, in order, until it is back at
    [initial]. *)
Inductive chain (w : World) (initial : Z) : Z → list Z → Prop :=
  | chain_last id :
      next_slot w id = initial → chain w initial id [id]
  | chain_cons id l :
      next_slot w id ≠ initial → chain w initial (next_slot w id) l →
      chain w initial id (id :: l).

(** The order of the scan: from the cursor to the last slot, then from slot
    1 to the slot before the cursor. *)
Definition scan_order (w : World) : list Z :=
  seqZ (nextId w) (maxNum w - nextId w) ++ seqZ 1 (nextId w - 1).

(** Once a slot is found, nothing [createEntity] does ends in the capacity
    error or runs out of fuel. *)
Definition settles {A} (m : St A) : Prop :=
  ∀ w, fst (m w) ≠ Throw CapacityError ∧ fst (m w) ≠ OutOfFuel.

(** A type whose flag word lies inside a slot and whose mask is not zero. *)
Definition registered (w : World) (type : ComponentType) : Prop :=
  Z.of_nat (flagOffset type) < stride w ∧ ToInt32 (flagMask type) ≠ 0.

(** Between two states in which no flag of the current buffer was cleared:
    a word that is not zero stays so. *)
Definition grows (w w' : World) : Prop :=
  maxNum w' = maxNum w ∧ types w' = types w
  ∧ ∀ a, 0 ≤ a < maxNum w * stride w →
         mem_word (memory w) a ≠ 0 → mem_word (memory w') a ≠ 0.

(** [initialComponents] begins with a registered component class. *)
Definition attaching (w : World) (ic : option (list InitItem)) : Prop :=
  ∃ type rest, ic = Some (ItemType type :: rest) ∧ registered w type.

(** [createEntity([A])] *)
Definition createA : St nat := createEntity 4 (Some [ItemType compA]).

(** The store after four [createEntity([A])]. *)
Definition four_created : World :=
  snd (createA (snd (createA (snd (createA (snd (createA demo))))))).

(** [createEntity()] *)
Definition createNone : St nat := createEntity 4 None.

(** What every method but [step()] keeps: the read-only fields, what the
    previous buffer reads, and a well-formed pool. *)
Definition keeps (w w' : World) : Prop :=
  maxNum w' = maxNum w ∧ types w' = types w
  ∧ (pool_wf w → pool_wf w')
  ∧ ∀ i, ta_get (previous w') (memory w') i = ta_get (previous w) (memory w) i.

(** A call on the store or on a handle, as a system makes them. *)
Inductive Call : Type :=
  | CallStep
  | CallCreateEntity (initialComponents : option (list InitItem))
  | CallAdd (entity : nat) (type : ComponentType) (values : list (string * FieldVal))
  | CallRemove (entity : nat) (type : ComponentType)
  | CallHas (entity : nat) (type : ComponentType)
  | CallRead (entity : nat) (type : ComponentType)
  | CallReadIfPresent (entity : nat) (type : ComponentType)
  | CallWrite (entity : nat) (type : ComponentType)
  | CallDelete (entity : nat).

(** What such a call returns. *)
Inductive Returned : Type :=
  | RetUnit
  | RetEntity (entity : nat)
  | RetBool (b : bool)
  | RetComponent (c : option Component).

(** One call; [fuel] is for the scan of [createEntity]. *)
Definition call (fuel : nat) (c : Call) : St Returned :=
  match c with
  | CallStep => step ;; ret RetUnit
  | CallCreateEntity ic => let! e := createEntity fuel ic in ret (RetEntity e)
  | CallAdd e type values => let! e' := Entity.add e type values in ret (RetEntity e')
  | CallRemove e type => let! b := Entity.remove e type in ret (RetBool b)
  | CallHas e type => let! b := Entity.has e type in ret (RetBool b)
  | CallRead e type => let! c := Entity.read e type in ret (RetComponent (Some c))
  | CallReadIfPresent e type => let! c := Entity.readIfPresent e type in ret (RetComponent c)
  | CallWrite e type => let! c := Entity.write e type in ret (RetComponent (Some c))
  | CallDelete e => Entity.delete e ;; ret RetUnit
  end.

(** The calls one after the other, a caller catching what they throw: each
    with what it returned and the world it left. *)
Fixpoint run (fuel : nat) (cs : list Call) (w : World)
    : list (Call * outcome Returned * World) :=
  match cs with
  | [] => []
  | c :: cs' =>
      let r := call fuel c w in
      (c, fst r, snd r) :: run fuel cs' (snd r)
  end.

(** Slot 1 holds an [A] and a frame has passed. *)
Definition stepped : World := snd (step (snd (createA demo))).

(** [entity.remove(A)], then [createEntity([A])]. *)
Definition remove_then_create : list Call :=
  [CallRemove 0 compA; CallCreateEntity (Some [ItemType compA])].

(** A store with a single slot. *)
Definition one_slot : World := Entities 1 [("A", fieldsA); ("B", [])] None.

(** [createEntity([A])], [entity.remove(A)], [createEntity([A])]. *)
Definition create_remove_create : list Call :=
  [CallCreateEntity (Some [ItemType compA]);
   CallRemove 0 compA;
   CallCreateEntity (Some [ItemType compA])].

(** What a call appended to the record of calls. *)
Definition appended (w w' : World) : list Event :=
  drop (length (events w)) (events w').

(** The query "has an [A]", as a predicate for [iterate]. *)
Definition hasA (id : Z) (w : World) : bool :=
  matchCurrent w (Some id) (Some [Some 1]) None.

(** A mask of at most one word. *)
Definition one_word (mask : option (list jsnum)) : Prop :=
  ∀ a, mask = Some a → (length a ≤ 1)%nat.

(** A mask whose words are numbers in the signed 32-bit range, as [|=]
    leaves them in [extendMaskAndSetFlag]. *)
Definition int32_words (mask : option (list jsnum)) : Prop :=
  ∀ a x, mask = Some a → x ∈ a → ∃ p, x = Some p ∧ - 2 ^ 31 ≤ p < 2 ^ 31.

(** The scanning kernel, turn by turn. *)
Module KernelSpec.
Import Kernel.

(** The test of one turn, on the word of slot [j]. *)
Definition hit (P N : Z) (m : gmap Z Z) (j : Z) : bool :=
  (Z.land (mem_word m j) P =? P) && (Z.land (mem_word m j) N =? 0).

(** Consecutive stores from a word index on. *)
Fixpoint put_words (a : Z) (xs : list Z) (m : gmap Z Z) : gmap Z Z :=
  match xs with
  | [] => m
  | x :: xs' => put_words (a + 1) xs' (<[a := i32 x]> m)
  end.

(** The locals after one turn. *)
Definition after_turn (l : locals) (h : bool) : locals :=
  {| segSize := segSize l; posMask := posMask l; negMask := negMask l;
     id := i32 (id l + 1);
     numResults := if h then i32 (numResults l + 1) else numResults l;
     currOffset := i32 (currOffset l + 4);
     prevOffset := i32 (prevOffset l + 4);
     filtOffset := if h then i32 (filtOffset l + 4) else filtOffset l |}.

(** The locals and the memory when the turn for slot [j] begins, [r]
    matches having been stored. *)
Definition at_slot (n P N : Z) (m0 : gmap Z Z) (l : locals) (m : gmap Z Z) (j r : Z)
    : Prop :=
  segSize l = 4 * n ∧ posMask l = P ∧ negMask l = N
  ∧ id l = j ∧ currOffset l = 4 * j
  ∧ filtOffset l = 12 * n + 4 * r ∧ numResults l = r
  ∧ ∀ a, a < 3 * n → mem_word m a = mem_word m0 a.

End KernelSpec.

(** The slots the kernel selects, in its order. *)
Definition hits (w : World) (pm nm : option (list jsnum)) : list Z :=
  List.filter
    (KernelSpec.hit (Kernel.i32 (first_word pm)) (Kernel.i32 (first_word nm)) (memory w))
    (seqZ 1 (maxNum w - 1)).

(** A store of 33 component types, hence a stride of two words, and one
    slot, which holds component 0. *)
Definition wide : World :=
  snd (createEntity 1 (Some [ItemType (Controller 0 "T" [])])
         (Entities 1 (replicate 33 ("T", [])) None)).

(** That store after [iterateAll] with the mask of component 0. *)
Definition wide_scanned : World := snd (iterateAll 3 (Some [Some 1]) None wide).

(** ** Further vocabulary *)

(** [n] calls of [take()] in a row: what they return, and the pool after
    them. *)
Fixpoint takes {T} (Class : T) (n : nat) (s : Pool.state) : list (option nat) * Pool.state :=
  match n with
  | O => ([], s)
  | S k =>
      let '(r, s1) := Pool.take Class s in
      let '(rs, s2) := takes Class k s1 in
      (r :: rs, s2)
  end.

(** What reading a component, marking it mutated and writing its fields leave
    alone: the read-only fields, the cursor, the handles, the masks of the
    executing system and every word of the current buffer. *)
Definition same_presence (w w' : World) : Prop :=
  maxNum w' = maxNum w ∧ types w' = types w ∧ nextId w' = nextId w
  ∧ pool w' = pool w ∧ heap w' = heap w ∧ rwMasks w' = rwMasks w
  ∧ ∀ i, ta_get (current w') (memory w') i = ta_get (current w) (memory w) i.

(** The query mask of one component type: its flag in its word, zeros in
    the words before. *)
Definition only (type : ComponentType) : list jsnum :=
  replicate (flagOffset type) (Some 0) ++ [Some (ToInt32 (flagMask type))].

(** The store after one [createEntity()]: the handle is bound to slot 1,
    which holds no component. *)
Definition bare : World := snd (createNone demo).

(** The store after [createEntity([A, B])]: slot 1 holds every component
    type there is. *)
Definition both : World :=
  snd (createEntity 4 (Some [ItemType compA; ItemType compB]) demo).

(** The full store after the entity created last gave up its component:
    slots 1 to 3 are taken, slot 4 is free again, the cursor is on slot 1. *)
Definition last_released : World := snd (Entity.remove 0 compA four_created).

(** [new Entities(0, [A], dispatcher)]: a store without a slot. *)
Definition no_slot : World := Entities 0 [("A", fieldsA)] None.

(** [for (const entity of iterable) ids.push(entity.__id)]: a [for...of]
    loop over an iterator, calling [next()] until it is done; the body reads
    the id the handle is bound to and does nothing else.  [next] is the
    iterator's [next()] on its variable, [fuel] bounds the calls. *)
Fixpoint for_of (fuel : nat) (next : Z → St (IteratorResult * Z)) (i : Z)
    : St (list jsnum) :=
  match fuel with
  | O => fun w => (OutOfFuel, w)
  | S fuel' =>
      let! r := next i in
      match fst r with
      | Done => ret []
      | Value entity =>
          let! id := gets (fun w => Entity.id_of w entity) in
          let! rest := for_of fuel' next (snd r) in
          ret (id :: rest)
      end
  end.

(** The query of a positive and a negative mask, as a predicate for
    [iterate]. *)
Definition matching (pm nm : option (list jsnum)) (id : Z) (w : World) : bool :=
  matchCurrent w (Some id) pm nm.

(** A predicate that reads nothing of the store but its memory, where the
    flag buffers are, and its read-only fields. *)
Definition reads_memory_only (predicate : Z → World → bool) : Prop :=
  ∀ id w1 w2,
    memory w1 = memory w2 → maxNum w1 = maxNum w2 → types w1 = types w2 →
    predicate id w1 = predicate id w2.

(** Between two states of which the second has no flag that the first
    lacked; the handles are bound as before. *)
Definition shrinks (w w' : World) : Prop :=
  maxNum w' = maxNum w ∧ types w' = types w ∧ heap w' = heap w ∧ rwMasks w' = rwMasks w
  ∧ ∀ id type, hasFlag w' id type = true → hasFlag w id type = true.

(** * Properties *)

(** ** The pool *)

Module PoolFacts.
Import Pool.

Section WithClass.
Context {T : Type} (Class : T).

Lemma grow_wf s : wf s → wf (grow Class s).
Proof.
  destruct s as [p h]. unfold wf, grow; simpl. intros (Hn & Hd & Hf).
  destruct (Nat.eqb_spec (next p) (length (list_ p))); simpl; [|done].
  rewrite !length_app; simpl. split; [lia|]. split.
  - apply NoDup_app. split; [done|]. split; [|apply NoDup_singleton].
    intros x Hx Hx'. apply list_elem_of_singleton in Hx'. subst x.
    rewrite Forall_forall in Hf. specialize (Hf _ Hx). lia.
  - apply Forall_app. split.
    + eapply Forall_impl; [exact Hf|]. simpl. intros; lia.
    + apply Forall_singleton. lia.
Qed.

Lemma grow_cursor_lt s :
  wf s → (next (fst (grow Class s)) < length (list_ (fst (grow Class s))))%nat.
Proof.
  destruct s as [p h]. unfold wf, grow; simpl. intros (Hn & _).
  destruct (Nat.eqb_spec (next p) (length (list_ p))); simpl.
  - rewrite length_app; simpl. lia.
  - lia.
Qed.

Lemma grow_idem s : grow Class (grow Class s) = grow Class s.
Proof.
  destruct s as [p h]. unfold grow.
  destruct (Nat.eqb_spec (next p) (length (list_ p))) as [E|E]; simpl.
  - rewrite length_app; simpl.
    destruct (Nat.eqb_spec (next p) (length (list_ p) + 1)); [lia|done].
  - destruct (Nat.eqb_spec (next p) (length (list_ p))); [lia|done].
Qed.

Lemma borrow_state s : snd (borrow Class s) = grow Class s.
Proof. unfold borrow. by destruct (grow Class s). Qed.

Lemma borrow_result s :
  fst (borrow Class s) = list_ (fst (grow Class s)) !! next (fst (grow Class s)).
Proof. unfold borrow. by destruct (grow Class s). Qed.

Lemma take_result s : fst (take Class s) = fst (borrow Class s).
Proof. unfold take, borrow. by destruct (grow Class s). Qed.

Lemma grow_next s : next (fst (grow Class s)) = next (fst s).
Proof. destruct s as [p h]. unfold grow. by case_match. Qed.

(** [borrow] leaves the cursor where it is. *)
Lemma borrow_next s : next (fst (snd (borrow Class s))) = next (fst s).
Proof. rewrite borrow_state. apply grow_next. Qed.

Lemma borrow_borrow s : fst (borrow Class (snd (borrow Class s))) = fst (borrow Class s).
Proof. by rewrite !borrow_result, borrow_state, grow_idem. Qed.


Lemma borrow_wf s : wf s → wf (snd (borrow Class s)).
Proof. rewrite borrow_state. apply grow_wf. Qed.

Lemma borrow_is_Some s : wf s → is_Some (fst (borrow Class s)).
Proof.
  intros H. rewrite borrow_result. apply lookup_lt_is_Some.
  by apply grow_cursor_lt.
Qed.

Lemma take_wf s : wf s → wf (snd (take Class s)).
Proof.
  intros H. pose proof (grow_wf _ H) as (Hn & Hd & Hf).
  pose proof (grow_cursor_lt _ H) as Hlt.
  unfold take. destruct (grow Class s) as [p h]; simpl in *.
  split; simpl; [lia|done].
Qed.


Lemma populate_wf n s : wf s → wf (populate Class n s).
Proof.
  intros H. induction n as [|n IH]; simpl; [done|].
  destruct (populate Class n s) as [p h]. destruct IH as (Hn & Hd & Hf); simpl in *.
  split; simpl; [rewrite length_app; simpl; lia|]. split.
  - apply NoDup_app. split; [done|]. split; [|apply NoDup_singleton].
    intros x Hx Hx'. apply list_elem_of_singleton in Hx'. subst x.
    rewrite Forall_forall in Hf. specialize (Hf _ Hx). lia.
  - apply Forall_app. split.
    + eapply Forall_impl; [exact Hf|]. simpl. intros. rewrite length_app. lia.
    + apply Forall_singleton. rewrite length_app; simpl. lia.
Qed.

Lemma new_wf n h : wf (new Class n h).
Proof.
  apply populate_wf. split; simpl; [lia|]. split; [apply NoDup_nil_2|done].
Qed.
End WithClass.
End PoolFacts.

(** ** Reasoning about store computations *)

Lemma bind_Ok {S A B} (m : M S A) (k : A → M S B) s b s' :
  bind m k s = (Ok b, s') → ∃ a s1, m s = (Ok a, s1) ∧ k a s1 = (Ok b, s').
Proof.
  unfold bind. destruct (m s) as [[a|e|] s1]; intros H; [eauto|done..].
Qed.

Lemma bind_run {S A B} (m : M S A) (k : A → M S B) s a s1 :
  m s = (Ok a, s1) → bind m k s = k a s1.
Proof. unfold bind. by intros ->. Qed.

Lemma bind_throw {S A B} (m : M S A) (k : A → M S B) s e s1 :
  m s = (Throw e, s1) → bind m k s = (Throw e, s1).
Proof. unfold bind. by intros ->. Qed.

(** A computation keeps a preorder [R] between the state it starts in and
    the state it leaves, however it ends. *)
Section Frame.
Context {S : Type} (R : S → S → Prop).
Hypothesis R_refl : ∀ s, R s s.
Hypothesis R_trans : ∀ a b c, R a b → R b c → R a c.

Lemma frame_ret {A} (a : A) : frame R (ret a).
Proof using R_refl. intros s. apply R_refl. Qed.

Lemma frame_throw {A} e : frame R (throw (A := A) e).
Proof using R_refl. intros s. apply R_refl. Qed.

Lemma frame_gets {A} (f : S → A) : frame R (gets f).
Proof using R_refl. intros s. apply R_refl. Qed.

Lemma frame_get : frame R get.
Proof using R_refl. intros s. apply R_refl. Qed.

Lemma frame_modify f : (∀ s, R s (f s)) → frame R (modify f).
Proof. intros H s. apply H. Qed.

Lemma frame_bind {A B} (m : M S A) (k : A → M S B) :
  frame R m → (∀ a, frame R (k a)) → frame R (bind m k).
Proof using R_trans.
  intros Hm Hk s. unfold bind. specialize (Hm s).
  destruct (m s) as [[a|e|] s1]; simpl in *; [|done..].
  eapply R_trans; [exact Hm|apply Hk].
Qed.

Lemma frame_if {A} (b : bool) (m1 m2 : M S A) :
  frame R m1 → frame R m2 → frame R (if b then m1 else m2).
Proof. by destruct b. Qed.
End Frame.

Lemma same_handles_refl w : same_handles w w.
Proof. done. Qed.

Lemma same_handles_trans a b c : same_handles a b → same_handles b c → same_handles a c.
Proof. unfold same_handles. intros (?&?&?&?) (?&?&?&?). repeat split; congruence. Qed.

Ltac frame_step R_refl R_trans :=
  lazymatch goal with
  | |- frame _ (bind _ _) => apply (frame_bind _ R_trans); [|intros ?]
  | |- frame _ (ret _) => apply (frame_ret _ R_refl)
  | |- frame _ (throw _) => apply (frame_throw _ R_refl)
  | |- frame _ (gets _) => apply (frame_gets _ R_refl)
  | |- frame _ get => apply (frame_get _ R_refl)
  | |- frame _ (if _ then _ else _) => apply frame_if
  | |- frame _ (match ?x with _ => _ end) => destruct x
  | |- frame _ (modify _) => apply frame_modify; intros ?; done
  end.

Ltac frame_handles := repeat frame_step same_handles_refl same_handles_trans.

Lemma checkMask_same type wr w : snd (Entity.__checkMask type wr w) = w.
Proof. unfold Entity.__checkMask. by repeat case_match. Qed.

Lemma checkMask_frame_handles type wr : frame same_handles (Entity.__checkMask type wr).
Proof. intros w. by rewrite checkMask_same. Qed.

Lemma has_frame_handles this type : frame same_handles (Entity.has this type).
Proof. unfold Entity.has. frame_handles. apply checkMask_frame_handles. Qed.

Lemma add_frame_handles this type values : frame same_handles (Entity.add this type values).
Proof.
  unfold Entity.add, setFlag, initComponent. frame_handles.
  - apply checkMask_frame_handles.
  - apply has_frame_handles.
Qed.

Lemma add_initial_frame_handles entity items : frame same_handles (add_initial entity items).
Proof.
  remember (length items) as n eqn:Hn.
  assert (Hle : (length items ≤ n)%nat) by lia. clear Hn.
  revert items Hle. induction n as [|n IH]; intros items Hle.
  - destruct items; [|simpl in Hle; lia]. simpl. frame_handles.
  - destruct items as [|[type|vs] rest]; simpl; [frame_handles| |frame_handles].
    simpl in Hle.
    destruct rest as [|[type'|vs] rest']; frame_handles;
      try apply add_frame_handles; apply IH; simpl in *; lia.
Qed.

(** ** Handles are one pooled object *)



Lemma bindEntity_Ok id w e w' :
  bindEntity id w = (Ok e, w') →
  memory w' = memory w ∧ maxNum w' = maxNum w ∧ types w' = types w
  ∧ nextId w' = nextId w ∧ rwMasks w' = rwMasks w ∧ storage w' = storage w
  ∧ events w' = events w ++ [EvBind id].
Proof.
  unfold bindEntity.
  destruct (Pool.borrow newEntity (pool w, heap w)) as [[r|] [p h]]; [|done].
  intros [= <- <-]. done.
Qed.

Lemma bindEntity_spec id w :
  pool_wf w →
  ∃ e w', bindEntity id w = (Ok e, w')
    ∧ handle_of w = Some e ∧ handle_of w' = Some e
    ∧ Entity.id_of w' e = id ∧ pool_wf w'
    ∧ Pool.next (pool w') = Pool.next (pool w).
Proof.
  intros Hwf. unfold bindEntity, handle_of, pool_wf in *.
  pose proof (PoolFacts.borrow_is_Some newEntity _ Hwf) as [e He].
  pose proof (PoolFacts.borrow_wf newEntity _ Hwf) as Hwf'.
  pose proof (PoolFacts.borrow_borrow newEntity (pool w, heap w)) as Hbb.
  pose proof (PoolFacts.borrow_next newEntity (pool w, heap w)) as Hn.
  pose proof (PoolFacts.borrow_result newEntity (pool w, heap w)) as Hr.
  rewrite PoolFacts.borrow_state in *.
  destruct (Pool.borrow newEntity (pool w, heap w)) as [r [p h]] eqn:Eb.
  assert (Eg : Pool.grow newEntity (pool w, heap w) = (p, h)).
  { rewrite <- PoolFacts.borrow_state, Eb. done. }
  rewrite Eg in *. clear Eg. cbn [fst snd] in He, Hbb, Hn, Hr. subst r. symmetry in Hr.
  destruct Hwf' as (Hlt & Hd & Hf); cbn [fst snd] in *.
  assert (He' : (e < length h)%nat).
  { rewrite Forall_forall in Hf. apply Hf, list_elem_of_lookup. eauto. }
  eexists e, _. split; [reflexivity|]. split; [done|]. simpl.
  split; [|split; [|split; [|done]]].
  - rewrite PoolFacts.borrow_result in *.
    assert (Hg : ∀ h', Pool.grow newEntity (p, h') = (p, h')).
    { intros h'. unfold Pool.grow.
      destruct (Nat.eqb_spec (Pool.next p) (length (Pool.list_ p))); [|done].
      apply lookup_lt_Some in Hr. lia. }
    rewrite Hg. simpl. done.
  - unfold Entity.id_of; simpl. by rewrite list_lookup_insert_eq.
  - split; simpl; [done|]. split; [done|]. by rewrite length_insert.
Qed.

Lemma bindEntity_handle id w e w' :
  pool_wf w → bindEntity id w = (Ok e, w') →
  handle_of w = Some e ∧ handle_of w' = Some e ∧ pool_wf w' ∧ Entity.id_of w' e = id.
Proof.
  intros Hwf H.
  destruct (bindEntity_spec id w Hwf) as (e0 & w0 & Hb0 & Hh & Hh' & Hid & Hwf1 & _).
  rewrite Hb0 in H. by injection H as <- <-.
Qed.


Lemma flush_same w : same_handles w (snd (flush w)).
Proof. done. Qed.



(** ** A small world to evaluate on *)

Example demo_types : types demo = [compA; compB] ∧ stride demo = 1.
Proof. split; reflexivity. Qed.

(** ** Mask builders *)

Lemma array_fill_empty_range (a : list jsnum) v start end_ :
  clamp (Z.of_nat (length a)) end_ ≤ clamp (Z.of_nat (length a)) start →
  array_fill a v start end_ = a.
Proof.
  intros H. unfold array_fill. apply list_eq. intros i.
  rewrite list_lookup_imap. destruct (a !! i); simpl; [|done].
  rewrite bool_decide_eq_false_2; [done|lia].
Qed.

(** What [extendMaskAndSetFlag] does when the word offset is at or past the
    end of the mask: the [fill] call starts at the new length, so it fills
    nothing, and the gap stays holes. *)
Lemma extendMaskAndSetFlag_grow (mask : list jsnum) (type : ComponentType) :
  (length mask ≤ flagOffset type)%nat →
  extendMaskAndSetFlag mask type =
    mask ++ replicate (flagOffset type - length mask) undefined
         ++ [Some (ToInt32 (flagMask type))].
Proof.
  intros Hle. unfold extendMaskAndSetFlag.
  destruct (Nat.leb_spec (length mask) (flagOffset type)); [|lia].
  set (grown := array_set_length mask (flagOffset type + 1)).
  assert (Hg : grown = mask ++ replicate (flagOffset type - length mask) undefined ++ [undefined]).
  { unfold grown, array_set_length. rewrite take_ge by lia. f_equal.
    replace (flagOffset type + 1 - length mask)%nat
      with (flagOffset type - length mask + 1)%nat by lia.
    by rewrite replicate_add. }
  assert (Hlen : length grown = (flagOffset type + 1)%nat).
  { rewrite Hg, !length_app, length_replicate. simpl. lia. }
  rewrite array_fill_empty_range by (unfold clamp; rewrite Hlen; repeat case_match; lia).
  unfold array_put. destruct (Nat.ltb_spec (flagOffset type) (length grown)); [|lia].
  assert (Hget : array_get grown (flagOffset type) = undefined).
  { unfold array_get. rewrite Hg, app_assoc, lookup_app_r;
      rewrite length_app, length_replicate; [|lia].
    replace (flagOffset type - (length mask + (flagOffset type - length mask)))%nat
      with 0%nat by lia. done. }
  rewrite Hget, Hg, app_assoc.
  rewrite insert_app_r_alt; rewrite length_app, length_replicate; [|lia].
  replace (flagOffset type - (length mask + (flagOffset type - length mask)))%nat
    with 0%nat by lia.
  simpl. by rewrite <- app_assoc.
Qed.

Lemma ToInt32_idem z : ToInt32 (ToInt32 z) = ToInt32 z.
Proof.
  unfold ToInt32. pose proof (Z.mod_pos_bound z (2 ^ 32) ltac:(lia)) as Hb.
  destruct (Z.ltb_spec (z mod 2 ^ 32) (2 ^ 31)).
  - rewrite Z.mod_mod by lia. by destruct (Z.ltb_spec (z mod 2 ^ 32) (2 ^ 31)); [|lia].
  - replace ((z mod 2 ^ 32 - 2 ^ 32) mod 2 ^ 32) with (z mod 2 ^ 32).
    + by destruct (Z.ltb_spec (z mod 2 ^ 32) (2 ^ 31)); [lia|].
    + rewrite <- (Z.mod_mod z (2 ^ 32)) at 1 by lia.
      rewrite <- (Z_mod_plus_full (z mod 2 ^ 32 - 2 ^ 32) 1 (2 ^ 32)).
      f_equal. lia.
Qed.

(** After it the flag tests as set, and the words that were there are kept. *)
Lemma extendMaskAndSetFlag_sets (mask : list jsnum) (type : ComponentType) :
  (length mask ≤ flagOffset type)%nat →
  ToInt32 (flagMask type) ≠ 0 →
  length (extendMaskAndSetFlag mask type) = (flagOffset type + 1)%nat
  ∧ (∀ i, (i < length mask)%nat → extendMaskAndSetFlag mask type !! i = mask !! i)
  ∧ (∀ i, (length mask ≤ i < flagOffset type)%nat →
          array_get (extendMaskAndSetFlag mask type) i = undefined)
  ∧ maskHasFlag (extendMaskAndSetFlag mask type) type = true.
Proof.
  intros Hle Hnz. rewrite extendMaskAndSetFlag_grow by done.
  split; [|split; [|split]].
  - rewrite !length_app, length_replicate. simpl. lia.
  - intros i Hi. by rewrite lookup_app_l.
  - intros i Hi. unfold array_get.
    rewrite lookup_app_r by lia. rewrite lookup_app_l by (rewrite length_replicate; lia).
    rewrite lookup_replicate_2 by lia. done.
  - unfold maskHasFlag, array_get.
    rewrite app_assoc, lookup_app_r; rewrite length_app, length_replicate; [|lia].
    replace (flagOffset type - (length mask + (flagOffset type - length mask)))%nat
      with 0%nat by lia.
    simpl. unfold js_and, js_int32. rewrite ToInt32_idem, Z.land_diag.
    by destruct (Z.eqb_spec (ToInt32 (flagMask type)) 0).
Qed.

(** C6, at a mask of one word and a type whose flag lives in word 2: the mask
    grows to three words and the flag tests as set, but word 1, the gap, is a
    hole and not [0]; a positive mask with such a hole matches no slot, not
    even one in which every flag is set. *)
Theorem extendMaskAndSetFlag_gap_not_zeroed :
  let type := Controller 64 "C" [] in
  let mask := extendMaskAndSetFlag [Some 5] type in
  mask = [Some 5; undefined; Some 1]
  ∧ array_get mask 1 ≠ Some 0
  ∧ maskHasFlag mask type = true
  ∧ ∀ (w : World) (entities : View) (offset : jsnum),
      match_positive w entities offset 0 mask = false.
Proof.
  simpl. split; [reflexivity|]. split; [done|]. split; [reflexivity|].
  intros w entities offset. cbn [extendMaskAndSetFlag match_positive].
  change (extendMaskAndSetFlag [Some 5] (Controller 64 "C" []))
    with [Some 5; undefined; Some 1].
  cbn [match_positive]. by destruct (strict_ne _ _).
Qed.

(** ** Mask matching *)

Lemma strict_ne_false (a b : jsnum) : strict_ne a b = false ↔ a = b.
Proof.
  unfold strict_ne. rewrite negb_false_iff. apply bool_decide_eq_true.
Qed.

Lemma match_positive_true w entities offset k mask :
  match_positive w entities offset k mask = true ↔
  ∀ (i : nat) maskByte, mask !! i = Some maskByte →
    Some (js_and (ta_get entities (memory w) (slot_word offset (k + Z.of_nat i))) maskByte)
    = maskByte.
Proof.
  revert k. induction mask as [|b mask IH]; intros k; simpl.
  - split; [intros _ i mb H; by rewrite lookup_nil in H|done].
  - destruct (strict_ne _ b) eqn:E.
    + split; [done|]. intros H. specialize (H 0%nat b eq_refl).
      rewrite Z.add_0_r in H. apply strict_ne_false in H. congruence.
    + apply strict_ne_false in E. rewrite IH. split.
      * intros H [|i] mb Hi; simpl in Hi.
        -- injection Hi as <-. by rewrite Z.add_0_r.
        -- specialize (H i mb Hi).
           by replace (k + Z.of_nat (S i)) with (k + 1 + Z.of_nat i) by lia.
      * intros H i mb Hi. specialize (H (S i) mb Hi).
        by replace (k + Z.of_nat (S i)) with (k + 1 + Z.of_nat i) in H by lia.
Qed.

Lemma match_negative_true w entities offset k mask :
  match_negative w entities offset k mask = true ↔
  ∀ (i : nat) maskByte, mask !! i = Some maskByte →
    js_and (ta_get entities (memory w) (slot_word offset (k + Z.of_nat i))) maskByte = 0.
Proof.
  revert k. induction mask as [|b mask IH]; intros k; simpl.
  - split; [intros _ i mb H; by rewrite lookup_nil in H|done].
  - destruct (strict_ne _ (Some 0)) eqn:E.
    + split; [done|]. intros H. specialize (H 0%nat b eq_refl).
      rewrite Z.add_0_r in H. rewrite H in E. done.
    + apply strict_ne_false in E. injection E as E. rewrite IH. split.
      * intros H [|i] mb Hi; simpl in Hi.
        -- injection Hi as <-. by rewrite Z.add_0_r.
        -- specialize (H i mb Hi).
           by replace (k + Z.of_nat (S i)) with (k + 1 + Z.of_nat i) by lia.
      * intros H i mb Hi. specialize (H (S i) mb Hi).
        by replace (k + Z.of_nat (S i)) with (k + 1 + Z.of_nat i) in H by lia.
Qed.

(** ** The memory and its windows *)

Lemma ToUint32_range z : 0 ≤ ToUint32 z < 2 ^ 32.
Proof. apply Z.mod_pos_bound. lia. Qed.

Lemma ToUint32_idem z : ToUint32 (ToUint32 z) = ToUint32 z.
Proof. unfold ToUint32. apply Z.mod_mod. lia. Qed.

Lemma ToUint32_small z : 0 ≤ z < 2 ^ 32 → ToUint32 z = z.
Proof. apply Z.mod_small. Qed.

Lemma mem_word_range m a : 0 ≤ mem_word m a < 2 ^ 32.
Proof. apply Z.mod_pos_bound. lia. Qed.

Lemma mem_word_insert m a b v :
  mem_word (<[a := v]> m) b = if bool_decide (a = b) then ToUint32 v else mem_word m b.
Proof.
  unfold mem_word. case_bool_decide as E.
  - subst. by rewrite lookup_insert_eq.
  - by rewrite lookup_insert_ne.
Qed.

Lemma mem_word_ta_put v i x m a :
  mem_word (ta_put v i x m) a =
    match i with
    | Some i =>
        if bool_decide (0 ≤ i < len v ∧ a = base v + i) then ToUint32 x else mem_word m a
    | None => mem_word m a
    end.
Proof.
  unfold ta_put. destruct i as [i|]; [|done].
  case_bool_decide as E1.
  - rewrite mem_word_insert, ToUint32_idem.
    repeat case_bool_decide; try done; lia.
  - rewrite bool_decide_eq_false_2; [done|lia].
Qed.

Lemma mem_word_fill_words v x n m a :
  mem_word (fill_words v x n m) a =
    if bool_decide (base v ≤ a < base v + Z.min (Z.of_nat n) (len v))
    then ToUint32 x else mem_word m a.
Proof.
  induction n as [|n IH]; cbn [fill_words].
  - rewrite bool_decide_eq_false_2; [done|lia].
  - rewrite mem_word_ta_put, IH. repeat case_bool_decide; try done; lia.
Qed.

Lemma mem_word_copy_words dst src m0 n m a :
  mem_word (copy_words dst src m0 n m) a =
    if bool_decide (base dst ≤ a < base dst + Z.min (Z.of_nat n) (len dst))
    then ToUint32 (nullish (ta_get src m0 (Some (a - base dst))) 0)
    else mem_word m a.
Proof.
  induction n as [|n IH]; cbn [copy_words].
  - rewrite bool_decide_eq_false_2; [done|lia].
  - rewrite mem_word_ta_put, IH.
    repeat case_bool_decide; try done; try lia.
    replace (a - base dst) with (Z.of_nat n) by lia. done.
Qed.

Lemma flagSegmentSize_words w : flagSegmentSize w / 4 = maxNum w * stride w.
Proof. unfold flagSegmentSize. by rewrite Z.div_mul. Qed.

Lemma previous_base w : base (previous w) = maxNum w * stride w.
Proof. apply flagSegmentSize_words. Qed.

Lemma mutations_base w : base (mutations w) = 2 * (maxNum w * stride w).
Proof.
  unfold mutations, flagSegmentSize; simpl.
  replace (2 * (maxNum w * stride w * 4)) with (2 * (maxNum w * stride w) * 4) by lia.
  by rewrite Z.div_mul.
Qed.

Lemma filtered_base w : base (filtered w) = 3 * (maxNum w * stride w).
Proof.
  unfold filtered, flagSegmentSize; simpl.
  replace (3 * (maxNum w * stride w * 4)) with (3 * (maxNum w * stride w) * 4) by lia.
  by rewrite Z.div_mul.
Qed.

(** The memory after [step()], word by word. *)
Lemma step_memory w a :
  mem_word (memory (snd (step w))) a =
    if bool_decide (2 * (maxNum w * stride w) ≤ a < 3 * (maxNum w * stride w)) then 0
    else if bool_decide (maxNum w * stride w ≤ a < 2 * (maxNum w * stride w))
         then mem_word (memory w) (a - maxNum w * stride w)
         else mem_word (memory w) a.
Proof.
  unfold step, modify; cbn [snd memory set_memory]. unfold ta_fill, ta_set.
  rewrite mem_word_fill_words, mem_word_copy_words.
  rewrite mutations_base, previous_base. cbn [len base mutations previous current].
  set (n := maxNum w * stride w).
  unfold ta_get. cbn [len base current].
  repeat case_bool_decide; try done; try lia.
  cbn [nullish default]. rewrite ToUint32_small by apply mem_word_range.
  by rewrite Z.add_0_l.
Qed.

(** C4: after [step()], at every index the previous buffer reads what the
    current buffer read when [step()] was called, every word of the mutation
    buffer is zero, and the current buffer reads as before, whatever the
    buffers held. *)
Theorem step_copies_and_clears (w : World) :
  fst (step w) = Ok tt
  ∧ ∀ i : jsnum,
      let w' := snd (step w) in
      ta_get (previous w') (memory w') i = ta_get (current w) (memory w) i
      ∧ ta_get (current w') (memory w') i = ta_get (current w) (memory w) i
      ∧ (∀ slot offset, 0 ≤ slot < maxNum w → 0 ≤ offset < stride w →
         ta_get (mutations w') (memory w') (slot_index w' (Some slot) offset) = Some 0)
      ∧ (is_Some (ta_get (mutations w') (memory w') i) →
         ta_get (mutations w') (memory w') i = Some 0).
Proof.
  split; [done|]. intros i w'.
  assert (Hmn : maxNum w' = maxNum w) by done.
  assert (Hst : stride w' = stride w) by done.
  assert (Hmem : ∀ a, mem_word (memory w') a = _) by apply step_memory.
  clearbody w'.
  assert (Hmon : ∀ j, ta_get (mutations w') (memory w') j
                      = match ta_get (mutations w') (memory w') j with
                        | Some _ => Some 0 | None => None end).
  { intros [j|]; [|done]. unfold ta_get. rewrite mutations_base. cbn [len mutations].
    rewrite Hmn, Hst. case_bool_decide as E; [|done]. f_equal.
    rewrite Hmem. rewrite bool_decide_eq_true_2; [done|lia]. }
  split; [|split; [|split]].
  - destruct i as [i|]; [|done]. unfold ta_get. rewrite previous_base.
    cbn [len base previous current]. rewrite Hmn, Hst.
    case_bool_decide as E; [|done]. f_equal. rewrite Hmem.
    repeat case_bool_decide; try lia; f_equal; lia.
  - destruct i as [i|]; [|done]. unfold ta_get. cbn [len base current].
    rewrite Hmn, Hst. case_bool_decide as E; [|done]. f_equal. rewrite Hmem.
    repeat case_bool_decide; try lia; done.
  - intros slot offset Hs Ho. rewrite Hmon.
    unfold slot_index, slot_base, ta_get. cbn [len mutations].
    rewrite Hmn, Hst. rewrite bool_decide_eq_true_2; [done|nia].
  - intros [x Hx]. rewrite Hmon, Hx. done.
Qed.

(** ** Capability checks *)

Lemma checkMask_denied type wr w :
  may w wr type = false → Entity.__checkMask type wr w = (Throw (CapabilityError wr), w).
Proof.
  unfold may, Entity.__checkMask. destruct (rwMasks w); [|done]. by intros ->.
Qed.

Lemma checkMask_allowed type wr w :
  may w wr type = true → Entity.__checkMask type wr w = (Ok tt, w).
Proof.
  unfold may, Entity.__checkMask. destruct (rwMasks w); [|done]. by intros ->.
Qed.

Lemma has_denied this type w :
  may w false type = false → Entity.has this type w = (Throw (CapabilityError false), w).
Proof. intros H. unfold Entity.has. by rewrite (bind_throw _ _ _ _ _ (checkMask_denied _ _ _ H)). Qed.

Lemma has_allowed this type w :
  may w false type = true →
  Entity.has this type w = (Ok (hasFlag w (Entity.id_of w this) type), w).
Proof. intros H. unfold Entity.has. by rewrite (bind_run _ _ _ _ _ (checkMask_allowed _ _ _ H)). Qed.

Lemma get_denied this type wr w :
  may w wr type = false → Entity.__get this type wr w = (Throw (CapabilityError wr), w).
Proof. intros H. unfold Entity.__get. by rewrite (bind_throw _ _ _ _ _ (checkMask_denied _ _ _ H)). Qed.

(** C9: while a system is executing, [has], [read] and [readIfPresent] on a
    type that is not in its read mask, and [write] on a type that is not in
    its write mask, throw the capability error; they do so before touching
    anything and whatever the slot's flags are. *)
Theorem access_checks_capability_first
    (w : World) (this : nat) (type : ComponentType) (rw : ReadWriteMasks)
    (Hrw : rwMasks w = Some rw) :
  (maskHasFlag (read rw) type = false →
     Entity.has this type w = (Throw (CapabilityError false), w)
     ∧ Entity.read this type w = (Throw (CapabilityError false), w)
     ∧ Entity.readIfPresent this type w = (Throw (CapabilityError false), w))
  ∧ (maskHasFlag (write rw) type = false →
     Entity.write this type w = (Throw (CapabilityError true), w)).
Proof.
  split.
  - intros H. assert (Hm : may w false type = false) by (unfold may; by rewrite Hrw).
    split; [by apply has_denied|].
    unfold Entity.read, Entity.readIfPresent.
    split; [|by apply get_denied].
    by rewrite (bind_throw _ _ _ _ _ (get_denied this _ _ _ Hm)).
  - intros H. assert (Hm : may w true type = false) by (unfold may; by rewrite Hrw).
    unfold Entity.write.
    by rewrite (bind_throw _ _ _ _ _ (get_denied this _ _ _ Hm)).
Qed.

Lemma access_checks_capability_first_witness :
  rwMasks denied = Some undeclared
  ∧ hasFlag denied (Some 1) compA = true
  ∧ Entity.has 0 compA denied = (Throw (CapabilityError false), denied)
  ∧ Entity.write 0 compA denied = (Throw (CapabilityError true), denied).
Proof.
  split; [reflexivity|]. split; [reflexivity|].
  pose proof (access_checks_capability_first denied 0 compA undeclared eq_refl) as [Hr Hw].
  split; [exact (proj1 (Hr eq_refl))|exact (Hw eq_refl)].
Defined.

(** ** Signed and unsigned 32-bit words, bit by bit *)

Lemma ToInt32_mod z : ToInt32 z mod 2 ^ 32 = z mod 2 ^ 32.
Proof.
  unfold ToInt32. pose proof (Z.mod_pos_bound z (2 ^ 32) ltac:(lia)) as Hb.
  destruct (Z.ltb_spec (z mod 2 ^ 32) (2 ^ 31)).
  - apply Z.mod_mod. lia.
  - rewrite <- (Z_mod_plus_full (z mod 2 ^ 32 - 2 ^ 32) 1 (2 ^ 32)).
    replace (z mod 2 ^ 32 - 2 ^ 32 + 1 * 2 ^ 32) with (z mod 2 ^ 32) by lia.
    apply Z.mod_mod. lia.
Qed.

Lemma ToInt32_range z : - 2 ^ 31 ≤ ToInt32 z < 2 ^ 31.
Proof.
  unfold ToInt32. pose proof (Z.mod_pos_bound z (2 ^ 32) ltac:(lia)) as Hb.
  destruct (Z.ltb_spec (z mod 2 ^ 32) (2 ^ 31)); lia.
Qed.

Lemma ToInt32_small z : - 2 ^ 31 ≤ z < 2 ^ 31 → ToInt32 z = z.
Proof.
  intros H. unfold ToInt32.
  destruct (Z.neg_nonneg_cases z) as [Hneg|Hpos].
  - replace (z mod 2 ^ 32) with (z + 2 ^ 32).
    + destruct (Z.ltb_spec (z + 2 ^ 32) (2 ^ 31)); lia.
    + symmetry. rewrite <- (Z_mod_plus_full z 1 (2 ^ 32)).
      apply Z.mod_small. lia.
  - rewrite Z.mod_small by lia. destruct (Z.ltb_spec z (2 ^ 31)); lia.
Qed.

Lemma ToInt32_ToUint32 z : ToInt32 (ToUint32 z) = ToInt32 z.
Proof. unfold ToInt32, ToUint32. by rewrite Z.mod_mod by lia. Qed.

Lemma log2_below a n : 0 ≤ a < 2 ^ n → 0 < n → Z.log2 a < n.
Proof.
  intros Ha Hn. destruct (Z.eq_dec a 0) as [->|Hnz]; [simpl; lia|].
  apply Z.log2_lt_pow2; lia.
Qed.

(** The bits of a signed 32-bit value: from bit 31 on they repeat bit 31. *)
Lemma int32_testbit x n :
  - 2 ^ 31 ≤ x < 2 ^ 31 → 31 ≤ n → Z.testbit x n = Z.testbit x 31.
Proof.
  intros Hx Hn. destruct (Z.neg_nonneg_cases x) as [Hneg|Hpos].
  - assert (Hl : Z.log2 (Z.pred (- x)) < 31) by (apply log2_below; lia).
    rewrite !Z.bits_above_log2_neg; try done; lia.
  - assert (Hl : Z.log2 x < 31) by (apply log2_below; lia).
    rewrite !Z.bits_above_log2; try done; lia.
Qed.

Lemma ToInt32_testbit z n :
  0 ≤ n → Z.testbit (ToInt32 z) n = Z.testbit z (Z.min n 31).
Proof.
  intros Hn.
  assert (Hlow : ∀ k, k < 32 → Z.testbit (ToInt32 z) k = Z.testbit z k).
  { intros k Hk. rewrite <- (Z.mod_pow2_bits_low (ToInt32 z) 32 k) by done.
    rewrite ToInt32_mod. by apply Z.mod_pow2_bits_low. }
  destruct (Z.le_gt_cases n 31).
  - rewrite Z.min_l by done. apply Hlow. lia.
  - rewrite Z.min_r by lia. rewrite <- Hlow by lia.
    apply int32_testbit; [apply ToInt32_range|lia].
Qed.

(** A number whose bits from 31 on repeat bit 31 is a signed 32-bit value. *)
Lemma ToInt32_fix x :
  (∀ n, 0 ≤ n → Z.testbit x n = Z.testbit x (Z.min n 31)) → ToInt32 x = x.
Proof.
  intros H. apply Z.bits_inj'. intros n Hn. by rewrite ToInt32_testbit, <- H.
Qed.

Lemma int32_bits x n :
  - 2 ^ 31 ≤ x < 2 ^ 31 → 0 ≤ n → Z.testbit x n = Z.testbit x (Z.min n 31).
Proof.
  intros Hx Hn. destruct (Z.le_gt_cases n 31).
  - by rewrite Z.min_l.
  - rewrite Z.min_r by lia. apply int32_testbit; [done|lia].
Qed.

Lemma js_int32_range v : - 2 ^ 31 ≤ js_int32 v < 2 ^ 31.
Proof. destruct v; simpl; [apply ToInt32_range|lia]. Qed.

Lemma js_and_int32 a b : ToInt32 (js_and a b) = js_and a b.
Proof.
  apply ToInt32_fix. intros n Hn. unfold js_and. rewrite !Z.land_spec.
  by rewrite (int32_bits (js_int32 a) n), (int32_bits (js_int32 b) n)
    by (done || apply js_int32_range).
Qed.

Lemma js_or_int32 a b : ToInt32 (js_or a b) = js_or a b.
Proof.
  apply ToInt32_fix. intros n Hn. unfold js_or. rewrite !Z.lor_spec.
  by rewrite (int32_bits (js_int32 a) n), (int32_bits (js_int32 b) n)
    by (done || apply js_int32_range).
Qed.

Lemma js_not_int32 a : ToInt32 (js_not a) = js_not a.
Proof.
  apply ToInt32_fix. intros n Hn. unfold js_not. rewrite !Z.lnot_spec by lia.
  by rewrite (int32_bits (js_int32 a) n) by (done || apply js_int32_range).
Qed.

(** ** Flags *)

Lemma ta_get_ext v m m' i :
  (∀ a, base v ≤ a < base v + len v → mem_word m' a = mem_word m a) →
  ta_get v m' i = ta_get v m i.
Proof.
  intros H. destruct i as [i|]; [|done]. unfold ta_get.
  case_bool_decide; [|done]. rewrite H; [done|lia].
Qed.

Lemma ta_get_ta_put_same v m i x :
  is_Some (ta_get v m i) → ta_get v (ta_put v i x m) i = Some (ToUint32 x).
Proof.
  destruct i as [i|]; unfold ta_get, ta_put; [|by intros [? ?]].
  case_bool_decide as E; [|by intros [? ?]]. intros _.
  by rewrite mem_word_insert, bool_decide_eq_true_2, ToUint32_idem.
Qed.

Lemma ta_get_ta_put_apart v1 v2 m i j x :
  apart v1 v2 → ta_get v1 (ta_put v2 j x m) i = ta_get v1 m i.
Proof.
  intros H. apply ta_get_ext. intros a Ha. rewrite mem_word_ta_put.
  destruct j as [j|]; [|done]. rewrite bool_decide_eq_false_2; [done|].
  unfold apart in H. lia.
Qed.

Lemma current_mutations_apart w : apart (current w) (mutations w).
Proof. unfold apart. rewrite mutations_base. simpl. lia. Qed.

Lemma current_previous_apart w : apart (current w) (previous w).
Proof. unfold apart. rewrite previous_base. simpl. lia. Qed.

Lemma previous_current_apart w : apart (previous w) (current w).
Proof. unfold apart. rewrite previous_base. simpl. lia. Qed.

Lemma previous_mutations_apart w : apart (previous w) (mutations w).
Proof. unfold apart. rewrite previous_base, mutations_base. simpl. lia. Qed.

Lemma land_clear c f : Z.land (Z.land c (Z.lnot f)) f = 0.
Proof.
  apply Z.bits_inj'. intros n Hn.
  rewrite !Z.land_spec, Z.lnot_spec, Z.bits_0 by done.
  by destruct (Z.testbit c n), (Z.testbit f n).
Qed.

Lemma land_set c f : Z.land (Z.lor c f) f = f.
Proof.
  apply Z.bits_inj'. intros n Hn.
  rewrite !Z.land_spec, Z.lor_spec.
  by destruct (Z.testbit c n), (Z.testbit f n).
Qed.

(** Reading a flag back after [clearFlag]. *)
Lemma hasFlag_clearFlag w id type : hasFlag (snd (clearFlag id type w)) id type = false.
Proof.
  unfold hasFlag, clearFlag, modify, flag_index. cbn [snd memory set_memory].
  change (current (set_memory _ w)) with (current w).
  change (slot_index (set_memory ?m w)) with (slot_index w).
  set (i := slot_index w id (Z.of_nat (flagOffset type))).
  destruct (ta_get (current w) (memory w) i) as [c|] eqn:Ec.
  - rewrite ta_get_ta_put_same by (by rewrite Ec).
    unfold js_and at 1. cbn [js_int32].
    rewrite ToInt32_ToUint32, js_and_int32.
    unfold js_and. cbn [js_int32]. rewrite js_not_int32.
    unfold js_not. cbn [js_int32]. by rewrite land_clear.
  - assert (Hn : ta_get (current w)
                   (ta_put (current w) i
                      (js_and undefined (Some (js_not (Some (flagMask type))))) (memory w)) i
                 = undefined).
    { destruct i as [i'|]; [|done]. simpl in *. by case_bool_decide. }
    by rewrite Hn.
Qed.

(** Reading a flag back after [setFlag], for a flag word inside the buffer
    and a mask that is not zero. *)
Lemma hasFlag_setFlag w id type :
  is_Some (ta_get (current w) (memory w) (flag_index w id type)) →
  ToInt32 (flagMask type) ≠ 0 →
  hasFlag (snd (setFlag id type w)) id type = true.
Proof.
  intros Hin Hnz.
  unfold hasFlag, setFlag, modify. cbn [snd memory set_memory].
  change (current (set_memory _ w)) with (current w).
  change (flag_index (set_memory ?m w)) with (flag_index w).
  rewrite ta_get_ta_put_same by done.
  unfold js_and at 1. cbn [js_int32].
  rewrite ToInt32_ToUint32, js_or_int32.
  unfold js_or. cbn [js_int32]. rewrite land_set.
  by destruct (Z.eqb_spec (ToInt32 (flagMask type)) 0).
Qed.

(** A flag that tests as set lives inside the buffer. *)
Lemma hasFlag_in_range w id type :
  hasFlag w id type = true → is_Some (ta_get (current w) (memory w) (flag_index w id type)).
Proof.
  unfold hasFlag. destruct (ta_get _ _ _); [eauto|]. by unfold js_and; simpl.
Qed.

Lemma hasFlag_ext w w' id type :
  maxNum w' = maxNum w → types w' = types w →
  (∀ a, 0 ≤ a < maxNum w * stride w → mem_word (memory w') a = mem_word (memory w) a) →
  hasFlag w' id type = hasFlag w id type.
Proof.
  intros Hm Ht Hw.
  assert (Hs : stride w' = stride w) by (unfold stride; by rewrite Ht).
  unfold hasFlag, flag_index, slot_index, slot_base, current.
  rewrite Hm, Hs.
  by rewrite (ta_get_ext _ (memory w) (memory w'))
    by (cbn [base len]; intros; apply Hw; lia).
Qed.

(** ** Removing a component *)

Lemma set_storage_id w : set_storage (storage w) w = w.
Proof. by destruct w. Qed.

Lemma null_refs_run c fs w :
  Entity.null_refs c fs w = (Ok tt, set_storage (nulled c fs (storage w)) w).
Proof.
  revert w. induction fs as [|f fs IH]; intros w; cbn [Entity.null_refs].
  - unfold nulled. cbn [foldl]. by rewrite set_storage_id.
  - unfold bind, nulled. cbn [foldl]. fold (nulled c fs).
    destruct (Entity.is_ref f) eqn:Ef.
    + unfold setField, modify. by rewrite IH.
    + unfold ret. by rewrite IH.
Qed.

Lemma nulled_keeps_null c fs st k :
  st !! k = Some VNull → nulled c fs st !! k = Some VNull.
Proof.
  unfold nulled. revert st. induction fs as [|f fs IH]; intros st H; cbn [foldl]; [done|].
  apply IH. destruct (Entity.is_ref f); [|done].
  destruct (decide ((componentId (c_type c), c_id c, fname f) = k)) as [->|Hne].
  - by rewrite lookup_insert_eq.
  - by rewrite lookup_insert_ne.
Qed.

Lemma nulled_lookup c fs st f :
  f ∈ fs → ftype f = TypeRef →
  nulled c fs st !! (componentId (c_type c), c_id c, fname f) = Some VNull.
Proof.
  intros Hin Hr. revert st. induction fs as [|g fs IH]; intros st.
  - by apply elem_of_nil in Hin.
  - apply elem_of_cons in Hin as [<-|Hin].
    + unfold nulled. cbn [foldl]. fold (nulled c fs).
      assert (Entity.is_ref f = true) as ->
        by (unfold Entity.is_ref; by apply bool_decide_eq_true).
      apply nulled_keeps_null. by rewrite lookup_insert_eq.
    + unfold nulled. cbn [foldl]. apply (IH Hin).
Qed.

(** [write(type)] for a caller that may write and read the type, on a slot
    that has it: the mutation bit is set and a writable view returned. *)
Lemma write_run this type w :
  may w true type = true → may w false type = true →
  hasFlag w (Entity.id_of w this) type = true →
  Entity.write this type w =
    (Ok {| c_type := type; c_id := Entity.id_of w this; c_writable := true |},
     snd (markMutated (Entity.id_of w this) type w)).
Proof.
  intros Hw Hr Hf. unfold Entity.write, Entity.__get.
  unfold bind at 1. unfold bind at 1.
  rewrite (checkMask_allowed _ _ _ Hw).
  unfold bind at 1. rewrite (has_allowed _ _ _ Hr), Hf. done.
Qed.

Lemma write_denied_read this type w :
  may w true type = true → may w false type = false →
  Entity.write this type w = (Throw (CapabilityError false), w).
Proof.
  intros Hw Hr. unfold Entity.write, Entity.__get.
  unfold bind at 1. unfold bind at 1.
  rewrite (checkMask_allowed _ _ _ Hw).
  unfold bind at 1. by rewrite (has_denied _ _ _ Hr).
Qed.

Lemma hasFlag_markMutated w id type id' type' :
  hasFlag (snd (markMutated id type w)) id' type' = hasFlag w id' type'.
Proof.
  unfold hasFlag, markMutated, modify. cbn [snd memory set_memory].
  change (current (set_memory _ w)) with (current w).
  change (flag_index (set_memory ?m w)) with (flag_index w).
  by rewrite ta_get_ta_put_apart by apply current_mutations_apart.
Qed.

(** [__deindexOutboundRefs] where it succeeds. *)
Lemma deindex_run this type w :
  may w true type = true →
  (existsb Entity.is_ref (fields type) = true → may w false type = true) →
  hasFlag w (Entity.id_of w this) type = true →
  ∃ w1, Entity.__deindexOutboundRefs this type w = (Ok tt, w1)
    ∧ (∀ f, f ∈ fields type → ftype f = TypeRef →
            getField w1 type (Entity.id_of w this) (fname f) = Some VNull)
    ∧ hasFlag w1 (Entity.id_of w this) type = true
    ∧ Entity.id_of w1 this = Entity.id_of w this
    ∧ rwMasks w1 = rwMasks w.
Proof.
  intros Hw Hr Hf. unfold Entity.__deindexOutboundRefs, getFields.
  destruct (existsb Entity.is_ref (fields type)) eqn:Eref.
  - rewrite (bind_run _ _ _ _ _ (write_run _ _ _ Hw (Hr eq_refl) Hf)).
    rewrite null_refs_run. eexists. split; [reflexivity|].
    split; [|split; [|done]].
    + intros f Hin Href. unfold getField. cbn [storage set_storage].
      by apply (nulled_lookup {| c_type := type; c_id := Entity.id_of w this;
                                 c_writable := true |}).
    + rewrite <- Hf. apply (hasFlag_markMutated w).
  - exists w. split; [done|]. split; [|done].
    intros f Hin Href. exfalso.
    assert (existsb Entity.is_ref (fields type) = true); [|congruence].
    apply existsb_exists. exists f. split; [by apply list_elem_of_In|].
    unfold Entity.is_ref. by apply bool_decide_eq_true.
Qed.

(** C8, as the store has it.  [remove(type)] first checks the caller's write
    mask and throws the capability error, changing nothing, when the type is
    not in it.  Past that check it returns [false] and changes nothing when
    the presence bit is clear.  When the bit is set, and the caller may also
    read the type in case it declares a reference field, [remove] first
    obtains write access and nulls every reference field, the presence bit
    still being set at that point, then clears the bit and returns [true];
    a caller that may write but not read a type with a reference field gets
    the capability error instead. *)
Theorem remove_clears_after_nulling (w : World) (this : nat) (type : ComponentType) :
  let id := Entity.id_of w this in
  (may w true type = false →
     Entity.remove this type w = (Throw (CapabilityError true), w))
  ∧ (may w true type = true → hasFlag w id type = false →
     Entity.remove this type w = (Ok false, w))
  ∧ (may w true type = true → hasFlag w id type = true →
     (existsb Entity.is_ref (fields type) = true → may w false type = true) →
     ∃ w1, Entity.__deindexOutboundRefs this type w = (Ok tt, w1)
       ∧ (∀ f, f ∈ fields type → ftype f = TypeRef →
               getField w1 type id (fname f) = Some VNull)
       ∧ hasFlag w1 id type = true
       ∧ Entity.remove this type w = (Ok true, snd (clearFlag id type w1))
       ∧ hasFlag (snd (clearFlag id type w1)) id type = false)
  ∧ (may w true type = true → hasFlag w id type = true →
     existsb Entity.is_ref (fields type) = true → may w false type = false →
     Entity.remove this type w = (Throw (CapabilityError false), w)).
Proof.
  intros id. split; [|split; [|split]].
  - intros H. unfold Entity.remove.
    by rewrite (bind_throw _ _ _ _ _ (checkMask_denied _ _ _ H)).
  - intros H Hf. unfold Entity.remove.
    rewrite (bind_run _ _ _ _ _ (checkMask_allowed _ _ _ H)).
    unfold bind, gets. fold id. by rewrite Hf.
  - intros H Hf Hr.
    destruct (deindex_run this type w H Hr Hf) as (w1 & Hd & Hnull & Hf1 & Hid & Hrw).
    exists w1. split; [done|]. split; [done|]. split; [done|].
    split; [|apply hasFlag_clearFlag].
    unfold Entity.remove.
    rewrite (bind_run _ _ _ _ _ (checkMask_allowed _ _ _ H)).
    unfold bind at 1. unfold gets at 1. fold id. rewrite Hf. cbn [negb].
    unfold Entity.__remove.
    unfold bind at 1. unfold bind at 1. rewrite Hd.
    unfold bind at 1. unfold gets at 1. rewrite Hid. fold id.
    unfold bind at 1. unfold clearFlag at 1, modify at 1.
    unfold bind at 1. unfold gets at 1.
    unfold clearFlag, modify. cbn [snd].
    by destruct (negb _).
  - intros H Hf Href Hr. unfold Entity.remove.
    rewrite (bind_run _ _ _ _ _ (checkMask_allowed _ _ _ H)).
    unfold bind at 1. unfold gets at 1. fold id. rewrite Hf. cbn [negb].
    unfold Entity.__remove, Entity.__deindexOutboundRefs, getFields.
    rewrite Href. unfold bind at 1. unfold bind at 1. unfold bind at 1.
    by rewrite (write_denied_read _ _ _ H Hr).
Qed.

(** C8 as stated fails where the caller did not declare the type writable:
    the presence bit of [B] is clear on the bound slot, yet [remove(B)] does
    not return [false], it throws. *)
Lemma remove_absent_throws_when_undeclared :
  Entity.id_of denied 0 = Some 1
  ∧ hasFlag denied (Some 1) compB = false
  ∧ Entity.remove 0 compB denied = (Throw (CapabilityError true), denied).
Proof. split; [reflexivity|]. split; reflexivity. Qed.

Example remove_nulls_then_clears :
  let w := snd (createEntity 4
                  (Some [ItemType compA; ItemValues [("target", VRef 3)]]) demo) in
  getField w compA (Some 1) "target" = Some (VRef 3)
  ∧ fst (Entity.remove 0 compA w) = Ok true
  ∧ getField (snd (Entity.remove 0 compA w)) compA (Some 1) "target" = Some VNull
  ∧ hasFlag (snd (Entity.remove 0 compA w)) (Some 1) compA = false.
Proof. repeat split; reflexivity. Qed.

(** ** Allocating a slot *)

Lemma createEntity_loop_unfold fuel initial id ic w :
  createEntity_loop (S fuel) initial id ic w =
    if free w id then allocate ic id w
    else if next_slot w id =? initial then (Throw CapacityError, w)
    else createEntity_loop fuel initial (next_slot w id) ic w.
Proof. done. Qed.

Lemma createEntity_loop_chain w initial ic l :
  ∀ id fuel, chain w initial id l → (length l ≤ fuel)%nat →
  createEntity_loop fuel initial id ic w =
    match List.find (free w) l with
    | Some k => allocate ic k w
    | None => (Throw CapacityError, w)
    end.
Proof.
  induction l as [|x l IH]; intros id fuel Hc Hf; inversion Hc; subst.
  - destruct fuel as [|fuel]; [simpl in Hf; lia|].
    rewrite createEntity_loop_unfold. cbn [List.find].
    destruct (free w x); [done|]. by rewrite Z.eqb_refl.
  - destruct fuel as [|fuel]; [simpl in Hf; lia|].
    rewrite createEntity_loop_unfold. cbn [List.find].
    destruct (free w x); [done|].
    destruct (Z.eqb_spec (next_slot w x) initial); [done|].
    apply IH; [done|simpl in Hf; lia].
Qed.

Lemma seqZ_S_front a n : 0 ≤ n → seqZ a (n + 1) = a :: seqZ (a + 1) n.
Proof.
  intros Hn. rewrite Z.add_comm. rewrite seqZ_cons by lia.
  f_equal. f_equal; lia.
Qed.

Lemma chain_low w initial (n : nat) : ∀ id,
  1 ≤ id → id + Z.of_nat n + 1 = initial → initial < maxNum w →
  chain w initial id (seqZ id (Z.of_nat n + 1)).
Proof.
  induction n as [|n IH]; intros id H1 Hs Hm.
  - change (seqZ id (Z.of_nat 0 + 1)) with [id]. apply chain_last.
    unfold next_slot. destruct (Z.eqb_spec (id + 1) (maxNum w)); lia.
  - rewrite seqZ_S_front by lia.
    assert (Hn : next_slot w id = id + 1).
    { unfold next_slot. destruct (Z.eqb_spec (id + 1) (maxNum w)); lia. }
    apply chain_cons; rewrite Hn; [lia|].
    replace (Z.of_nat (S n)) with (Z.of_nat n + 1) by lia.
    apply IH; lia.
Qed.

Lemma chain_high w initial (n : nat) : ∀ id,
  1 ≤ initial ≤ id → id + Z.of_nat n + 1 = maxNum w →
  chain w initial id (seqZ id (Z.of_nat n + 1) ++ seqZ 1 (initial - 1)).
Proof.
  induction n as [|n IH]; intros id H1 Hs.
  - change (seqZ id (Z.of_nat 0 + 1)) with [id]. cbn [app].
    assert (Hn : next_slot w id = 1).
    { unfold next_slot. destruct (Z.eqb_spec (id + 1) (maxNum w)); lia. }
    destruct (Z.eq_dec initial 1) as [->|Hne].
    + change (seqZ 1 (1 - 1)) with (@nil Z). by apply chain_last.
    + apply chain_cons; rewrite Hn; [lia|].
      replace (initial - 1) with (Z.of_nat (Z.to_nat (initial - 2)) + 1) by lia.
      apply chain_low; lia.
  - rewrite seqZ_S_front by lia. cbn [app].
    assert (Hn : next_slot w id = id + 1).
    { unfold next_slot. destruct (Z.eqb_spec (id + 1) (maxNum w)); lia. }
    apply chain_cons; rewrite Hn; [lia|].
    replace (Z.of_nat (S n)) with (Z.of_nat n + 1) by lia.
    apply IH; lia.
Qed.

Lemma scan_order_chain w :
  1 ≤ nextId w < maxNum w → chain w (nextId w) (nextId w) (scan_order w).
Proof.
  intros H. unfold scan_order.
  replace (maxNum w - nextId w)
    with (Z.of_nat (Z.to_nat (maxNum w - nextId w - 1)) + 1) by lia.
  apply chain_high; lia.
Qed.

Lemma scan_order_length w :
  1 ≤ nextId w < maxNum w → length (scan_order w) = Z.to_nat (maxNum w - 1).
Proof. intros H. unfold scan_order. rewrite length_app, !length_seqZ. lia. Qed.

Lemma scan_order_elem w id :
  1 ≤ nextId w < maxNum w → id ∈ scan_order w ↔ 1 ≤ id < maxNum w.
Proof.
  intros H. unfold scan_order. rewrite elem_of_app, !elem_of_seqZ. lia.
Qed.

(** [createEntity] with fuel for one full round: it settles on the first
    free slot of the scan, or fails for lack of one. *)
Lemma createEntity_scan w ic fuel :
  1 ≤ nextId w < maxNum w → (Z.to_nat (maxNum w - 1) ≤ fuel)%nat →
  createEntity fuel ic w =
    match List.find (free w) (scan_order w) with
    | Some k => allocate ic k w
    | None => (Throw CapacityError, w)
    end.
Proof.
  intros H Hf. unfold createEntity.
  apply createEntity_loop_chain; [by apply scan_order_chain|].
  by rewrite scan_order_length.
Qed.

Lemma settles_bind {A B} (m : St A) (k : A → St B) :
  settles m → (∀ a, settles (k a)) → settles (bind m k).
Proof.
  intros Hm Hk w. unfold bind. specialize (Hm w).
  destruct (m w) as [[a|e|] w1]; simpl in *; [apply Hk|..].
  - split; [|done]. intros [= ->]. by destruct Hm.
  - by destruct Hm.
Qed.

Lemma settles_ret {A} (a : A) : settles (ret a).
Proof. done. Qed.

Lemma settles_modify f : settles (modify f).
Proof. done. Qed.

Lemma settles_gets {A} (f : World → A) : settles (gets f).
Proof. done. Qed.

Lemma settles_checkMask type wr : settles (Entity.__checkMask type wr).
Proof. intros w. unfold Entity.__checkMask. by repeat case_match. Qed.

Lemma settles_add this type values : settles (Entity.add this type values).
Proof.
  unfold Entity.add, Entity.has.
  repeat (apply settles_bind; [|intros ?]);
    try apply settles_checkMask; try apply settles_gets; try done.
  case_match; [done|].
  repeat (apply settles_bind; [|intros ?]); done.
Qed.

Lemma settles_add_initial entity items : settles (add_initial entity items).
Proof.
  remember (length items) as n eqn:Hn.
  assert (Hle : (length items ≤ n)%nat) by lia. clear Hn.
  revert items Hle. induction n as [|n IH]; intros items Hle.
  - destruct items; [done|simpl in Hle; lia].
  - destruct items as [|[type|vs] rest]; simpl; [done| |done].
    simpl in Hle.
    destruct rest as [|[type'|vs] rest'];
      (apply settles_bind; [apply settles_add|intros ?; apply IH; simpl in *; lia]).
Qed.

Lemma settles_bindEntity id : settles (bindEntity id).
Proof.
  intros w. unfold bindEntity.
  destruct (Pool.borrow newEntity (pool w, heap w)) as [[r|] [p h]]; done.
Qed.

Lemma settles_allocate ic id : settles (allocate ic id).
Proof.
  unfold allocate. apply settles_bind; [apply settles_bindEntity|intros e].
  apply settles_bind; [destruct ic; [apply settles_add_initial|done]|intros ?].
  apply settles_bind; done.
Qed.

(** The handle [allocate] returns is bound to the slot. *)
Lemma allocate_Ok ic id w e w' :
  pool_wf w → allocate ic id w = (Ok e, w') →
  Entity.id_of w' e = Some id ∧ pool_wf w' ∧ nextId w' = next_slot w id
  ∧ maxNum w' = maxNum w ∧ types w' = types w.
Proof.
  intros Hwf H. unfold allocate in H.
  apply bind_Ok in H as (e1 & w1 & Hb & H).
  pose proof (bindEntity_Ok _ _ _ _ Hb) as (_ & Hmn & Hty & _).
  apply bindEntity_handle in Hb as (_ & _ & Hwf1 & Hid); [|done].
  apply bind_Ok in H as ([] & w2 & Ha & H).
  assert (Hs : same_handles w1 w2).
  { destruct ic as [items|].
    - pose proof (add_initial_frame_handles e1 items w1) as Hf. by rewrite Ha in Hf.
    - by injection Ha as <-. }
  apply bind_Ok in H as ([] & w3 & Hm & H). injection Hm as <-. injection H as <- <-.
  destruct Hs as (Hp & Hh & Hmn2 & Hty2).
  split; [|split; [|split; [|split]]].
  - unfold Entity.id_of in *. cbn [heap set_nextId]. by rewrite Hh.
  - unfold pool_wf in *. cbn [heap pool set_nextId]. by rewrite Hp, Hh.
  - cbn [nextId set_nextId]. unfold next_slot. by rewrite Hmn2, Hmn.
  - cbn [maxNum set_nextId]. congruence.
  - cbn [types set_nextId]. congruence.
Qed.

Lemma find_free_Some w l k : List.find (free w) l = Some k → k ∈ l ∧ free w k = true.
Proof.
  intros H. apply find_some in H as [Hin Hf]. split; [by apply list_elem_of_In|done].
Qed.

Lemma find_free_None w l : List.find (free w) l = None ↔ ∀ k, k ∈ l → free w k = false.
Proof.
  split.
  - intros H k Hin. apply (find_none _ _ H). by apply list_elem_of_In.
  - intros H. destruct (List.find (free w) l) as [k|] eqn:E; [|done].
    apply find_free_Some in E as [Hin Hf]. rewrite (H k Hin) in Hf. done.
Qed.

(** The slot a successful [createEntity] returns was free when it was
    called. *)
Lemma createEntity_loop_Ok fuel initial ic w e w' :
  pool_wf w → ∀ id, createEntity_loop fuel initial id ic w = (Ok e, w') →
  ∃ k, free w k = true ∧ allocate ic k w = (Ok e, w').
Proof.
  intros Hwf. induction fuel as [|fuel IH]; intros id; [done|].
  rewrite createEntity_loop_unfold. destruct (free w id) eqn:Ef; [eauto|].
  destruct (next_slot w id =? initial); [done|]. apply IH.
Qed.

(** *** Attached components keep a slot allocated *)

Lemma grows_refl w : grows w w.
Proof. done. Qed.

Lemma grows_stride w w' : grows w w' → stride w' = stride w.
Proof. intros (_ & Ht & _). unfold stride. by rewrite Ht. Qed.

Lemma grows_trans a b c : grows a b → grows b c → grows a c.
Proof.
  intros Hab Hbc. pose proof (grows_stride _ _ Hab) as Hs.
  destruct Hab as (Hm1 & Ht1 & H1), Hbc as (Hm2 & Ht2 & H2).
  split; [congruence|]. split; [congruence|].
  intros x Hx Hnz. apply H2; [rewrite Hm1, Hs; lia|]. by apply H1.
Qed.

Lemma lor_nonzero u f : 0 ≤ u < 2 ^ 32 → u ≠ 0 → ToUint32 (Z.lor (ToInt32 u) f) ≠ 0.
Proof.
  intros Hu Hnz Hz. apply Hnz. apply Z.bits_inj'. intros n Hn. rewrite Z.bits_0.
  destruct (Z.lt_ge_cases n 32) as [Hlt|Hge].
  - assert (Hb : Z.testbit (ToUint32 (Z.lor (ToInt32 u) f)) n = false)
      by (by rewrite Hz, Z.bits_0).
    unfold ToUint32 in Hb. rewrite Z.mod_pow2_bits_low in Hb by done.
    rewrite Z.lor_spec, ToInt32_testbit in Hb by done.
    rewrite Z.min_l in Hb by lia. by apply orb_false_iff in Hb as [? _].
  - apply Z.bits_above_log2; [lia|].
    assert (Z.log2 u < 32) by (apply log2_below; lia). lia.
Qed.

Ltac frame_grows := repeat frame_step grows_refl grows_trans.

Lemma setFlag_grows id type : frame grows (setFlag id type).
Proof.
  intros w. unfold setFlag, modify. cbn [snd].
  split; [done|]. split; [done|]. cbn [memory set_memory].
  intros a Ha Hnz. rewrite mem_word_ta_put.
  destruct (flag_index w id type) as [i|]; [|done].
  case_bool_decide as E; [|done]. destruct E as [Hi ->].
  cbn [base current len] in *. unfold ta_get. cbn [len base current].
  rewrite bool_decide_eq_true_2 by done. unfold js_or. cbn [js_int32].
  apply lor_nonzero; [apply mem_word_range|done].
Qed.

Lemma checkMask_grows type wr : frame grows (Entity.__checkMask type wr).
Proof. intros w. rewrite checkMask_same. apply grows_refl. Qed.

Lemma add_grows this type values : frame grows (Entity.add this type values).
Proof.
  unfold Entity.add, Entity.has, initComponent. frame_grows;
    try apply checkMask_grows. apply setFlag_grows.
Qed.

Lemma add_initial_grows entity items : frame grows (add_initial entity items).
Proof.
  remember (length items) as n eqn:Hn.
  assert (Hle : (length items ≤ n)%nat) by lia. clear Hn.
  revert items Hle. induction n as [|n IH]; intros items Hle.
  - destruct items; [|simpl in Hle; lia]. simpl. frame_grows.
  - destruct items as [|[type|vs] rest]; simpl; [frame_grows| |frame_grows].
    simpl in Hle.
    destruct rest as [|[type'|vs] rest']; frame_grows;
      try apply add_grows; apply IH; simpl in *; lia.
Qed.

Lemma bindEntity_grows id : frame grows (bindEntity id).
Proof.
  intros w. unfold bindEntity.
  destruct (Pool.borrow newEntity (pool w, heap w)) as [[r|] [p h]]; done.
Qed.

Lemma allocate_grows ic id : frame grows (allocate ic id).
Proof.
  unfold allocate. frame_grows; try apply bindEntity_grows.
  apply add_initial_grows.
Qed.

Lemma createEntity_grows fuel ic : frame grows (createEntity fuel ic).
Proof.
  intros w. unfold createEntity. generalize (nextId w) at 2. generalize (nextId w).
  induction fuel as [|fuel IH]; intros initial id; [apply grows_refl|].
  rewrite createEntity_loop_unfold.
  destruct (free w id); [apply allocate_grows|].
  destruct (next_slot w id =? initial); [apply grows_refl|apply IH].
Qed.

Lemma isAllocated_true w id v :
  isAllocated w id v = true ↔
  ∃ offset, 0 ≤ offset < stride w
    ∧ ta_get v (memory w) (slot_index w id offset) ≠ Some 0.
Proof.
  unfold isAllocated. rewrite existsb_exists. split.
  - intros (x & Hin & Hx). exists x. apply list_elem_of_In, elem_of_seqZ in Hin.
    split; [lia|]. unfold strict_ne in Hx. apply negb_true_iff in Hx.
    by apply bool_decide_eq_false in Hx.
  - intros (x & Hx & Hne). exists x. split.
    + apply list_elem_of_In, elem_of_seqZ. lia.
    + unfold strict_ne. apply negb_true_iff. by apply bool_decide_eq_false.
Qed.

Lemma isAllocated_grows w w' id :
  grows w w' → isAllocated w id (current w) = true → isAllocated w' id (current w') = true.
Proof.
  intros Hg. pose proof (grows_stride _ _ Hg) as Hs. destruct Hg as (Hm & Ht & Hw).
  rewrite !isAllocated_true. intros (off & Ho & Hne). exists off.
  split; [by rewrite Hs|].
  unfold slot_index, slot_base in *. rewrite Hs. destruct id as [id|]; [|done].
  unfold ta_get in *. cbn [len base current] in *. rewrite Hm, Hs.
  case_bool_decide as E; [|done].
  intros [= Hz]. apply Hne. f_equal.
  destruct (Z.eq_dec (mem_word (memory w) (0 + (id * stride w + off))) 0) as [|Hnz]; [done|].
  exfalso. apply (Hw (0 + (id * stride w + off))); [lia|done|done].
Qed.

Lemma hasFlag_isAllocated w id type :
  Z.of_nat (flagOffset type) < stride w →
  hasFlag w id type = true → isAllocated w id (current w) = true.
Proof.
  intros Ho Hf. apply isAllocated_true. exists (Z.of_nat (flagOffset type)).
  split; [lia|]. unfold hasFlag, flag_index in Hf.
  destruct (ta_get _ _ _) as [c|]; [|done].
  intros [= ->]. unfold js_and in Hf. by rewrite Z.land_0_l in Hf.
Qed.

Lemma has_same this type w : snd (Entity.has this type w) = w.
Proof.
  unfold Entity.has, bind. pose proof (checkMask_same type false w) as H.
  destruct (Entity.__checkMask type false w) as [[[]|e|] w1]; simpl in *; by subst.
Qed.

(** A successful [add] leaves the flag set. *)
Lemma add_Ok this type values w r w' :
  Entity.add this type values w = (Ok r, w') →
  is_Some (ta_get (current w) (memory w) (flag_index w (Entity.id_of w this) type)) →
  ToInt32 (flagMask type) ≠ 0 →
  hasFlag w' (Entity.id_of w this) type = true.
Proof.
  intros H Hin Hnz. unfold Entity.add in H.
  apply bind_Ok in H as ([] & w1 & Hc & H).
  pose proof (checkMask_same type true w) as Hcs. rewrite Hc in Hcs. simpl in Hcs. subst w1.
  apply bind_Ok in H as (present & w1 & Hh & H).
  pose proof (has_same this type w) as Hhs. rewrite Hh in Hhs. simpl in Hhs. subst w1.
  destruct present; [done|].
  apply bind_Ok in H as (id & w1 & Hg & H). injection Hg as <- <-.
  apply bind_Ok in H as ([] & w1 & Hs & H).
  apply bind_Ok in H as ([] & w2 & Hi & H). injection H as <- <-.
  injection Hi as <-. injection Hs as <-.
  rewrite <- (hasFlag_setFlag w (Entity.id_of w this) type Hin Hnz).
  by apply hasFlag_ext.
Qed.

Lemma add_initial_first entity type rest w w' :
  add_initial entity (ItemType type :: rest) w = (Ok tt, w') →
  ∃ values rest' r w1,
    Entity.add entity type values w = (Ok r, w1)
    ∧ add_initial entity rest' w1 = (Ok tt, w').
Proof.
  simpl. intros H.
  destruct rest as [|[type'|vs] rest']; apply bind_Ok in H as (r & w1 & Ha & H); eauto 6.
Qed.

Lemma slot_in_current w k (offset : Z) :
  0 ≤ k < maxNum w → 0 ≤ offset < stride w →
  is_Some (ta_get (current w) (memory w) (slot_index w (Some k) offset)).
Proof.
  intros Hk Ho. unfold slot_index, slot_base, ta_get. cbn [len current].
  rewrite bool_decide_eq_true_2; [eauto|nia].
Qed.

(** A slot allocated with at least one registered component is allocated in
    the current buffer afterwards. *)
Lemma allocate_attaches type rest k w e w' :
  pool_wf w → registered w type → 0 ≤ k < maxNum w →
  allocate (Some (ItemType type :: rest)) k w = (Ok e, w') →
  isAllocated w' (Some k) (current w') = true.
Proof.
  intros Hwf [Ho Hnz] Hk H. unfold allocate in H.
  apply bind_Ok in H as (e1 & w1 & Hb & H).
  pose proof (bindEntity_Ok _ _ _ _ Hb) as (Hmem & Hmn & Hty & _).
  apply bindEntity_handle in Hb as (_ & _ & Hwf1 & Hid); [|done].
  apply bind_Ok in H as ([] & w2 & Ha & H).
  apply bind_Ok in H as ([] & w3 & Hm & H). injection Hm as <-. injection H as <- <-.
  apply add_initial_first in Ha as (values & rest' & r & w1' & Hadd & Hrest).
  assert (Hst : stride w1 = stride w) by (unfold stride; by rewrite Hty).
  pose proof (add_frame_handles e1 type values w1) as (_ & _ & _ & Hty1).
  rewrite Hadd in Hty1. cbn [snd] in Hty1.
  assert (Hst1 : stride w1' = stride w) by (unfold stride; by rewrite Hty1, Hty).
  apply add_Ok in Hadd;
    [|rewrite Hid; apply slot_in_current; [lia|rewrite Hst; lia]|done].
  rewrite Hid in Hadd.
  pose proof (add_initial_grows e1 rest' w1') as Hg2. rewrite Hrest in Hg2. cbn [snd] in Hg2.
  assert (Hg3 : grows w2 (set_nextId (next_slot w2 k) w2)) by done.
  eapply isAllocated_grows; [exact Hg3|].
  eapply isAllocated_grows; [exact Hg2|].
  apply (hasFlag_isAllocated _ _ type); [rewrite Hst1; lia|done].
Qed.

(** ** Capacity *)

Lemma next_slot_range w id : 1 ≤ id < maxNum w → 1 ≤ next_slot w id < maxNum w.
Proof. intros H. unfold next_slot. destruct (Z.eqb_spec (id + 1) (maxNum w)); lia. Qed.

Lemma createEntity_loop_Ok_range fuel initial ic w e w' :
  ∀ id, 1 ≤ id < maxNum w →
  createEntity_loop fuel initial id ic w = (Ok e, w') →
  ∃ k, 1 ≤ k < maxNum w ∧ free w k = true ∧ allocate ic k w = (Ok e, w').
Proof.
  induction fuel as [|fuel IH]; intros id Hid; [done|].
  rewrite createEntity_loop_unfold. destruct (free w id) eqn:Ef; [eauto|].
  destruct (next_slot w id =? initial); [done|]. apply IH. by apply next_slot_range.
Qed.

Lemma free_false_of_allocated w k :
  isAllocated w (Some k) (current w) = true → free w k = false.
Proof. unfold free. by intros ->. Qed.

(** One successful, attaching [createEntity]: it takes a slot that was free
    and leaves it allocated, and no allocated slot becomes unallocated. *)
Lemma createEntity_attach fuel ic w e w' :
  pool_wf w → 1 ≤ nextId w < maxNum w → attaching w ic →
  createEntity fuel ic w = (Ok e, w') →
  ∃ k, 1 ≤ k < maxNum w ∧ free w k = true
    ∧ isAllocated w' (Some k) (current w') = true
    ∧ pool_wf w' ∧ 1 ≤ nextId w' < maxNum w' ∧ grows w w'.
Proof.
  intros Hwf Hid (type & rest & -> & Hreg) H.
  pose proof (createEntity_grows fuel (Some (ItemType type :: rest)) w) as Hg.
  rewrite H in Hg. cbn [snd] in Hg.
  apply createEntity_loop_Ok_range in H as (k & Hk & Hf & Ha); [|done].
  exists k. split; [done|]. split; [done|].
  split; [eapply allocate_attaches; eauto; lia|].
  apply allocate_Ok in Ha as (_ & Hwf' & Hn & Hm & _); [|done].
  split; [done|]. split; [|done].
  rewrite Hn, Hm. by apply next_slot_range.
Qed.

(** C7, as the store has it.  With the cursor on a slot and fuel for one
    round, [createEntity] ends, and it throws the capacity error exactly when
    no slot of [1, maxEntities] is unallocated in both buffers; it then leaves
    the store as it was.  In particular, with [maxEntities = 4], after four
    successful calls that each attach a component first, a fifth call throws
    the capacity error. *)
Theorem createEntity_capacity (w : World) (ic : option (list InitItem)) (fuel : nat)
    (Hid : 1 ≤ nextId w < maxNum w)
    (Hfuel : (Z.to_nat (maxNum w - 1) ≤ fuel)%nat) :
  (fst (createEntity fuel ic w) = Throw CapacityError ↔
     ∀ id, 1 ≤ id ≤ maxEntities w → free w id = false)
  ∧ (fst (createEntity fuel ic w) = Throw CapacityError → snd (createEntity fuel ic w) = w)
  ∧ fst (createEntity fuel ic w) ≠ OutOfFuel
  ∧ (maxEntities w = 4 → pool_wf w →
     ∀ ic1 ic2 ic3 ic4 e1 e2 e3 e4 w1 w2 w3 w4 ic5,
       attaching w ic1 → attaching w ic2 → attaching w ic3 → attaching w ic4 →
       createEntity fuel ic1 w = (Ok e1, w1) →
       createEntity fuel ic2 w1 = (Ok e2, w2) →
       createEntity fuel ic3 w2 = (Ok e3, w3) →
       createEntity fuel ic4 w3 = (Ok e4, w4) →
       createEntity fuel ic5 w4 = (Throw CapacityError, w4)).
Proof.
  assert (Hfull : ∀ w ic, 1 ≤ nextId w < maxNum w → (Z.to_nat (maxNum w - 1) ≤ fuel)%nat →
            (∀ id, 1 ≤ id ≤ maxEntities w → free w id = false) →
            createEntity fuel ic w = (Throw CapacityError, w)).
  { clear. intros w ic Hid Hfuel Hall. rewrite createEntity_scan by done.
    destruct (List.find (free w) (scan_order w)) as [k|] eqn:E; [|done].
    apply find_free_Some in E as [Hin Hf]. apply scan_order_elem in Hin; [|done].
    rewrite Hall in Hf; [done|unfold maxEntities; lia]. }
  split; [|split; [|split]].
  - split; [|intros Hall; by rewrite Hfull].
    rewrite createEntity_scan by done.
    destruct (List.find (free w) (scan_order w)) as [k|] eqn:E.
    + intros Hc. by destruct (settles_allocate ic k w).
    + intros _ id Hr. rewrite find_free_None in E. apply E, scan_order_elem; [done|].
      unfold maxEntities in Hr. lia.
  - rewrite createEntity_scan by done.
    destruct (List.find (free w) (scan_order w)) as [k|] eqn:E; [|done].
    intros Hc. by destruct (settles_allocate ic k w).
  - rewrite createEntity_scan by done.
    destruct (List.find (free w) (scan_order w)) as [k|] eqn:E; [|done].
    by destruct (settles_allocate ic k w).
  - intros Hmax Hwf ic1 ic2 ic3 ic4 e1 e2 e3 e4 w1 w2 w3 w4 ic5 A1 A2 A3 A4 C1 C2 C3 C4.
    unfold maxEntities in Hmax.
    assert (Hkeep : ∀ a b ic, grows a b → attaching a ic → attaching b ic).
    { intros a b ic' Hg (t & r & -> & Ho & Hnz). exists t, r. split; [done|].
      split; [by rewrite (grows_stride _ _ Hg)|done]. }
    destruct (createEntity_attach _ _ _ _ _ Hwf Hid A1 C1)
      as (k1 & R1 & F1 & L1 & Hwf1 & Hid1 & G1).
    destruct (createEntity_attach _ _ _ _ _ Hwf1 Hid1 (Hkeep _ _ _ G1 A2) C2)
      as (k2 & R2 & F2 & L2 & Hwf2 & Hid2 & G2).
    pose proof (grows_trans _ _ _ G1 G2) as G12.
    destruct (createEntity_attach _ _ _ _ _ Hwf2 Hid2 (Hkeep _ _ _ G12 A3) C3)
      as (k3 & R3 & F3 & L3 & Hwf3 & Hid3 & G3).
    pose proof (grows_trans _ _ _ G12 G3) as G123.
    destruct (createEntity_attach _ _ _ _ _ Hwf3 Hid3 (Hkeep _ _ _ G123 A4) C4)
      as (k4 & R4 & F4 & L4 & Hwf4 & Hid4 & G4).
    destruct G1 as (M1 & _), G12 as (M2 & _), G123 as (M3 & _).
    pose proof G4 as (M4 & _).
    (* the four slots differ: each was free when it was taken *)
    assert (k2 ≠ k1) by (intros ->; by rewrite (free_false_of_allocated _ _ L1) in F2).
    assert (k3 ≠ k2) by (intros ->; by rewrite (free_false_of_allocated _ _ L2) in F3).
    assert (k4 ≠ k3) by (intros ->; by rewrite (free_false_of_allocated _ _ L3) in F4).
    pose proof (isAllocated_grows _ _ _ G2 L1) as L12.
    assert (k3 ≠ k1) by (intros ->; by rewrite (free_false_of_allocated _ _ L12) in F3).
    pose proof (isAllocated_grows _ _ _ G3 L12) as L13.
    pose proof (isAllocated_grows _ _ _ G3 L2) as L23.
    assert (k4 ≠ k1) by (intros ->; by rewrite (free_false_of_allocated _ _ L13) in F4).
    assert (k4 ≠ k2) by (intros ->; by rewrite (free_false_of_allocated _ _ L23) in F4).
    pose proof (isAllocated_grows _ _ _ G4 L13) as L14.
    pose proof (isAllocated_grows _ _ _ G4 L23) as L24.
    pose proof (isAllocated_grows _ _ _ G4 L3) as L34.
    apply Hfull; [done|rewrite M4, M3; lia|].
    intros id Hr. unfold maxEntities in Hr. apply free_false_of_allocated.
    assert (id = k1 ∨ id = k2 ∨ id = k3 ∨ id = k4) as [->|[->|[->| ->]]] by lia; done.
Qed.

Lemma compA_attaching : attaching demo (Some [ItemType compA]).
Proof.
  exists compA, []. split; [reflexivity|]. split; [reflexivity|].
  vm_compute. discriminate.
Defined.

Lemma createEntity_capacity_witness :
  1 ≤ nextId demo < maxNum demo
  ∧ (Z.to_nat (maxNum demo - 1) ≤ 4)%nat
  ∧ createEntity 4 None four_created = (Throw CapacityError, four_created).
Proof.
  assert (Hid : 1 ≤ nextId demo < maxNum demo) by (vm_compute; split; [discriminate|reflexivity]).
  assert (Hfuel : (Z.to_nat (maxNum demo - 1) ≤ 4)%nat) by (vm_compute; apply le_n).
  split; [exact Hid|]. split; [exact Hfuel|].
  refine (proj2 (proj2 (proj2 (createEntity_capacity demo None 4 Hid Hfuel)))
            eq_refl _
            (Some [ItemType compA]) (Some [ItemType compA])
            (Some [ItemType compA]) (Some [ItemType compA])
            0%nat 0%nat 0%nat 0%nat
            (snd (createA demo))
            (snd (createA (snd (createA demo))))
            (snd (createA (snd (createA (snd (createA demo))))))
            four_created None
            compA_attaching compA_attaching compA_attaching compA_attaching
            _ _ _ _).
  - apply (bool_decide_unpack _). vm_compute. exact I.
  - vm_compute. reflexivity.
  - vm_compute. reflexivity.
  - vm_compute. reflexivity.
  - vm_compute. reflexivity.
Defined.

(** C7 as stated fails for entities created without components: their slots
    stay unallocated, and with [maxEntities = 4] a fifth [createEntity]
    after four successful ones succeeds, on slot 1 again. *)
Lemma fifth_createEntity_succeeds :
  maxEntities demo = 4
  ∧ fst (createNone demo) = Ok 0%nat
  ∧ fst (createNone (snd (createNone demo))) = Ok 0%nat
  ∧ fst (createNone (snd (createNone (snd (createNone demo))))) = Ok 0%nat
  ∧ fst (createNone (snd (createNone (snd (createNone (snd (createNone demo)))))))
    = Ok 0%nat
  ∧ fst (createNone
           (snd (createNone (snd (createNone (snd (createNone (snd (createNone demo)))))))))
    = Ok 0%nat
  ∧ Entity.id_of
      (snd (createNone
              (snd (createNone (snd (createNone (snd (createNone (snd (createNone demo))))))))))
      0 = Some 1.
Proof. repeat split; vm_compute; reflexivity. Qed.

(** ** Slot reuse across frames *)

Lemma keeps_refl w : keeps w w.
Proof. done. Qed.

Lemma keeps_trans a b c : keeps a b → keeps b c → keeps a c.
Proof.
  intros (M1 & T1 & P1 & H1) (M2 & T2 & P2 & H2).
  split; [congruence|]. split; [congruence|]. split; [tauto|].
  intros i. by rewrite H2, H1.
Qed.

Lemma keeps_stride w w' : keeps w w' → stride w' = stride w.
Proof. intros (_ & Ht & _). unfold stride. by rewrite Ht. Qed.

(** A write through the current or the mutation window. *)
Lemma keeps_put w (v : View) i x :
  apart (previous w) v → keeps w (set_memory (ta_put v i x (memory w)) w).
Proof.
  intros Ha. split; [done|]. split; [done|]. split; [done|].
  intros j. cbn [memory set_memory].
  change (previous (set_memory _ w)) with (previous w).
  by apply ta_get_ta_put_apart.
Qed.

Create HintDb keeps_db.

Lemma setFlag_keeps id type : frame keeps (setFlag id type).
Proof. intros w. apply keeps_put, previous_current_apart. Qed.

Lemma clearFlag_keeps id type : frame keeps (clearFlag id type).
Proof. intros w. apply keeps_put, previous_current_apart. Qed.

Lemma markMutated_keeps id type : frame keeps (markMutated id type).
Proof. intros w. apply keeps_put, previous_mutations_apart. Qed.

Lemma initComponent_keeps type id values : frame keeps (initComponent type id values).
Proof. intros w. done. Qed.

Lemma setField_keeps c field v : frame keeps (setField c field v).
Proof. intros w. done. Qed.

Lemma checkMask_keeps type wr : frame keeps (Entity.__checkMask type wr).
Proof. intros w. rewrite checkMask_same. apply keeps_refl. Qed.

Lemma bindEntity_keeps id : frame keeps (bindEntity id).
Proof.
  intros w. split; [|split; [|split]].
  - unfold bindEntity.
    by destruct (Pool.borrow newEntity (pool w, heap w)) as [[r|] [p h]].
  - unfold bindEntity.
    by destruct (Pool.borrow newEntity (pool w, heap w)) as [[r|] [p h]].
  - intros Hwf. destruct (bindEntity_spec id w Hwf) as (e & w' & -> & _ & _ & _ & Hwf' & _).
    done.
  - intros i. unfold bindEntity.
    by destruct (Pool.borrow newEntity (pool w, heap w)) as [[r|] [p h]].
Qed.

#[export] Hint Resolve setFlag_keeps clearFlag_keeps markMutated_keeps initComponent_keeps
  setField_keeps checkMask_keeps bindEntity_keeps : keeps_db.

Ltac frame_keeps :=
  repeat frame_step keeps_refl keeps_trans; auto with keeps_db.

Lemma has_keeps this type : frame keeps (Entity.has this type).
Proof. unfold Entity.has. frame_keeps. Qed.

#[export] Hint Resolve has_keeps : keeps_db.

Lemma add_keeps this type values : frame keeps (Entity.add this type values).
Proof. unfold Entity.add. frame_keeps. Qed.

Lemma get_keeps this type wr : frame keeps (Entity.__get this type wr).
Proof. unfold Entity.__get, bindComponent. frame_keeps. Qed.

#[export] Hint Resolve add_keeps get_keeps : keeps_db.

Lemma read_keeps this type : frame keeps (Entity.read this type).
Proof. unfold Entity.read. frame_keeps. Qed.

Lemma readIfPresent_keeps this type : frame keeps (Entity.readIfPresent this type).
Proof. unfold Entity.readIfPresent. frame_keeps. Qed.

Lemma write_keeps this type : frame keeps (Entity.write this type).
Proof. unfold Entity.write. frame_keeps. Qed.

#[export] Hint Resolve read_keeps readIfPresent_keeps write_keeps : keeps_db.

Lemma null_refs_keeps c fs : frame keeps (Entity.null_refs c fs).
Proof. induction fs as [|f fs IH]; simpl; frame_keeps. Qed.

#[export] Hint Resolve null_refs_keeps : keeps_db.

Lemma remove_keeps this type : frame keeps (Entity.remove this type).
Proof.
  unfold Entity.remove, Entity.__remove, Entity.__deindexOutboundRefs,
    Entity.__wipeInboundRefs. frame_keeps.
Qed.

Lemma delete_keeps this : frame keeps (Entity.delete this).
Proof.
  unfold Entity.delete. frame_keeps. rename a into ts.
  induction ts as [|type ts IH]; simpl;
    unfold Entity.__remove, Entity.__deindexOutboundRefs, Entity.__wipeInboundRefs;
    frame_keeps.
Qed.

Lemma add_initial_keeps entity items : frame keeps (add_initial entity items).
Proof.
  remember (length items) as n eqn:Hn.
  assert (Hle : (length items ≤ n)%nat) by lia. clear Hn.
  revert items Hle. induction n as [|n IH]; intros items Hle.
  - destruct items; [|simpl in Hle; lia]. simpl. frame_keeps.
  - destruct items as [|[type|vs] rest]; simpl; [frame_keeps| |frame_keeps].
    simpl in Hle.
    destruct rest as [|[type'|vs] rest']; frame_keeps; apply IH; simpl in *; lia.
Qed.

#[export] Hint Resolve remove_keeps delete_keeps add_initial_keeps : keeps_db.

Lemma allocate_keeps ic id : frame keeps (allocate ic id).
Proof. unfold allocate. frame_keeps. Qed.

Lemma createEntity_keeps fuel ic : frame keeps (createEntity fuel ic).
Proof.
  intros w. unfold createEntity. generalize (nextId w) at 2. generalize (nextId w).
  induction fuel as [|fuel IH]; intros initial id; [apply keeps_refl|].
  rewrite createEntity_loop_unfold.
  destruct (free w id); [apply allocate_keeps|].
  destruct (next_slot w id =? initial); [apply keeps_refl|apply IH].
Qed.

#[export] Hint Resolve createEntity_keeps : keeps_db.

Lemma existsb_pointwise {A} (f g : A → bool) l :
  (∀ x, f x = g x) → existsb f l = existsb g l.
Proof. intros H. induction l as [|x l IH]; simpl; [done|]. by rewrite H, IH. Qed.

Lemma isAllocated_previous_keeps w w' id :
  keeps w w' → isAllocated w' id (previous w') = isAllocated w id (previous w).
Proof.
  intros Hk. pose proof (keeps_stride _ _ Hk) as Hs. destruct Hk as (_ & _ & _ & Hp).
  unfold isAllocated, slot_index, slot_base. rewrite Hs.
  apply existsb_pointwise. intros off. by rewrite Hp.
Qed.

(** *** Traces of calls *)

Lemma call_keeps fuel c : c ≠ CallStep → frame keeps (call fuel c).
Proof. intros Hc. destruct c; [done|..]; simpl; frame_keeps. Qed.

Lemma createEntity_Ok_free fuel ic w e w' :
  pool_wf w → createEntity fuel ic w = (Ok e, w') →
  ∃ k, Entity.id_of w' e = Some k
    ∧ isAllocated w (Some k) (current w) = false
    ∧ isAllocated w (Some k) (previous w) = false.
Proof.
  intros Hwf H. unfold createEntity in H.
  apply (createEntity_loop_Ok _ _ _ _ _ _ Hwf) in H as (k & Hf & Ha).
  apply allocate_Ok in Ha as (Hid & _); [|done].
  exists k. split; [done|]. unfold free in Hf.
  apply andb_true_iff in Hf as [H1 H2].
  by apply negb_true_iff in H1, H2.
Qed.

(** C2, as the store has it.  The slot a successful [createEntity] binds was,
    when it was called, unallocated in the current and in the previous
    buffer.  Consequently a slot that is allocated in the previous buffer,
    that is, one that was allocated when [step()] last ran, is not handed out
    by any [createEntity] of a sequence of calls without a [step()]. *)
Theorem createEntity_takes_unallocated (w : World) (Hwf : pool_wf w) :
  (∀ fuel ic e w',
     createEntity fuel ic w = (Ok e, w') →
     ∃ k, Entity.id_of w' e = Some k
       ∧ isAllocated w (Some k) (current w) = false
       ∧ isAllocated w (Some k) (previous w) = false)
  ∧ (∀ fuel cs k,
       CallStep ∉ cs → isAllocated w (Some k) (previous w) = true →
       ∀ ic e w',
         (CallCreateEntity ic, Ok (RetEntity e), w') ∈ run fuel cs w →
         Entity.id_of w' e ≠ Some k).
Proof.
  split; [intros fuel ic e w'; by apply createEntity_Ok_free|].
  intros fuel cs. revert w Hwf. induction cs as [|c cs IH]; intros w Hwf k Hns Hp ic e w' Hin.
  - by apply elem_of_nil in Hin.
  - apply not_elem_of_cons in Hns as [Hc Hns].
    pose proof (call_keeps fuel c (not_eq_sym Hc) w) as Hk.
    cbn [run] in Hin. apply elem_of_cons in Hin as [Heq|Hin].
    + injection Heq as <- Hr Hw.
      simpl in Hr, Hw. unfold bind in Hr, Hw.
      destruct (createEntity fuel ic w) as [[e0|err|] w0] eqn:E; simpl in *; try done.
      injection Hr as ->. subst w0.
      destruct (createEntity_Ok_free _ _ _ _ _ Hwf E) as (k' & Hid & _ & Hfree).
      rewrite Hid. intros [= ->]. congruence.
    + refine (IH (snd (call fuel c w)) _ k Hns _ ic e w' Hin).
      * destruct Hk as (_ & _ & Hw & _). by apply Hw.
      * by rewrite (isAllocated_previous_keeps _ _ _ Hk).
Qed.

Example stepped_slot_goes_unused :
  isAllocated stepped (Some 1) (previous stepped) = true
  ∧ ∃ w1 w2,
      run 4 remove_then_create stepped =
        [(CallRemove 0 compA, Ok (RetBool true), w1);
         (CallCreateEntity (Some [ItemType compA]), Ok (RetEntity 0%nat), w2)]
      ∧ isAllocated w1 (Some 1) (current w1) = false
      ∧ Entity.id_of w2 0 = Some 2.
Proof.
  split; [reflexivity|].
  exists (snd (call 4 (CallRemove 0 compA) stepped)),
         (snd (call 4 (CallCreateEntity (Some [ItemType compA]))
                 (snd (call 4 (CallRemove 0 compA) stepped)))).
  repeat split; vm_compute; reflexivity.
Qed.

Lemma createEntity_takes_unallocated_witness :
  pool_wf stepped
  ∧ ∀ ic e w',
      (CallCreateEntity ic, Ok (RetEntity e), w') ∈ run 4 remove_then_create stepped →
      Entity.id_of w' e ≠ Some 1.
Proof.
  assert (H : pool_wf stepped) by (apply (bool_decide_unpack _); vm_compute; exact I).
  split; [exact H|].
  apply (proj2 (createEntity_takes_unallocated stepped H) 4%nat remove_then_create 1).
  - intros Hin. unfold remove_then_create in Hin.
    apply elem_of_cons in Hin as [Hin|Hin]; [discriminate|].
    apply elem_of_cons in Hin as [Hin|Hin]; [discriminate|].
    by apply elem_of_nil in Hin.
  - vm_compute. reflexivity.
Defined.

(** C2 as stated fails for an entity that is created and released within one
    frame: with one slot, [createEntity] hands out slot 1, [remove] leaves it
    unallocated in both buffers, and the next [createEntity] hands out slot 1
    again, no [step()] having run in between. *)
Lemma slot_reused_without_step :
  (CallStep ∉ create_remove_create)
  ∧ ∃ w1 w2 w3,
      run 1 create_remove_create one_slot =
        [(CallCreateEntity (Some [ItemType compA]), Ok (RetEntity 0%nat), w1);
         (CallRemove 0 compA, Ok (RetBool true), w2);
         (CallCreateEntity (Some [ItemType compA]), Ok (RetEntity 0%nat), w3)]
      ∧ Entity.id_of w1 0 = Some 1
      ∧ isAllocated w1 (Some 1) (current w1) = true
      ∧ isAllocated w2 (Some 1) (current w2) = false
      ∧ isAllocated w2 (Some 1) (previous w2) = false
      ∧ Entity.id_of w3 0 = Some 1.
Proof.
  split.
  - intros Hin. unfold create_remove_create in Hin.
    apply elem_of_cons in Hin as [Hin|Hin]; [discriminate|].
    apply elem_of_cons in Hin as [Hin|Hin]; [discriminate|].
    apply elem_of_cons in Hin as [Hin|Hin]; [discriminate|].
    by apply elem_of_nil in Hin.
  - exists (snd (call 1 (CallCreateEntity (Some [ItemType compA])) one_slot)),
           (snd (call 1 (CallRemove 0 compA)
                   (snd (call 1 (CallCreateEntity (Some [ItemType compA])) one_slot)))),
           (snd (call 1 (CallCreateEntity (Some [ItemType compA]))
                   (snd (call 1 (CallRemove 0 compA)
                           (snd (call 1 (CallCreateEntity (Some [ItemType compA]))
                                   one_slot)))))).
    repeat split; vm_compute; reflexivity.
Qed.

(** ** Flushes during iteration *)

Lemma bindEntity_events id w : events (snd (bindEntity id w)) = events w ++ [EvBind id].
Proof.
  unfold bindEntity.
  by destruct (Pool.borrow newEntity (pool w, heap w)) as [[r|] [p h]].
Qed.

Lemma snd_bind_ret {S A B} (m : M S A) (f : A → B) s :
  snd (bind m (fun a => ret (f a)) s) = snd (m s).
Proof. unfold bind. by destruct (m s) as [[a|e|] s1]. Qed.

Lemma appended_app w w' l : events w' = events w ++ l → appended w w' = l.
Proof. unfold appended. intros ->. by rewrite drop_app_length. Qed.

(** [next()] of [iterateAll]: no flush on the first call. *)
Lemma iterateAll_first_next numResults w :
  EvFlush ∉ appended w (snd (iterateAll_next numResults (-1) w)).
Proof.
  unfold iterateAll_next. change (0 <=? -1) with false.
  unfold bind at 1. cbn [ret]. change (-1 + 1) with 0.
  destruct (numResults <=? 0).
  - rewrite (appended_app _ _ []); [apply not_elem_of_nil|by rewrite app_nil_r].
  - unfold bind at 1. unfold gets at 1. rewrite snd_bind_ret.
    rewrite (appended_app _ _ _ (bindEntity_events _ w)).
    apply not_elem_of_cons. split; [done|apply not_elem_of_nil].
Qed.

(** [next()] of [iterateAll] on a later call: one flush, before the bind. *)
Lemma iterateAll_later_next numResults i w :
  0 ≤ i →
  ∃ tail, appended w (snd (iterateAll_next numResults i w)) = EvFlush :: tail
    ∧ EvFlush ∉ tail.
Proof.
  intros Hi. unfold iterateAll_next.
  destruct (Z.leb_spec 0 i); [|lia].
  unfold bind at 1. unfold flush at 1, modify at 1.
  destruct (numResults <=? i + 1).
  - exists []. split; [by apply appended_app|apply not_elem_of_nil].
  - unfold bind at 1. unfold gets at 1. rewrite snd_bind_ret.
    set (id := ta_get _ _ _). exists [EvBind id]. split.
    + apply appended_app. rewrite bindEntity_events. cbn [events emit].
      by rewrite <- app_assoc.
    + apply not_elem_of_cons. split; [done|apply not_elem_of_nil].
Qed.

(** [next()] of [iterate]: one flush on every call, the first included,
    before the bind. *)
Lemma iterate_next_flushes predicate id w :
  ∃ tail, appended w (snd (iterate_next predicate id w)) = EvFlush :: tail
    ∧ EvFlush ∉ tail.
Proof.
  unfold iterate_next.
  unfold bind at 1. unfold flush at 1, modify at 1.
  unfold bind at 1. unfold get at 1.
  set (id' := iterate_skip _ _ _ _).
  destruct (id' <? _).
  - rewrite snd_bind_ret. exists [EvBind (Some id')]. split.
    + apply appended_app. rewrite bindEntity_events. cbn [events emit].
      by rewrite <- app_assoc.
    + apply not_elem_of_cons. split; [done|apply not_elem_of_nil].
  - exists []. split; [by apply appended_app|apply not_elem_of_nil].
Qed.

(** C5 on the store with four entities.  For [iterateAll] the first [next()]
    only binds slot 1 and the second flushes once and then binds slot 2, as
    claimed.  For [iterate] the first [next()] already flushes, before the
    first element is produced; so does every [next()] of [iterate], on any
    store. *)
Theorem iterate_flushes_before_first_element :
  fst (iterateAll 4 (Some [Some 1]) None four_created) = Ok 4
  ∧ (let w := snd (iterateAll 4 (Some [Some 1]) None four_created) in
     fst (iterateAll_next 4 (-1) w) = Ok (Value 0%nat, 0)
     ∧ appended w (snd (iterateAll_next 4 (-1) w)) = [EvBind (Some 1)]
     ∧ appended (snd (iterateAll_next 4 (-1) w))
         (snd (iterateAll_next 4 0 (snd (iterateAll_next 4 (-1) w))))
       = [EvFlush; EvBind (Some 2)])
  ∧ fst (iterate_next hasA 1 four_created) = Ok (Value 0%nat, 2)
  ∧ appended four_created (snd (iterate_next hasA 1 four_created))
    = [EvFlush; EvBind (Some 1)]
  ∧ ∀ predicate w,
      ∃ tail, appended w (snd (iterate_next predicate 1 w)) = EvFlush :: tail.
Proof.
  split; [vm_compute; reflexivity|].
  split; [repeat split; vm_compute; reflexivity|].
  split; [vm_compute; reflexivity|].
  split; [vm_compute; reflexivity|].
  intros predicate w.
  destruct (iterate_next_flushes predicate 1 w) as (tail & H & _). eauto.
Qed.

(** ** The scanning kernel against the predicate loop *)

Module KernelFacts.
Import Kernel KernelSpec.

Lemma load_ok bytes addr m :
  addr + 4 ≤ bytes → addr mod 4 = 0 →
  load bytes addr m = (Ok (mem_word m (addr / 4)), m).
Proof.
  intros H1 H2. unfold load.
  destruct (Z.leb_spec (addr + 4) bytes); [|lia]. by rewrite H2.
Qed.

Lemma store_ok bytes addr v m :
  addr + 4 ≤ bytes → addr mod 4 = 0 →
  store bytes addr v m = (Ok tt, <[addr / 4 := i32 v]> m).
Proof.
  intros H1 H2. unfold store.
  destruct (Z.leb_spec (addr + 4) bytes); [|lia]. by rewrite H2.
Qed.

Lemma cond_hit (a b : bool) : negb (Z.land (b2i a) (b2i b) =? 0) = a && b.
Proof. by destruct a, b. Qed.

Lemma turn_run bytes l m :
  currOffset l + 4 ≤ bytes → currOffset l mod 4 = 0 →
  filtOffset l + 4 ≤ bytes → filtOffset l mod 4 = 0 →
  let h := hit (posMask l) (negMask l) m (currOffset l / 4) in
  turn bytes l m =
    (Ok (after_turn l h, i32 (currOffset l + 4) =? segSize l),
     if h then <[filtOffset l / 4 := i32 (id l)]> m else m).
Proof.
  intros Hc1 Hc2 Hf1 Hf2 h. unfold turn.
  rewrite (bind_run _ _ _ _ _ (load_ok _ _ _ Hc1 Hc2)).
  rewrite (bind_run _ _ _ _ _ (load_ok _ _ _ Hc1 Hc2)).
  rewrite cond_hit. fold (hit (posMask l) (negMask l) m (currOffset l / 4)). fold h.
  destruct h.
  - unfold bind at 1. unfold bind at 1.
    rewrite (store_ok _ _ _ _ Hf1 Hf2). done.
  - done.
Qed.

Lemma i32_small z : 0 ≤ z < 2 ^ 32 → i32 z = z.
Proof. apply Z.mod_small. Qed.

Section Scan.
Variables (bytes n P N : Z) (m0 : gmap Z Z).
Hypothesis Hn : 2 ≤ n.
Hypothesis Hsize : 16 * n ≤ 2 ^ 32.
Hypothesis Hbytes : 16 * n - 4 ≤ bytes.

Lemma loop_scan (k : nat) : ∀ j r l m fuel,
  Z.of_nat k = n - 1 - j → 1 ≤ j → 0 ≤ r ≤ j - 1 →
  at_slot n P N m0 l m j r → (S k ≤ fuel)%nat →
  ∃ l', loop fuel bytes l m =
          (Ok l', put_words (3 * n + r) (List.filter (hit P N m0) (seqZ j (n - j))) m)
    ∧ numResults l' = r + Z.of_nat (length (List.filter (hit P N m0) (seqZ j (n - j)))).
Proof using Hn Hsize Hbytes.
  induction k as [|k IH]; intros j r l m fuel Hk Hj Hr Hl Hfuel;
    destruct Hl as (Hs & HP & HN & Hid & Hc & Hf & Hnr & Hm);
    (destruct fuel as [|fuel]; [lia|]); cbn [loop].
  - (* the last slot *)
    assert (j = n - 1) as -> by lia.
    rewrite (bind_run _ _ _ _ _ (turn_run bytes l m ltac:(lia)
               ltac:(rewrite Hc, Z.mul_comm; apply Z_mod_mult) ltac:(lia)
               ltac:(rewrite Hf; replace (12 * n + 4 * r) with ((3 * n + r) * 4) by lia;
                     apply Z_mod_mult))).
    cbn [snd fst]. rewrite Hc, Hs, Hf, Hid, HP, HN.
    rewrite (i32_small (4 * (n - 1) + 4)) by lia.
    replace (4 * (n - 1) + 4) with (4 * n) by lia. rewrite Z.eqb_refl.
    replace (4 * (n - 1) / 4) with (n - 1) by (rewrite Z.mul_comm, Z.div_mul; lia).
    replace ((12 * n + 4 * r) / 4) with (3 * n + r)
      by (replace (12 * n + 4 * r) with ((3 * n + r) * 4) by lia; by rewrite Z.div_mul).
    replace (n - (n - 1)) with 1 by lia. change (seqZ (n - 1) 1) with [0 + (n - 1)].
    rewrite Z.add_0_l. cbn [List.filter].
    assert (Hh : hit P N m (n - 1) = hit P N m0 (n - 1))
      by (unfold hit; rewrite Hm by lia; done).
    rewrite Hh.
    destruct (hit P N m0 (n - 1)); (eexists; split; [reflexivity|]);
      cbn [after_turn numResults length put_words].
    + rewrite Hnr, i32_small by lia. lia.
    + lia.
  - (* a slot before the last *)
    rewrite (bind_run _ _ _ _ _ (turn_run bytes l m ltac:(lia)
               ltac:(rewrite Hc, Z.mul_comm; apply Z_mod_mult) ltac:(lia)
               ltac:(rewrite Hf; replace (12 * n + 4 * r) with ((3 * n + r) * 4) by lia;
                     apply Z_mod_mult))).
    cbn [snd fst]. rewrite Hc, Hs, Hf, Hid, HP, HN.
    rewrite (i32_small (4 * j + 4)) by lia.
    destruct (Z.eqb_spec (4 * j + 4) (4 * n)) as [E|_]; [lia|].
    replace (4 * j / 4) with j by (rewrite Z.mul_comm, Z.div_mul; lia).
    replace ((12 * n + 4 * r) / 4) with (3 * n + r)
      by (replace (12 * n + 4 * r) with ((3 * n + r) * 4) by lia; by rewrite Z.div_mul).
    rewrite (seqZ_cons j (n - j)) by lia. cbn [List.filter].
    assert (Hh : hit P N m j = hit P N m0 j)
      by (unfold hit; rewrite Hm by lia; done).
    rewrite Hh.
    replace (Z.pred (n - j)) with (n - Z.succ j) by lia.
    destruct (hit P N m0 j) eqn:Ehit.
    + destruct (IH (Z.succ j) (r + 1) (after_turn l true) (<[3 * n + r := i32 j]> m) fuel)
        as (l' & Hrun & Hres); try lia.
      { unfold at_slot. cbn [after_turn segSize posMask negMask id currOffset
                             filtOffset numResults].
        rewrite Hid, Hc, Hf, Hnr, !i32_small by lia.
        repeat split; try done; try lia.
        intros a Ha. rewrite mem_word_insert.
        rewrite bool_decide_eq_false_2 by lia. by apply Hm. }
      exists l'. cbn [put_words length].
      replace (3 * n + r + 1) with (3 * n + (r + 1)) by lia.
      rewrite Hrun. split; [done|]. lia.
    + destruct (IH (Z.succ j) r (after_turn l false) m fuel)
        as (l' & Hrun & Hres); try lia.
      { unfold at_slot. cbn [after_turn segSize posMask negMask id currOffset
                             filtOffset numResults].
        rewrite Hid, Hc, !i32_small by lia.
        repeat split; try done; lia. }
      exists l'. by rewrite Hrun.
Qed.

End Scan.
End KernelFacts.

(** *** The two word tests agree on signed 32-bit mask words *)

Lemma land_signed_bits u q n :
  0 ≤ n →
  Z.testbit (Z.land (ToInt32 u) (ToInt32 q)) n
  = Z.testbit (Z.land u (q mod 2 ^ 32)) (Z.min n 31).
Proof.
  intros Hn. rewrite !Z.land_spec, !ToInt32_testbit by done.
  by rewrite Z.mod_pow2_bits_low by lia.
Qed.

(** The negative test: JavaScript's on signed words, the kernel's on
    unsigned ones. *)
Lemma negative_test_agrees u q :
  Z.land (ToInt32 u) (ToInt32 q) = 0 ↔ Z.land u (q mod 2 ^ 32) = 0.
Proof.
  split; intros H; apply Z.bits_inj'; intros n Hn; rewrite Z.bits_0.
  - destruct (Z.lt_ge_cases n 32).
    + rewrite <- (Z.min_l n 31) by lia. rewrite <- land_signed_bits by done.
      by rewrite H, Z.bits_0.
    + by rewrite Z.land_spec, Z.mod_pow2_bits_high, andb_false_r by lia.
  - by rewrite land_signed_bits, H, Z.bits_0.
Qed.

(** The positive test, for a mask word in the signed 32-bit range. *)
Lemma positive_test_agrees u p :
  - 2 ^ 31 ≤ p < 2 ^ 31 →
  Z.land (ToInt32 u) (ToInt32 p) = p ↔ Z.land u (p mod 2 ^ 32) = p mod 2 ^ 32.
Proof.
  intros Hp. split; intros H; apply Z.bits_inj'; intros n Hn.
  - destruct (Z.lt_ge_cases n 32).
    + rewrite <- (Z.min_l n 31) at 1 by lia. rewrite <- land_signed_bits by done.
      rewrite H. by rewrite Z.mod_pow2_bits_low.
    + by rewrite Z.land_spec, Z.mod_pow2_bits_high, andb_false_r by lia.
  - rewrite land_signed_bits, H by done.
    rewrite Z.mod_pow2_bits_low by lia. symmetry. by apply int32_bits.
Qed.

Lemma hit_matchCurrent w pm nm id :
  stride w = 1 → 1 ≤ id < maxNum w →
  one_word pm → int32_words pm → one_word nm →
  KernelSpec.hit (Kernel.i32 (first_word pm)) (Kernel.i32 (first_word nm)) (memory w) id
  = matchCurrent w (Some id) pm nm.
Proof.
  intros Hs Hid Hp1 Hp2 Hn1.
  unfold matchCurrent, match_, KernelSpec.hit, slot_base. rewrite Hs.
  assert (Hget : ta_get (current w) (memory w) (slot_word (Some (id * 1)) 0)
                 = Some (mem_word (memory w) id)).
  { unfold slot_word, ta_get. cbn [len base current]. rewrite Hs.
    rewrite bool_decide_eq_true_2 by lia. do 2 f_equal. lia. }
  f_equal.
  - destruct pm as [[|x [|y pm]]|];
      [change (Kernel.i32 (first_word (Some []))) with 0; by rewrite Z.land_0_r
      | |
      |change (Kernel.i32 (first_word None)) with 0; by rewrite Z.land_0_r].
    + destruct (Hp2 [x] x eq_refl ltac:(apply list_elem_of_here)) as (p & -> & Hr).
      change (first_word (Some [Some p])) with p.
      cbn [match_positive]. rewrite Hget. unfold strict_ne, js_and, Kernel.i32.
      cbn [js_int32].
      destruct (Z.eqb_spec (Z.land (mem_word (memory w) id) (p mod 2 ^ 32)) (p mod 2 ^ 32))
        as [E|E].
      * apply positive_test_agrees in E; [|done].
        rewrite bool_decide_eq_true_2; [done|]. by rewrite E.
      * rewrite bool_decide_eq_false_2; [done|]. intros [= E'].
        apply E. by apply positive_test_agrees.
    + specialize (Hp1 _ eq_refl). simpl in Hp1. lia.
  - destruct nm as [[|x [|y nm]]|];
      [change (Kernel.i32 (first_word (Some []))) with 0; by rewrite Z.land_0_r
      | |
      |change (Kernel.i32 (first_word None)) with 0; by rewrite Z.land_0_r].
    + cbn [match_negative]. rewrite Hget.
      unfold strict_ne, js_and, Kernel.i32.
      destruct x as [q|].
      * change (first_word (Some [Some q])) with q. cbn [js_int32].
        destruct (Z.eqb_spec (Z.land (mem_word (memory w) id) (q mod 2 ^ 32)) 0) as [E|E].
        -- apply negative_test_agrees in E.
           rewrite bool_decide_eq_true_2; [done|]. by rewrite E.
        -- rewrite bool_decide_eq_false_2; [done|]. intros [= E'].
           apply E. by apply negative_test_agrees.
      * change (first_word (Some [undefined])) with 0. cbn [js_int32].
        by rewrite !Z.land_0_r.
    + specialize (Hn1 _ eq_refl). simpl in Hn1. lia.
Qed.

(** *** The word test of [match] against the bit test *)

Lemma word32_small u : 0 ≤ u < 2 ^ 32 → word32 u = u.
Proof. apply Z.mod_small. Qed.

(** "All required bits set", bit by bit. *)
Lemma required_bits_set_testbit word mask :
  required_bits_set word mask = true
  ↔ ∀ n, 0 ≤ n < 32 → Z.testbit mask n = true → Z.testbit word n = true.
Proof.
  unfold required_bits_set, word32. rewrite Z.eqb_eq. split.
  - intros H n Hn Hm.
    assert (Hb : Z.testbit (Z.land (word mod 2 ^ 32) (mask mod 2 ^ 32)) n
                 = Z.testbit (mask mod 2 ^ 32) n) by (by rewrite H).
    rewrite Z.land_spec, !Z.mod_pow2_bits_low in Hb by lia.
    rewrite Hm in Hb. by apply andb_true_iff in Hb as [Hb _].
  - intros H. apply Z.bits_inj'. intros n Hn. rewrite Z.land_spec.
    destruct (Z_lt_le_dec n 32) as [Hlt|Hge].
    + rewrite !Z.mod_pow2_bits_low by lia.
      destruct (Z.testbit mask n) eqn:Em; [|by rewrite andb_false_r].
      by rewrite (H n) by (done || lia).
    + by rewrite !Z.mod_pow2_bits_high by lia.
Qed.

(** [match] on a slot of the buffer, for a positive mask that fits a slot
    and whose words are numbers in the signed 32-bit range. *)
Lemma match_bit_test w (entities : View) (id : Z) pm nm :
  len entities = maxNum w * stride w → 0 ≤ id < maxNum w →
  within w pm → int32_words pm →
  match_ w (Some id) entities pm nm = true
  ↔ covers w entities id pm ∧ avoids w entities id nm.
Proof.
  intros Hlen Hid Hfit Hint.
  assert (Hidx : ∀ i : nat,
            slot_word (slot_base w (Some id)) (0 + Z.of_nat i)
            = Some (id * stride w + Z.of_nat i)) by done.
  assert (Hrange : ∀ i word, buffer_word w entities id i = Some word → 0 ≤ word < 2 ^ 32).
  { intros i word. unfold buffer_word, ta_get. case_bool_decide; [|done].
    intros [= <-]. apply mem_word_range. }
  unfold match_, covers, avoids. rewrite andb_true_iff. f_equiv.
  - destruct pm as [mask|]; [|split; [by intros _ m i p word Hm|done]].
    rewrite match_positive_true. split.
    + intros H m i p word [= <-] Hi Hword.
      specialize (H i (Some p) Hi). rewrite Hidx in H.
      unfold buffer_word in Hword. rewrite Hword in H. injection H as H.
      unfold js_and in H. cbn [js_int32] in H.
      destruct (Hint mask (Some p) eq_refl) as (p' & [= <-] & Hp);
        [by eapply list_elem_of_lookup_2|].
      apply positive_test_agrees in H; [|done].
      unfold required_bits_set. apply Z.eqb_eq.
      rewrite (word32_small word) by (by eapply (Hrange i)). done.
    + intros H i mb Hi.
      destruct (Hint mask mb eq_refl) as (p & -> & Hp); [by eapply list_elem_of_lookup_2|].
      pose proof (lookup_lt_Some _ _ _ Hi) as Hlt.
      specialize (Hfit mask eq_refl).
      assert (Hin : 0 ≤ id * stride w + Z.of_nat i < len entities) by (rewrite Hlen; nia).
      rewrite Hidx. unfold ta_get. rewrite bool_decide_eq_true_2 by done.
      set (word := mem_word (memory w) (base entities + (id * stride w + Z.of_nat i))).
      assert (Hword : buffer_word w entities id i = Some word).
      { unfold buffer_word, ta_get. by rewrite bool_decide_eq_true_2. }
      specialize (H mask i p word eq_refl Hi Hword).
      unfold required_bits_set in H. apply Z.eqb_eq in H.
      rewrite (word32_small word) in H by apply mem_word_range.
      f_equal. unfold js_and. cbn [js_int32]. by apply positive_test_agrees.
  - destruct nm as [mask|]; [|split; [by intros _ m i p word Hm|done]].
    rewrite match_negative_true. split.
    + intros H m i p word [= <-] Hi Hword.
      specialize (H i (Some p) Hi). rewrite Hidx in H.
      unfold buffer_word in Hword. rewrite Hword in H.
      unfold js_and in H. cbn [js_int32] in H.
      apply negative_test_agrees in H.
      unfold forbidden_bits_clear. apply Z.eqb_eq.
      rewrite (word32_small word) by (by eapply (Hrange i)). done.
    + intros H i [p|] Hi.
      * rewrite Hidx.
        destruct (ta_get entities (memory w) (Some (id * stride w + Z.of_nat i)))
          as [word|] eqn:Hword; [|done].
        specialize (H mask i p word eq_refl Hi Hword).
        unfold forbidden_bits_clear in H. apply Z.eqb_eq in H.
        rewrite (word32_small word) in H by (by eapply (Hrange i)).
        unfold js_and. cbn [js_int32]. by apply negative_test_agrees.
      * unfold js_and. cbn [js_int32]. apply Z.land_0_r.
Qed.

(** A positive mask word outside the signed range is never met: [&] gives a
    signed result. *)
Lemma match_unsigned_word w id (entities : View) mask (i : nat) p nm :
  mask !! i = Some (Some p) → ¬ (- 2 ^ 31 ≤ p < 2 ^ 31) →
  match_ w id entities (Some mask) nm = false.
Proof.
  intros Hi Hp. unfold match_. apply andb_false_iff. left.
  apply not_true_is_false. rewrite match_positive_true. intros H.
  specialize (H i (Some p) Hi). injection H as H.
  pose proof (ToInt32_range
    (js_and (ta_get entities (memory w) (slot_word (slot_base w id) (0 + Z.of_nat i)))
            (Some p))) as Hr.
  rewrite js_and_int32, H in Hr. lia.
Qed.

(** C3.  Where the words of the positive mask are numbers in the signed 32-bit
    range, as [extendMaskAndSetFlag] leaves them, [matchCurrent],
    [matchPrevious] and [matchMutated] are the word-by-word bit test, on every
    slot of the buffer: all required bits set, no forbidden bit set, nothing
    asked past a mask's end.  A positive mask word from [2^31] on is never
    met, whatever the buffer holds, because [&] gives a signed result and
    [!==] compares it with the unsigned number.  [createFilledMask()] makes
    such words: on a store of 32 component types whose entity has all 32,
    every bit the filled mask requires is set, and [matchCurrent] answers
    [false], where the scanning kernel of [iterateAll], given the same mask,
    selects the slot. *)
Theorem match_misses_unsigned_mask_words :
  length (types full32) = 32%nat
  ∧ Forall (fun type => hasFlag full32 (Some 1) type = true) (types full32)
  ∧ buffer_word full32 (current full32) 1 0 = Some 4294967295
  ∧ createFilledMask full32 = [Some 4294967295]
  ∧ covers full32 (current full32) 1 (Some [Some 4294967295])
  ∧ avoids full32 (current full32) 1 None
  ∧ matchCurrent full32 (Some 1) (Some [Some 4294967295]) None = false
  ∧ fst (iterateAll 1 (Some [Some 4294967295]) None full32) = Ok 1
  ∧ (∀ w id (entities : View) mask (i : nat) p nm,
       mask !! i = Some (Some p) → ¬ (- 2 ^ 31 ≤ p < 2 ^ 31) →
       match_ w id entities (Some mask) nm = false)
  ∧ (∀ w id pm nm,
       0 ≤ id < maxNum w → within w pm → int32_words pm →
       (matchCurrent w (Some id) pm nm = true
        ↔ covers w (current w) id pm ∧ avoids w (current w) id nm)
       ∧ (matchPrevious w (Some id) pm nm = true
          ↔ covers w (previous w) id pm ∧ avoids w (previous w) id nm)
       ∧ (matchMutated w (Some id) pm nm = true
          ↔ covers w (mutations w) id pm ∧ avoids w (mutations w) id nm)).
Proof.
  assert (Hword : buffer_word full32 (current full32) 1 0 = Some 4294967295)
    by (vm_compute; reflexivity).
  assert (Hmask : createFilledMask full32 = [Some 4294967295]) by (vm_compute; reflexivity).
  split; [vm_compute; reflexivity|].
  split; [apply (bool_decide_unpack _); vm_compute; exact I|].
  split; [exact Hword|]. split; [exact Hmask|].
  split; [|split; [|split; [|split; [|split]]]].
  - intros mask i p word Hm Hi Hw. injection Hm as <-.
    destruct i as [|i]; [|discriminate Hi]. injection Hi as <-.
    rewrite Hword in Hw. injection Hw as <-. vm_compute. reflexivity.
  - intros mask i p word Hm. discriminate Hm.
  - vm_compute. reflexivity.
  - vm_compute. reflexivity.
  - apply match_unsigned_word.
  - intros w id pm nm Hid Hfit Hint.
    unfold matchCurrent, matchPrevious, matchMutated.
    split; [|split]; by apply match_bit_test.
Qed.

(** The same test on the mask [extendMaskAndSetFlag] builds for type 31,
    whose word is [1 << 31], a negative number: the bit is required, and
    found. *)
Example match_meets_signed_mask_word :
  extendMaskAndSetFlag [] (Controller 31 "T" []) = [Some (-2147483648)]
  ∧ matchCurrent full32 (Some 1) (Some [Some (-2147483648)]) None = true
  ∧ covers full32 (current full32) 1 (Some [Some (-2147483648)])
  ∧ matchCurrent full32 (Some 1) (Some [Some 2147483648]) None = false
  ∧ covers full32 (current full32) 1 (Some [Some 2147483648]).
Proof.
  assert (Hword : buffer_word full32 (current full32) 1 0 = Some 4294967295)
    by (vm_compute; reflexivity).
  split; [vm_compute; reflexivity|]. split; [vm_compute; reflexivity|].
  split; [|split; [vm_compute; reflexivity|]].
  - intros mask i p word Hm Hi Hw. injection Hm as <-.
    destruct i as [|i]; [|discriminate Hi]. injection Hi as <-.
    rewrite Hword in Hw. injection Hw as <-. vm_compute. reflexivity.
  - intros mask i p word Hm Hi Hw. injection Hm as <-.
    destruct i as [|i]; [|discriminate Hi]. injection Hi as <-.
    rewrite Hword in Hw. injection Hw as <-. vm_compute. reflexivity.
Qed.

(** *** What the kernel leaves in the scratch buffer *)

Lemma put_words_other xs : ∀ a m b,
  b < a ∨ a + Z.of_nat (length xs) ≤ b →
  mem_word (KernelSpec.put_words a xs m) b = mem_word m b.
Proof.
  induction xs as [|x xs IH]; intros a m b Hb; cbn [KernelSpec.put_words]; [done|].
  rewrite IH by (cbn [length] in Hb; lia).
  rewrite mem_word_insert. rewrite bool_decide_eq_false_2; [done|].
  cbn [length] in Hb. lia.
Qed.

Lemma put_words_lookup xs : ∀ a m (i : nat) x,
  xs !! i = Some x →
  mem_word (KernelSpec.put_words a xs m) (a + Z.of_nat i) = ToUint32 (Kernel.i32 x).
Proof.
  induction xs as [|y xs IH]; intros a m i x Hi; [done|].
  cbn [KernelSpec.put_words]. destruct i as [|i]; simpl in Hi.
  - injection Hi as ->. rewrite put_words_other by lia.
    rewrite mem_word_insert, bool_decide_eq_true_2; [done|lia].
  - replace (a + Z.of_nat (S i)) with (a + 1 + Z.of_nat i) by lia. by apply IH.
Qed.

Lemma ceil_div_mul a b : 0 < b → a ≤ ceil_div a b * b.
Proof.
  intros Hb. unfold ceil_div. pose proof (Z.mul_div_le (- a) b Hb). lia.
Qed.

Lemma hits_length w pm nm : 0 ≤ maxNum w - 1 → Z.of_nat (length (hits w pm nm)) ≤ maxNum w - 1.
Proof.
  intros H. unfold hits.
  pose proof (filter_length_le
    (KernelSpec.hit (Kernel.i32 (first_word pm)) (Kernel.i32 (first_word nm)) (memory w))
    (seqZ 1 (maxNum w - 1))) as Hl.
  rewrite length_seqZ in Hl. lia.
Qed.

Lemma hits_elem w pm nm id :
  id ∈ hits w pm nm ↔
  1 ≤ id < maxNum w
  ∧ KernelSpec.hit (Kernel.i32 (first_word pm)) (Kernel.i32 (first_word nm)) (memory w) id
    = true.
Proof.
  unfold hits. rewrite list_elem_of_In, filter_In, <- list_elem_of_In, elem_of_seqZ.
  split; intros [H1 H2]; (split; [lia|done]).
Qed.

(** With a stride of one word, [iterateAll] ends, returns the number of
    selected slots and leaves them, in order, at the start of the scratch
    buffer; nothing below the scratch buffer changes. *)
Lemma iterateAll_run w pm nm fuel :
  stride w = 1 → 2 ≤ maxNum w → 16 * maxNum w ≤ 2 ^ 32 →
  (Z.to_nat (maxNum w - 1) ≤ fuel)%nat →
  iterateAll fuel pm nm w =
    (Ok (Z.of_nat (length (hits w pm nm))),
     set_memory (KernelSpec.put_words (3 * maxNum w) (hits w pm nm) (memory w)) w).
Proof.
  intros Hs Hn Hsize Hfuel. unfold iterateAll.
  unfold bind at 1. unfold get at 1.
  unfold bind at 1. unfold on_memory, Kernel.iterateAll.
  assert (Hseg : flagSegmentSize w = 4 * maxNum w) by (unfold flagSegmentSize; lia).
  assert (Hbytes : 16 * maxNum w - 4 ≤ blocks w * 2 ^ 16).
  { unfold blocks, filterSegmentSize, maxEntities. rewrite Hseg.
    etrans; [|apply ceil_div_mul; lia]. lia. }
  rewrite Hseg.
  set (l0 := {| Kernel.segSize := _ |}).
  destruct (KernelFacts.loop_scan (blocks w * 2 ^ 16) (maxNum w)
              (Kernel.i32 (first_word pm)) (Kernel.i32 (first_word nm)) (memory w)
              Hn Hsize Hbytes (Z.to_nat (maxNum w - 2)) 1 0 l0 (memory w) fuel)
    as (l' & Hrun & Hres); try lia.
  { unfold KernelSpec.at_slot, l0.
    cbn [Kernel.segSize Kernel.posMask Kernel.negMask Kernel.id Kernel.currOffset
         Kernel.filtOffset Kernel.numResults].
    rewrite (KernelFacts.i32_small (4 * maxNum w)) by lia.
    rewrite (KernelFacts.i32_small (4 * maxNum w * 3)) by lia.
    repeat split; try done; lia. }
  unfold bind at 1. rewrite Hrun. cbn [ret fst snd].
  rewrite Hres, Z.add_0_l, Z.add_0_r. fold (hits w pm nm).
  rewrite ToInt32_small; [done|].
  pose proof (hits_length w pm nm). lia.
Qed.

(** C1, as the store has it: for a store of at most 32 component types (a
    stride of one word) and masks of at most one word, the positive mask's
    word in the signed 32-bit range, [iterateAll] ends and its kernel has
    written into the scratch buffer exactly the slots of [1, maxEntities] for
    which [matchCurrent] returns [true]. *)
Theorem kernel_agrees_on_one_word
    (w : World) (pm nm : option (list jsnum)) (fuel : nat)
    (Hstride : stride w = 1)
    (Hmax : 1 ≤ maxEntities w)
    (Hsize : 16 * maxNum w ≤ 2 ^ 32)
    (Hfuel : (Z.to_nat (maxEntities w) ≤ fuel)%nat)
    (Hpm : one_word pm ∧ int32_words pm)
    (Hnm : one_word nm) :
  ∃ numResults w',
    iterateAll fuel pm nm w = (Ok numResults, w')
    ∧ ∀ id, 1 ≤ id ≤ maxEntities w →
        ((∃ j, 0 ≤ j < numResults ∧ ta_get (filtered w') (memory w') (Some j) = Some id)
         ↔ matchCurrent w (Some id) pm nm = true).
Proof.
  unfold maxEntities in *. destruct Hpm as [Hp1 Hp2].
  eexists _, _. split; [apply iterateAll_run; (done || lia)|].
  intros id Hid. rewrite <- (hit_matchCurrent w pm nm id) by (done || lia).
  pose proof (hits_length w pm nm ltac:(lia)) as Hlen.
  assert (Hread : ∀ (j : nat) x, hits w pm nm !! j = Some x →
            ta_get (filtered (set_memory (KernelSpec.put_words (3 * maxNum w)
                                            (hits w pm nm) (memory w)) w))
                   (KernelSpec.put_words (3 * maxNum w) (hits w pm nm) (memory w))
                   (Some (Z.of_nat j)) = Some x).
  { intros j x Hj. pose proof (lookup_lt_Some _ _ _ Hj) as Hlt.
    unfold ta_get. rewrite filtered_base.
    cbn [len filtered]. unfold maxEntities. cbn [maxNum set_memory].
    change (stride (set_memory _ w)) with (stride w). rewrite Hstride.
    rewrite bool_decide_eq_true_2 by lia. f_equal.
    replace (3 * (maxNum w * 1)) with (3 * maxNum w) by lia.
    rewrite (put_words_lookup _ _ _ _ _ Hj).
    assert (x ∈ hits w pm nm) as Hx by (apply list_elem_of_lookup; eauto).
    apply hits_elem in Hx as [Hx _].
    unfold Kernel.i32, ToUint32. rewrite Z.mod_mod by lia. apply Z.mod_small. lia. }
  cbn [memory set_memory]. split.
  - intros (j & Hj & Hget).
    destruct (hits w pm nm !! Z.to_nat j) as [x|] eqn:Ex.
    + pose proof (Hread _ _ Ex) as Hr. rewrite Z2Nat.id in Hr by lia.
      rewrite Hr in Hget. injection Hget as ->.
      assert (id ∈ hits w pm nm) as Hx by (apply list_elem_of_lookup; eauto).
      by apply hits_elem in Hx as [_ Hx].
    + apply lookup_ge_None in Ex. lia.
  - intros Hhit.
    assert (id ∈ hits w pm nm) as Hx by (apply hits_elem; split; [lia|done]).
    apply list_elem_of_lookup in Hx as (j & Hj).
    pose proof (lookup_lt_Some _ _ _ Hj) as Hlt.
    exists (Z.of_nat j). split; [lia|]. by apply Hread.
Qed.

Lemma kernel_agrees_on_one_word_witness :
  stride four_created = 1
  ∧ 1 ≤ maxEntities four_created
  ∧ ∃ numResults w',
      iterateAll 4 (Some [Some 1]) None four_created = (Ok numResults, w')
      ∧ ∀ id, 1 ≤ id ≤ maxEntities four_created →
          ((∃ j, 0 ≤ j < numResults
                 ∧ ta_get (filtered w') (memory w') (Some j) = Some id)
           ↔ matchCurrent four_created (Some id) (Some [Some 1]) None = true).
Proof.
  assert (Hs : stride four_created = 1) by (vm_compute; reflexivity).
  assert (Hm : 1 ≤ maxEntities four_created) by (vm_compute; discriminate).
  split; [exact Hs|]. split; [exact Hm|].
  apply (kernel_agrees_on_one_word four_created (Some [Some 1]) None 4 Hs Hm).
  - vm_compute. discriminate.
  - vm_compute. apply le_n.
  - split.
    + intros a [= <-]. simpl. lia.
    + intros a x [= <-] Hx. apply list_elem_of_singleton in Hx as ->.
      exists 1. split; [reflexivity|lia].
  - intros a H. discriminate H.
Defined.

(** C1 as stated fails for a stride of two words: [matchCurrent] accepts
    slot 1 for the mask of component 0, but the kernel, which advances one
    word per id, tests word 1 of slot 0 as "id 1" and word 0 of slot 1 as
    "id 2": it writes 2, which is no slot, and never 1. *)
Lemma kernel_disagrees_on_two_words :
  stride wide = 2
  ∧ maxEntities wide = 1
  ∧ hasFlag wide (Some 1) (Controller 0 "T" []) = true
  ∧ matchCurrent wide (Some 1) (Some [Some 1]) None = true
  ∧ fst (iterateAll 3 (Some [Some 1]) None wide) = Ok 1
  ∧ ta_get (filtered wide_scanned) (memory wide_scanned) (Some 0) = Some 2
  ∧ ¬ ∃ j, 0 ≤ j < 1
           ∧ ta_get (filtered wide_scanned) (memory wide_scanned) (Some j) = Some 1.
Proof.
  split; [vm_compute; reflexivity|]. split; [vm_compute; reflexivity|].
  split; [vm_compute; reflexivity|]. split; [vm_compute; reflexivity|].
  split; [vm_compute; reflexivity|]. split; [vm_compute; reflexivity|].
  intros (j & Hj & H). assert (j = 0) as -> by lia.
  vm_compute in H. discriminate H.
Qed.

(** * Further properties of the pool and the store *)

(** ** The pool: [take] and [reset] *)

Module PoolMore.

Section WithClass.
Context {T : Type} (Class : T).

Lemma grow_prefix s :
  Pool.list_ (fst s) `prefix_of` Pool.list_ (fst (Pool.grow Class s))
  ∧ snd s `prefix_of` snd (Pool.grow Class s).
Proof.
  destruct s as [p h]. unfold Pool.grow.
  destruct (Pool.next p =? length (Pool.list_ p))%nat; simpl.
  - split; by apply prefix_app_r.
  - done.
Qed.

Lemma grow_full s :
  (Pool.next (fst s) < length (Pool.list_ (fst s)))%nat → Pool.grow Class s = s.
Proof.
  destruct s as [p h]. unfold Pool.grow. simpl. intros H.
  destruct (Nat.eqb_spec (Pool.next p) (length (Pool.list_ p))); [lia|done].
Qed.

Lemma take_state s :
  snd (Pool.take Class s)
  = ({| Pool.list_ := Pool.list_ (fst (Pool.grow Class s)); Pool.next := S (Pool.next (fst s)) |},
     snd (Pool.grow Class s)).
Proof.
  unfold Pool.take. rewrite <- (PoolFacts.grow_next Class s).
  by destruct (Pool.grow Class s).
Qed.

Lemma takes_S n s :
  takes Class (S n) s
  = (fst (Pool.take Class s) :: fst (takes Class n (snd (Pool.take Class s))),
     snd (takes Class n (snd (Pool.take Class s)))).
Proof.
  cbn [takes]. destruct (Pool.take Class s) as [r s1]. cbn [fst snd].
  by destruct (takes Class n s1).
Qed.

(** What [n] takes return: the objects from the cursor on, in the list as it
    is afterwards; the list and the heap they started from are kept as
    prefixes. *)
Lemma takes_spec n : ∀ s,
  Pool.wf s →
  let s' := snd (takes Class n s) in
  Pool.wf s'
  ∧ Pool.next (fst s') = (Pool.next (fst s) + n)%nat
  ∧ Pool.list_ (fst s) `prefix_of` Pool.list_ (fst s')
  ∧ snd s `prefix_of` snd s'
  ∧ fst (takes Class n s) = Some <$> take n (drop (Pool.next (fst s)) (Pool.list_ (fst s'))).
Proof.
  induction n as [|n IH]; intros s Hwf.
  - simpl. repeat split; try done; try apply Hwf; lia.
  - rewrite takes_S. cbn [fst snd].
    pose proof (PoolFacts.take_wf Class s Hwf) as Hwf1.
    destruct (IH _ Hwf1) as (Hwf' & Hn & Hpl & Hph & Hres).
    pose proof (grow_prefix s) as [Hgl Hgh].
    pose proof (PoolFacts.grow_cursor_lt Class s Hwf) as Hlt.
    rewrite (PoolFacts.grow_next Class s) in Hlt.
    pose proof (take_state s) as Hs1.
    set (s1 := (Pool.take Class s).2) in *.
    assert (Hs1n : Pool.next s1.1 = S (Pool.next s.1)) by (by rewrite Hs1).
    assert (Hs1l : Pool.list_ s1.1 = Pool.list_ (Pool.grow Class s).1) by (by rewrite Hs1).
    assert (Hs1h : s1.2 = (Pool.grow Class s).2) by (by rewrite Hs1).
    rewrite Hs1n in Hn, Hres. rewrite Hs1l in Hpl. rewrite Hs1h in Hph.
    split; [done|]. split; [lia|].
    split; [by etrans|]. split; [by etrans|].
    rewrite Hres, PoolFacts.take_result, PoolFacts.borrow_result.
    rewrite (PoolFacts.grow_next Class s).
    destruct (Pool.list_ (Pool.grow Class s).1 !! Pool.next s.1) as [r|] eqn:Er;
      [|apply lookup_ge_None in Er; lia].
    pose proof (prefix_lookup_Some _ _ _ _ Er Hpl) as Er'.
    rewrite (drop_S _ _ _ Er'). done.
Qed.

(** Takes that stay within the list allocate nothing. *)
Lemma takes_within n : ∀ s,
  (Pool.next (fst s) + n ≤ length (Pool.list_ (fst s)))%nat →
  snd (takes Class n s)
  = ({| Pool.list_ := Pool.list_ (fst s); Pool.next := (Pool.next (fst s) + n)%nat |}, snd s).
Proof.
  induction n as [|n IH]; intros s Hn.
  - simpl. destruct s as [[l nx] h]. simpl. by rewrite Nat.add_0_r.
  - rewrite takes_S. cbn [fst snd]. rewrite IH.
    + rewrite take_state, grow_full by lia. cbn [fst snd Pool.list_ Pool.next].
      do 2 f_equal. lia.
    + rewrite take_state, grow_full by lia. cbn [fst snd Pool.list_ Pool.next]. lia.
Qed.

(** Takes compose. *)
Lemma takes_app n m : ∀ s,
  takes Class (n + m) s
  = (fst (takes Class n s) ++ fst (takes Class m (snd (takes Class n s))),
     snd (takes Class m (snd (takes Class n s)))).
Proof.
  induction n as [|n IH]; intros s.
  - simpl. by destruct (takes Class m s).
  - change (S n + m)%nat with (S (n + m)). rewrite !takes_S, IH. done.
Qed.

End WithClass.
End PoolMore.

(** X1: in a well-formed pool, [take()] hands out an object every time, no
    object twice in a row of calls, advancing the cursor by one at each call;
    the objects and the list that were there stay, new objects being
    appended. *)
Theorem take_hands_out_distinct_objects {T} (Class : T) (n : nat) (s : Pool.state)
    (Hwf : Pool.wf s) :
  let rs := fst (takes Class n s) in
  let s' := snd (takes Class n s) in
  length rs = n
  ∧ Forall is_Some rs
  ∧ NoDup rs
  ∧ Pool.next (fst s') = (Pool.next (fst s) + n)%nat
  ∧ Pool.list_ (fst s) `prefix_of` Pool.list_ (fst s')
  ∧ snd s `prefix_of` snd s'
  ∧ Pool.wf s'.
Proof.
  intros rs s'.
  destruct (PoolMore.takes_spec Class n s Hwf) as (Hwf' & Hn & Hpl & Hph & Hres).
  fold s' in Hwf', Hn, Hpl, Hph, Hres. fold rs in Hres.
  assert (Hlen : length (take n (drop (Pool.next s.1) (Pool.list_ s'.1))) = n).
  { rewrite length_take, length_drop. destruct Hwf' as (Hle & _). lia. }
  split; [by rewrite Hres, length_fmap|].
  split; [rewrite Hres; apply Forall_fmap, Forall_true; simpl; eauto|].
  split; [|done].
  rewrite Hres. apply (NoDup_fmap_2 Some).
  destruct Hwf' as (_ & Hd & _).
  refine (sublist_NoDup _ _ Hd _).
  etrans; [apply sublist_take|apply sublist_drop].
Qed.

Lemma take_hands_out_distinct_objects_witness :
  Pool.wf (Pool.new newEntity 2 [])
  ∧ fst (takes newEntity 3 (Pool.new newEntity 2 [])) = [Some 0; Some 1; Some 2]%nat
  ∧ NoDup (fst (takes newEntity 3 (Pool.new newEntity 2 []))).
Proof.
  assert (H : Pool.wf (Pool.new newEntity 2 []))
    by (apply (bool_decide_unpack _); vm_compute; exact I).
  split; [exact H|]. split; [reflexivity|].
  exact (proj1 (proj2 (proj2 (take_hands_out_distinct_objects newEntity 3 _ H)))).
Defined.

(** X2: after [reset()] the pool hands out the objects it handed out before,
    in the same order, and allocates none: [n] takes from the start, a
    reset, and [n] takes again return the same references and leave the same
    pool and heap. *)
Theorem reset_replays_takes {T} (Class : T) (n : nat) (s : Pool.state)
    (Hwf : Pool.wf s) (Hstart : Pool.next (fst s) = 0%nat) :
  let s1 := snd (takes Class n s) in
  takes Class n (Pool.reset s1) = (fst (takes Class n s), s1).
Proof.
  intros s1.
  destruct (PoolMore.takes_spec Class n s Hwf) as (Hwf' & Hn & Hpl & Hph & Hres).
  fold s1 in Hwf', Hn, Hpl, Hph, Hres. rewrite Hstart in Hn, Hres. simpl in Hn.
  assert (Hr : Pool.reset s1 = ({| Pool.list_ := Pool.list_ s1.1; Pool.next := 0 |}, s1.2))
    by (by destruct s1 as [[l nx] h]).
  assert (Hwfr : Pool.wf (Pool.reset s1)).
  { rewrite Hr. destruct Hwf' as (_ & Hd & Hf). split; simpl; [lia|done]. }
  assert (Hlenr : (Pool.next (Pool.reset s1).1 + n ≤ length (Pool.list_ (Pool.reset s1).1))%nat).
  { rewrite Hr. simpl. destruct Hwf' as (Hle & _). lia. }
  pose proof (PoolMore.takes_within Class n _ Hlenr) as Hst.
  destruct (PoolMore.takes_spec Class n _ Hwfr) as (_ & _ & _ & _ & Hres2).
  rewrite Hst in Hres2. rewrite Hr in Hres2, Hst. cbn [fst snd Pool.list_ Pool.next] in *.
  rewrite (surjective_pairing (takes Class n _)). rewrite Hr, Hst, Hres2, Hres.
  f_equal. destruct s1 as [[l nx] h]. simpl in *. by subst nx.
Qed.

Lemma reset_replays_takes_witness :
  Pool.wf (Pool.new newEntity 2 [])
  ∧ takes newEntity 3 (Pool.reset (snd (takes newEntity 3 (Pool.new newEntity 2 []))))
    = ([Some 0; Some 1; Some 2]%nat, snd (takes newEntity 3 (Pool.new newEntity 2 []))).
Proof.
  assert (H : Pool.wf (Pool.new newEntity 2 []))
    by (apply (bool_decide_unpack _); vm_compute; exact I).
  split; [exact H|].
  exact (reset_replays_takes newEntity 3 _ H eq_refl).
Defined.

Lemma populate_spec {T} (Class : T) (n : nat) (s : Pool.state) :
  Pool.populate Class n s
  = ({| Pool.list_ := Pool.list_ (fst s) ++ seq (length (snd s)) n;
        Pool.next := Pool.next (fst s) |},
     snd s ++ replicate n Class).
Proof.
  induction n as [|n IH]; cbn [Pool.populate].
  - destruct s as [[l nx] h]. simpl. by rewrite !app_nil_r.
  - rewrite IH. cbn [fst snd Pool.list_ Pool.next].
    rewrite length_app, length_replicate, seq_S, replicate_S_end, !app_assoc. done.
Qed.

(** X3: [new Pool(Class, initialSize)] creates [initialSize] objects of the
    class, one after the other, and starts at the first; the first
    [initialSize] takes hand them out in that order without creating any, and
    the take after them creates exactly one more. *)
Theorem new_pool_serves_initial_size {T} (Class : T) (initialSize n : nat) (h : list T)
    (Hn : (n ≤ initialSize)%nat) :
  let s := Pool.new Class initialSize h in
  snd s = h ++ replicate initialSize Class
  ∧ Pool.list_ (fst s) = seq (length h) initialSize
  ∧ Pool.next (fst s) = 0%nat
  ∧ fst (takes Class n s) = Some <$> seq (length h) n
  ∧ snd (snd (takes Class n s)) = snd s
  ∧ fst (takes Class (S initialSize) s) = Some <$> seq (length h) (S initialSize)
  ∧ snd (snd (takes Class (S initialSize) s)) = snd s ++ [Class].
Proof.
  intros s. unfold Pool.new in s.
  assert (Hs : s = ({| Pool.list_ := seq (length h) initialSize; Pool.next := 0 |},
                    h ++ replicate initialSize Class)).
  { unfold s. by rewrite populate_spec. }
  clearbody s. subst s. cbn [fst snd Pool.list_ Pool.next].
  assert (Hwf : Pool.wf (T := T) ({| Pool.list_ := seq (length h) initialSize; Pool.next := 0 |},
                         h ++ replicate initialSize Class)).
  { split; [simpl; lia|]. split; [apply NoDup_seq|].
    apply Forall_forall. intros r Hr. simpl in *.
    apply elem_of_seq in Hr. rewrite length_app, length_replicate. lia. }
  assert (Hin : ∀ k, (k ≤ initialSize)%nat →
            takes Class k
              ({| Pool.list_ := seq (length h) initialSize; Pool.next := 0 |},
               h ++ replicate initialSize Class)
            = (Some <$> seq (length h) k,
               ({| Pool.list_ := seq (length h) initialSize; Pool.next := k |},
                h ++ replicate initialSize Class))).
  { intros k Hk. rewrite (surjective_pairing (takes Class k _)). f_equal.
    - destruct (PoolMore.takes_spec Class k _ Hwf) as (_ & _ & _ & _ & Hres).
      rewrite Hres, PoolMore.takes_within by (simpl; rewrite length_seq; lia).
      cbn [fst snd Pool.list_ Pool.next]. rewrite drop_0, take_seq. do 2 f_equal. lia.
    - rewrite PoolMore.takes_within by (simpl; rewrite length_seq; lia). done. }
  rewrite (Hin n Hn). cbn [fst snd].
  replace (S initialSize) with (initialSize + 1)%nat by lia.
  rewrite PoolMore.takes_app, (Hin initialSize) by lia. cbn [fst snd].
  cbn [takes]. unfold Pool.take, Pool.grow. cbn [Pool.list_ Pool.next].
  rewrite length_seq, Nat.eqb_refl. cbn [Pool.list_ Pool.next fst snd].
  rewrite lookup_app_r, length_seq, Nat.sub_diag by (rewrite length_seq; lia).
  cbn [lookup list_lookup]. rewrite length_app, length_replicate.
  rewrite Nat.add_1_r, seq_S, fmap_app. done.
Qed.

Lemma new_pool_serves_initial_size_witness :
  (2 ≤ 20)%nat
  ∧ fst (takes newEntity 2 (Pool.new newEntity 20 [])) = [Some 0; Some 1]%nat.
Proof.
  assert (H : (2 ≤ 20)%nat) by lia.
  split; [exact H|].
  exact (proj1 (proj2 (proj2 (proj2 (new_pool_serves_initial_size newEntity 20 2 [] H))))).
Defined.

(** ** Masks: [createFilledMask], [extendMaskAndSetFlag], [maskHasFlag] *)

Lemma ToInt32_nullish (x : jsnum) : ToInt32 (nullish x 0) = js_int32 x.
Proof. by destruct x. Qed.

Lemma maskHasFlag_word mask type :
  maskHasFlag mask type
  = negb (Z.land (js_int32 (array_get mask (flagOffset type))) (ToInt32 (flagMask type)) =? 0).
Proof. unfold maskHasFlag, js_and. cbn [js_int32]. by rewrite ToInt32_nullish. Qed.

Lemma maskHasFlag_true mask type :
  maskHasFlag mask type = true
  ↔ Z.land (js_int32 (array_get mask (flagOffset type))) (ToInt32 (flagMask type)) ≠ 0.
Proof.
  rewrite maskHasFlag_word, negb_true_iff. apply Z.eqb_neq.
Qed.

Lemma array_get_createFilledMask w (i : nat) :
  Z.of_nat i < stride w → array_get (createFilledMask w) i = Some 4294967295.
Proof.
  intros Hi. unfold array_get, createFilledMask.
  rewrite lookup_replicate_2 by lia. done.
Qed.

(** X4: the mask of [createFilledMask()] has one word for each word of a
    slot and holds the flag of every registered component type: as the read
    and write mask of a system it lets every access check pass. *)
Theorem createFilledMask_has_every_flag (w : World) (type : ComponentType)
    (Hreg : registered w type) :
  length (createFilledMask w) = Z.to_nat (stride w)
  ∧ maskHasFlag (createFilledMask w) type = true
  ∧ ∀ wr this,
      let rw := {| read := createFilledMask w; write := createFilledMask w |} in
      Entity.__checkMask type wr (set_rwMasks (Some rw) w)
      = (Ok tt, set_rwMasks (Some rw) w)
      ∧ fst (Entity.has this type (set_rwMasks (Some rw) w))
        = Ok (hasFlag w (Entity.id_of w this) type).
Proof.
  destruct Hreg as [Hoff Hmask].
  assert (Hhas : maskHasFlag (createFilledMask w) type = true).
  { apply maskHasFlag_true. rewrite array_get_createFilledMask by done.
    change (js_int32 (Some 4294967295)) with (-1). rewrite Z.land_m1_l. done. }
  split; [apply length_replicate|]. split; [done|].
  intros wr this rw.
  assert (Hck : ∀ b, Entity.__checkMask type b (set_rwMasks (Some rw) w)
                     = (Ok tt, set_rwMasks (Some rw) w)).
  { intros b. apply checkMask_allowed. unfold may. cbn [rwMasks set_rwMasks].
    by destruct b. }
  split; [apply Hck|].
  unfold Entity.has. rewrite (bind_run _ _ _ _ _ (Hck false)). done.
Qed.

Lemma createFilledMask_has_every_flag_witness :
  registered demo compB ∧ maskHasFlag (createFilledMask demo) compB = true.
Proof.
  assert (H : registered demo compB) by (split; [reflexivity|discriminate]).
  split; [exact H|].
  exact (proj1 (proj2 (createFilledMask_has_every_flag demo compB H))).
Defined.

(** X5: a filled mask is no query mask.  Its words are [0xffffffff], and
    [&] gives a signed result, which is never that number: with such a mask
    as the positive mask [match] returns [false] for every slot of every
    buffer, whatever the slot holds. *)
Theorem filled_mask_matches_no_slot (w : World) (entities : View) (id : jsnum)
    (nm : option (list jsnum)) (Hstride : 1 ≤ stride w) :
  match_ w id entities (Some (createFilledMask w)) nm = false
  ∧ matchCurrent w id (Some (createFilledMask w)) nm = false
  ∧ matchPrevious w id (Some (createFilledMask w)) nm = false
  ∧ matchMutated w id (Some (createFilledMask w)) nm = false.
Proof.
  assert (H : ∀ v, match_ w id v (Some (createFilledMask w)) nm = false).
  { intros v. unfold match_, createFilledMask.
    destruct (Z.to_nat (stride w)) as [|n] eqn:E; [lia|].
    cbn [replicate match_positive].
    replace (strict_ne _ _) with true; [done|].
    symmetry. unfold strict_ne. apply negb_true_iff, bool_decide_eq_false.
    intros [= Heq]. unfold js_and in Heq. change (js_int32 (Some 4294967295)) with (-1) in Heq.
    rewrite Z.land_m1_r in Heq.
    pose proof (js_int32_range (ta_get v (memory w) (slot_word (slot_base w id) 0))). lia. }
  unfold matchCurrent, matchPrevious, matchMutated. auto.
Qed.

Lemma filled_mask_matches_no_slot_witness :
  1 ≤ stride both
  ∧ hasFlag both (Some 1) compA = true
  ∧ hasFlag both (Some 1) compB = true
  ∧ matchCurrent both (Some 1) (Some [Some 3]) None = true
  ∧ createFilledMask both = [Some 4294967295]
  ∧ matchCurrent both (Some 1) (Some (createFilledMask both)) None = false.
Proof.
  assert (H : 1 ≤ stride both) by (vm_compute; discriminate).
  split; [exact H|]. do 4 (split; [vm_compute; reflexivity|]).
  exact (proj1 (proj2 (filled_mask_matches_no_slot both (current both) (Some 1) None H))).
Defined.

Lemma array_get_ge (a : list jsnum) (i : nat) : (length a ≤ i)%nat → array_get a i = undefined.
Proof. intros H. unfold array_get. by rewrite lookup_ge_None_2. Qed.

Lemma array_get_array_put (a : list jsnum) (i j : nat) (v : jsnum) :
  array_get (array_put a i v) j = if bool_decide (j = i) then v else array_get a j.
Proof.
  unfold array_put, array_get.
  destruct (Nat.ltb_spec i (length a)) as [Hlt|Hge].
  - case_bool_decide as Hj.
    + subst j. by rewrite list_lookup_insert_eq.
    + by rewrite list_lookup_insert_ne.
  - case_bool_decide as Hj.
    + subst j. rewrite lookup_app_r by done.
      rewrite lookup_app_r by (rewrite length_replicate; lia).
      rewrite length_replicate, Nat.sub_diag. done.
    + destruct (Nat.lt_ge_cases j (length a)) as [Hja|Hja].
      * by rewrite lookup_app_l.
      * rewrite lookup_app_r, (lookup_ge_None_2 a) by done.
        destruct (Nat.lt_ge_cases (j - length a) (i - length a)) as [Hji|Hji].
        -- rewrite lookup_app_l by (by rewrite length_replicate).
           by rewrite lookup_replicate_2.
        -- rewrite lookup_app_r by (by rewrite length_replicate).
           rewrite length_replicate.
           destruct (j - length a - (i - length a))%nat as [|k] eqn:E; [lia|done].
Qed.

(** What the words of the mask are after [extendMaskAndSetFlag]: the word of
    the type has its flag ORed in, every other word reads as before. *)
Lemma array_get_extendMaskAndSetFlag (mask : list jsnum) (type : ComponentType) (j : nat) :
  array_get (extendMaskAndSetFlag mask type) j
  = if bool_decide (j = flagOffset type)
    then Some (js_or (array_get mask (flagOffset type)) (Some (flagMask type)))
    else array_get mask j.
Proof.
  destruct (Nat.le_gt_cases (length mask) (flagOffset type)) as [Hle|Hgt].
  - rewrite extendMaskAndSetFlag_grow by done.
    rewrite (array_get_ge mask (flagOffset type)) by done.
    transitivity (array_get (array_put mask (flagOffset type)
                               (Some (ToInt32 (flagMask type)))) j).
    + unfold array_put. destruct (Nat.ltb_spec (flagOffset type) (length mask)); [lia|done].
    + rewrite array_get_array_put. done.
  - unfold extendMaskAndSetFlag.
    destruct (Nat.leb_spec (length mask) (flagOffset type)); [lia|].
    apply array_get_array_put.
Qed.

(** X6: [extendMaskAndSetFlag(mask, type)] followed by
    [maskHasFlag(mask, type)] gives [true], for a mask of any length; no flag
    that was in the mask is lost; and the only flags gained are those that
    share a bit with the type's.  A mask that ends before the word of a type
    does not have its flag. *)
Theorem extendMaskAndSetFlag_sets_that_flag (mask : list jsnum) (type type' : ComponentType)
    (Hmask : ToInt32 (flagMask type) ≠ 0) :
  maskHasFlag (extendMaskAndSetFlag mask type) type = true
  ∧ (maskHasFlag mask type' = true →
     maskHasFlag (extendMaskAndSetFlag mask type) type' = true)
  ∧ (maskHasFlag (extendMaskAndSetFlag mask type) type' = true →
     maskHasFlag mask type' = true
     ∨ (flagOffset type' = flagOffset type
        ∧ Z.land (ToInt32 (flagMask type)) (ToInt32 (flagMask type')) ≠ 0))
  ∧ ((length mask ≤ flagOffset type')%nat → maskHasFlag mask type' = false).
Proof.
  assert (Hword : ∀ t, flagOffset t = flagOffset type →
    Z.land (js_int32 (array_get (extendMaskAndSetFlag mask type) (flagOffset t)))
           (ToInt32 (flagMask t))
    = Z.lor (Z.land (js_int32 (array_get mask (flagOffset t))) (ToInt32 (flagMask t)))
            (Z.land (ToInt32 (flagMask type)) (ToInt32 (flagMask t)))).
  { intros t Ht. rewrite array_get_extendMaskAndSetFlag, Ht, bool_decide_eq_true_2 by done.
    cbn [js_int32]. rewrite js_or_int32. unfold js_or. cbn [js_int32].
    apply Z.land_lor_distr_l. }
  split; [|split; [|split]].
  - apply maskHasFlag_true. rewrite Hword by done. rewrite Z.land_diag.
    intros H. apply Z.lor_eq_0_iff in H. tauto.
  - rewrite !maskHasFlag_true. intros H.
    destruct (decide (flagOffset type' = flagOffset type)) as [He|Hne].
    + rewrite Hword by done. intros H0. apply Z.lor_eq_0_iff in H0. tauto.
    + by rewrite array_get_extendMaskAndSetFlag, bool_decide_eq_false_2.
  - rewrite !maskHasFlag_true. intros H.
    destruct (decide (flagOffset type' = flagOffset type)) as [He|Hne].
    + rewrite Hword in H by done.
      destruct (decide (Z.land (js_int32 (array_get mask (flagOffset type')))
                               (ToInt32 (flagMask type')) = 0)) as [Hz|Hz]; [|by left].
      right. split; [done|]. intros Hz'. apply H. rewrite Hz, Hz'. done.
    + left. by rewrite array_get_extendMaskAndSetFlag, bool_decide_eq_false_2 in H.
  - intros Hlen. rewrite maskHasFlag_word, array_get_ge by done. done.
Qed.

Lemma extendMaskAndSetFlag_sets_that_flag_witness :
  ToInt32 (flagMask compB) ≠ 0
  ∧ maskHasFlag (extendMaskAndSetFlag [Some 1] compB) compB = true
  ∧ maskHasFlag (extendMaskAndSetFlag [Some 1] compB) compA = true
  ∧ maskHasFlag [] compA = false.
Proof.
  assert (H : ToInt32 (flagMask compB) ≠ 0) by discriminate.
  split; [exact H|].
  destruct (extendMaskAndSetFlag_sets_that_flag [Some 1] compB compA H) as (H1 & H2 & _ & _).
  split; [exact H1|]. split; [exact (H2 eq_refl)|]. reflexivity.
Defined.

(** ** Flags: [setFlag], [clearFlag], [hasFlag] *)

Lemma ta_get_ta_put v m i j x :
  ta_get v (ta_put v i x m) j
  = if bool_decide (i = j ∧ is_Some (ta_get v m i)) then Some (ToUint32 x) else ta_get v m j.
Proof.
  case_bool_decide as E.
  - destruct E as [-> E]. by apply ta_get_ta_put_same.
  - destruct i as [i|]; [|done]. destruct j as [j|]; [|done].
    unfold ta_put. case_bool_decide as Ei; [|done].
    assert (Hij : i ≠ j).
    { intros ->. apply E. split; [done|]. unfold ta_get.
      rewrite bool_decide_eq_true_2 by done. eauto. }
    unfold ta_get. case_bool_decide as Ej; [|done].
    rewrite mem_word_insert, bool_decide_eq_false_2 by lia. done.
Qed.

(** The word index of a flag determines the slot and the word of the slot. *)
Lemma flag_index_inj w (id id' : Z) (type type' : ComponentType) :
  Z.of_nat (flagOffset type) < stride w → Z.of_nat (flagOffset type') < stride w →
  flag_index w (Some id) type = flag_index w (Some id') type' →
  id = id' ∧ flagOffset type = flagOffset type'.
Proof.
  unfold flag_index, slot_index, slot_base. intros H1 H2 [= H].
  assert (id = id') by nia. subst. split; [done|lia].
Qed.

Lemma flag_index_range w (id : Z) (type : ComponentType) :
  Z.of_nat (flagOffset type) < stride w →
  is_Some (ta_get (current w) (memory w) (flag_index w (Some id) type)) ↔ 0 ≤ id < maxNum w.
Proof.
  intros H. unfold flag_index, slot_index, slot_base, ta_get, current. cbn [base len].
  pose proof (Nat2Z.is_nonneg (flagOffset type)) as H0.
  assert (Hiff : 0 ≤ id * stride w + Z.of_nat (flagOffset type) < maxNum w * stride w
                 ↔ 0 ≤ id < maxNum w).
  { split; intros [Ha Hb]; split.
    - destruct (Z_lt_le_dec id 0); [|done]. assert (id * stride w ≤ -1 * stride w) by nia. lia.
    - destruct (Z_lt_le_dec id (maxNum w)); [done|].
      assert (maxNum w * stride w ≤ id * stride w) by nia. lia.
    - nia.
    - assert ((id + 1) * stride w ≤ maxNum w * stride w) by nia. lia. }
  case_bool_decide as E; split; intros H'; [tauto|eauto|by destruct H' as [? [=]]|tauto].
Qed.

Lemma land_lor_disjoint c f f' : Z.land f f' = 0 → Z.land (Z.lor c f) f' = Z.land c f'.
Proof. intros H. by rewrite Z.land_lor_distr_l, H, Z.lor_0_r. Qed.

Lemma land_clear_disjoint c f f' :
  Z.land f f' = 0 → Z.land (Z.land c (Z.lnot f)) f' = Z.land c f'.
Proof.
  intros H. apply Z.bits_inj'. intros n Hn.
  assert (Hb : Z.testbit (Z.land f f') n = false) by (by rewrite H, Z.bits_0).
  rewrite Z.land_spec in Hb.
  rewrite !Z.land_spec, Z.lnot_spec by done.
  by destruct (Z.testbit c n), (Z.testbit f n), (Z.testbit f' n).
Qed.

Lemma land_clear_restore c f : Z.land c f = 0 → Z.land (Z.lor c f) (Z.lnot f) = c.
Proof.
  intros H. apply Z.bits_inj'. intros n Hn.
  assert (Hb : Z.testbit (Z.land c f) n = false) by (by rewrite H, Z.bits_0).
  rewrite Z.land_spec in Hb.
  rewrite !Z.land_spec, Z.lor_spec, Z.lnot_spec by done.
  by destruct (Z.testbit c n), (Z.testbit f n).
Qed.

(** [hasFlag] after a store into the current buffer. *)
Lemma hasFlag_put w i x id' type' :
  hasFlag (set_memory (ta_put (current w) i x (memory w)) w) id' type'
  = if bool_decide (i = flag_index w id' type'
                    ∧ is_Some (ta_get (current w) (memory w) i))
    then negb (Z.land (ToInt32 x) (ToInt32 (flagMask type')) =? 0)
    else hasFlag w id' type'.
Proof.
  unfold hasFlag. cbn [memory set_memory].
  change (current (set_memory _ w)) with (current w).
  change (flag_index (set_memory ?m w)) with (flag_index w).
  rewrite ta_get_ta_put. case_bool_decide; [|done].
  unfold js_and. cbn [js_int32]. by rewrite ToInt32_ToUint32.
Qed.

(** X7: flags do not interfere.  Setting or clearing the flag of one type on
    one slot leaves [hasFlag] as it was for every other slot, for every type
    whose flag lies in another word, and for every type whose flag shares no
    bit with it. *)
Theorem flags_are_independent (w : World) (id id' : Z) (type type' : ComponentType)
    (Hoff : Z.of_nat (flagOffset type) < stride w)
    (Hoff' : Z.of_nat (flagOffset type') < stride w)
    (Hother : id ≠ id' ∨ flagOffset type ≠ flagOffset type'
              ∨ Z.land (ToInt32 (flagMask type)) (ToInt32 (flagMask type')) = 0) :
  hasFlag (snd (setFlag (Some id) type w)) (Some id') type' = hasFlag w (Some id') type'
  ∧ hasFlag (snd (clearFlag (Some id) type w)) (Some id') type' = hasFlag w (Some id') type'.
Proof.
  unfold setFlag, clearFlag, modify. cbn [snd]. rewrite !hasFlag_put.
  case_bool_decide as E; [|done].
  destruct E as [E Hin].
  destruct (flag_index_inj _ _ _ _ _ Hoff Hoff' E) as [-> Hw].
  destruct Hother as [?|[?|Hd]]; [done..|].
  unfold hasFlag. rewrite <- E.
  destruct Hin as [c Hc]. rewrite Hc.
  rewrite js_or_int32, js_and_int32. unfold js_or, js_and, js_not. cbn [js_int32].
  change (Z.lnot (ToInt32 (flagMask type))) with (js_not (Some (flagMask type))).
  rewrite js_not_int32. unfold js_not. cbn [js_int32].
  by rewrite land_lor_disjoint, land_clear_disjoint.
Qed.

Lemma flags_are_independent_witness :
  Z.of_nat (flagOffset compB) < stride four_created
  ∧ Z.of_nat (flagOffset compA) < stride four_created
  ∧ hasFlag (snd (setFlag (Some 1) compB four_created)) (Some 1) compA = true
  ∧ hasFlag (snd (clearFlag (Some 1) compB four_created)) (Some 1) compA = true.
Proof.
  assert (H : 0 < stride four_created) by reflexivity.
  split; [exact H|]. split; [exact H|].
  exact (flags_are_independent four_created 1 1 compB compA H H
           (or_intror (or_intror eq_refl))).
Defined.

(** X8: a flag set is a flag read back, and a flag cleared reads as absent,
    for every slot of the buffer.  Setting a flag that was clear and clearing
    it again restores every word of the buffer.  Outside the buffer nothing
    is stored: for an id that is no slot, [setFlag] and [clearFlag] leave the
    memory alone and [hasFlag] answers [false]. *)
Theorem flag_set_clear_lookup (w : World) (id : Z) (type : ComponentType)
    (Hreg : registered w type) :
  (0 ≤ id < maxNum w →
     hasFlag (snd (setFlag (Some id) type w)) (Some id) type = true
     ∧ hasFlag (snd (clearFlag (Some id) type w)) (Some id) type = false
     ∧ (hasFlag w (Some id) type = false →
        let w' := snd (clearFlag (Some id) type (snd (setFlag (Some id) type w))) in
        ∀ i, ta_get (current w') (memory w') i = ta_get (current w) (memory w) i))
  ∧ (¬ (0 ≤ id < maxNum w) →
     snd (setFlag (Some id) type w) = w
     ∧ snd (clearFlag (Some id) type w) = w
     ∧ hasFlag w (Some id) type = false).
Proof.
  destruct Hreg as [Hoff Hnz].
  pose proof (flag_index_range w id type Hoff) as Hr.
  split.
  - intros Hid. apply Hr in Hid.
    split; [by apply hasFlag_setFlag|]. split; [apply hasFlag_clearFlag|].
    intros Hclear w' i. subst w'.
    unfold setFlag, clearFlag, modify. cbn [snd memory set_memory].
    change (current (set_memory _ w)) with (current w).
    change (flag_index (set_memory ?m w)) with (flag_index w).
    set (k := flag_index w (Some id) type) in *.
    destruct Hid as [c Hc].
    rewrite (ta_get_ta_put_same _ _ k) by eauto.
    rewrite !ta_get_ta_put. rewrite Hc.
    assert (Hs : is_Some (ta_get (current w)
                            (ta_put (current w) k
                               (js_or (Some c) (Some (flagMask type))) (memory w)) k)).
    { rewrite ta_get_ta_put_same by eauto. eauto. }
    rewrite (bool_decide_eq_true_2 (k = k ∧ _)) by eauto.
    destruct (decide (k = i)) as [<-|Hki].
    + rewrite bool_decide_eq_true_2 by eauto. rewrite Hc. f_equal.
      unfold js_and. cbn [js_int32]. rewrite ToInt32_ToUint32, js_or_int32, js_not_int32.
      unfold js_or, js_not. cbn [js_int32].
      unfold hasFlag in Hclear. fold k in Hclear. rewrite Hc in Hclear.
      unfold js_and in Hclear. cbn [js_int32] in Hclear.
      apply negb_false_iff, Z.eqb_eq in Hclear.
      rewrite land_clear_restore by done.
      assert (Hcr : 0 ≤ c < 2 ^ 32).
      { unfold ta_get in Hc. destruct k as [k'|]; [|done].
        case_bool_decide; [|done]. injection Hc as <-. apply mem_word_range. }
      unfold ToUint32. rewrite ToInt32_mod. apply Z.mod_small. done.
    + rewrite !bool_decide_eq_false_2 by tauto. done.
  - intros Hid.
    assert (Hn : ta_get (current w) (memory w) (flag_index w (Some id) type) = undefined).
    { destruct (ta_get _ _ _) eqn:E; [|done]. exfalso. apply Hid, Hr. eauto. }
    assert (Hput : ∀ x, ta_put (current w) (flag_index w (Some id) type) x (memory w)
                        = memory w).
    { intros x. unfold ta_get, ta_put in *.
      destruct (flag_index w (Some id) type) as [k|]; [|done].
      by case_bool_decide. }
    unfold setFlag, clearFlag, modify. cbn [snd]. rewrite !Hput.
    split; [by destruct w|]. split; [by destruct w|].
    unfold hasFlag. by rewrite Hn.
Qed.

Lemma flag_set_clear_lookup_witness :
  registered demo compA
  ∧ hasFlag (snd (setFlag (Some 2) compA demo)) (Some 2) compA = true
  ∧ snd (setFlag (Some 5) compA demo) = demo.
Proof.
  assert (H : registered demo compA) by (split; [reflexivity|discriminate]).
  split; [exact H|].
  destruct (flag_set_clear_lookup demo 2 compA H) as [H1 _].
  destruct (flag_set_clear_lookup demo 5 compA H) as [_ H2].
  split.
  - apply H1. change (maxNum demo) with 5. lia.
  - apply H2. change (maxNum demo) with 5. lia.
Defined.

(** ** Handles: [add], [read], [write] *)

Lemma same_presence_refl w : same_presence w w.
Proof. done. Qed.

Lemma same_presence_trans a b c : same_presence a b → same_presence b c → same_presence a c.
Proof.
  intros (M1 & T1 & N1 & P1 & H1 & R1 & C1) (M2 & T2 & N2 & P2 & H2 & R2 & C2).
  repeat split; try congruence; intros i; by rewrite C2, C1.
Qed.

Lemma same_presence_stride w w' : same_presence w w' → stride w' = stride w.
Proof. intros (_ & Ht & _). unfold stride. by rewrite Ht. Qed.

Lemma same_presence_hasFlag w w' id type :
  same_presence w w' → hasFlag w' id type = hasFlag w id type.
Proof.
  intros H. pose proof (same_presence_stride _ _ H) as Hs.
  destruct H as (_ & _ & _ & _ & _ & _ & Hc).
  unfold hasFlag, flag_index, slot_index, slot_base. by rewrite Hc, Hs.
Qed.

Lemma same_presence_id_of w w' this :
  same_presence w w' → Entity.id_of w' this = Entity.id_of w this.
Proof. intros (_ & _ & _ & _ & Hh & _). unfold Entity.id_of. by rewrite Hh. Qed.

Lemma same_presence_may w w' wr type : same_presence w w' → may w' wr type = may w wr type.
Proof. intros (_ & _ & _ & _ & _ & Hr & _). unfold may. by rewrite Hr. Qed.

Lemma same_presence_isAllocated w w' id :
  same_presence w w' → isAllocated w' id (current w') = isAllocated w id (current w).
Proof.
  intros H. pose proof (same_presence_stride _ _ H) as Hs.
  destruct H as (_ & _ & _ & _ & _ & _ & Hc).
  unfold isAllocated. rewrite Hs. apply existsb_pointwise. intros offset.
  unfold slot_index, slot_base. by rewrite Hc, Hs.
Qed.

Lemma same_presence_put w i x :
  same_presence w (set_memory (ta_put (mutations w) i x (memory w)) w).
Proof.
  repeat split. intros j. cbn [memory set_memory].
  change (current (set_memory _ w)) with (current w).
  apply ta_get_ta_put_apart, current_mutations_apart.
Qed.

Ltac frame_presence := repeat frame_step same_presence_refl same_presence_trans.

Lemma markMutated_presence id type : frame same_presence (markMutated id type).
Proof. intros w. apply same_presence_put. Qed.

Lemma checkMask_presence type wr : frame same_presence (Entity.__checkMask type wr).
Proof. intros w. by rewrite checkMask_same. Qed.

Lemma has_presence this type : frame same_presence (Entity.has this type).
Proof. intros w. by rewrite has_same. Qed.

Lemma get_presence this type wr : frame same_presence (Entity.__get this type wr).
Proof.
  unfold Entity.__get, bindComponent. frame_presence;
    auto using checkMask_presence, has_presence.
Qed.

Lemma write_presence this type : frame same_presence (Entity.write this type).
Proof.
  unfold Entity.write. frame_presence; auto using get_presence, markMutated_presence.
Qed.

Lemma null_refs_presence c fs : frame same_presence (Entity.null_refs c fs).
Proof. intros w. by rewrite null_refs_run. Qed.

Lemma deindex_presence this type : frame same_presence (Entity.__deindexOutboundRefs this type).
Proof.
  unfold Entity.__deindexOutboundRefs. frame_presence;
    auto using write_presence, null_refs_presence.
Qed.

Lemma initComponent_presence type id values : frame same_presence (initComponent type id values).
Proof. intros w. done. Qed.

(** [add] where it gets through its checks. *)
Lemma add_run this type values w :
  may w true type = true → may w false type = true →
  hasFlag w (Entity.id_of w this) type = false →
  Entity.add this type values w
  = (Ok this,
     snd (initComponent type (Entity.id_of w this) values
            (snd (setFlag (Entity.id_of w this) type w)))).
Proof.
  intros Hw Hr Hf. unfold Entity.add.
  rewrite (bind_run _ _ _ _ _ (checkMask_allowed _ _ _ Hw)).
  rewrite (bind_run _ _ _ _ _ (has_allowed _ _ _ Hr)), Hf. done.
Qed.

(** X9: [add(type, values)] checks, in this order, that the executing system
    may write the type, that it may read it ([add] asks [this.has(type)]),
    and that the entity does not have the component yet; each failure throws
    and changes nothing.  Past the checks it returns the handle itself with
    the flag set in the current buffer, so that [has(type)] answers [true],
    and touches neither the previous buffer nor the mutation buffer. *)
Theorem add_checks_then_sets_flag (w : World) (this : nat) (type : ComponentType)
    (values : list (string * FieldVal)) :
  let id := Entity.id_of w this in
  (may w true type = false →
     Entity.add this type values w = (Throw (CapabilityError true), w))
  ∧ (may w true type = true → may w false type = false →
     Entity.add this type values w = (Throw (CapabilityError false), w))
  ∧ (may w true type = true → may w false type = true → hasFlag w id type = true →
     Entity.add this type values w = (Throw AlreadyHas, w))
  ∧ (may w true type = true → may w false type = true → hasFlag w id type = false →
     ∃ w', Entity.add this type values w = (Ok this, w')
       ∧ Entity.id_of w' this = id
       ∧ (∀ i, ta_get (previous w') (memory w') i = ta_get (previous w) (memory w) i)
       ∧ (∀ i, ta_get (mutations w') (memory w') i = ta_get (mutations w) (memory w) i)
       ∧ (is_Some (ta_get (current w) (memory w) (flag_index w id type)) →
          ToInt32 (flagMask type) ≠ 0 →
          hasFlag w' id type = true ∧ Entity.has this type w' = (Ok true, w'))).
Proof.
  intros id. split; [|split; [|split]].
  - intros H. unfold Entity.add.
    by rewrite (bind_throw _ _ _ _ _ (checkMask_denied _ _ _ H)).
  - intros Hw Hr. unfold Entity.add.
    rewrite (bind_run _ _ _ _ _ (checkMask_allowed _ _ _ Hw)).
    by rewrite (bind_throw _ _ _ _ _ (has_denied _ _ _ Hr)).
  - intros Hw Hr Hf. unfold Entity.add.
    rewrite (bind_run _ _ _ _ _ (checkMask_allowed _ _ _ Hw)).
    rewrite (bind_run _ _ _ _ _ (has_allowed _ _ _ Hr)). fold id. by rewrite Hf.
  - intros Hw Hr Hf. eexists. split; [by apply add_run|]. fold id.
    split; [done|]. split; [|split].
    + intros i. unfold initComponent, setFlag, modify. cbn [snd memory set_storage set_memory].
      change (previous (set_storage _ (set_memory ?m w))) with (previous w).
      apply ta_get_ta_put_apart, previous_current_apart.
    + intros i. unfold initComponent, setFlag, modify. cbn [snd memory set_storage set_memory].
      change (mutations (set_storage _ (set_memory ?m w))) with (mutations w).
      apply ta_get_ta_put_apart. pose proof (current_mutations_apart w) as H.
      unfold apart in *. lia.
    + intros Hin Hnz.
      assert (Hflag : hasFlag (snd (initComponent type id values (snd (setFlag id type w))))
                        id type = true).
      { rewrite <- (hasFlag_setFlag w id type Hin Hnz). by apply hasFlag_ext. }
      split; [done|].
      rewrite has_allowed by done.
      change (Entity.id_of (snd (initComponent type id values (snd (setFlag id type w)))) this)
        with id.
      by rewrite Hflag.
Qed.

Lemma current_ext_hasFlag w w' :
  types w' = types w →
  (∀ i, ta_get (current w') (memory w') i = ta_get (current w) (memory w) i) →
  ∀ id type, hasFlag w' id type = hasFlag w id type.
Proof.
  intros Ht Hc id type.
  assert (Hs : stride w' = stride w) by (unfold stride; by rewrite Ht).
  unfold hasFlag, flag_index, slot_index, slot_base. by rewrite Hc, Hs.
Qed.

Lemma current_ext_isAllocated w w' :
  types w' = types w →
  (∀ i, ta_get (current w') (memory w') i = ta_get (current w) (memory w) i) →
  ∀ id, isAllocated w' id (current w') = isAllocated w id (current w).
Proof.
  intros Ht Hc id.
  assert (Hs : stride w' = stride w) by (unfold stride; by rewrite Ht).
  unfold isAllocated. rewrite Hs. apply existsb_pointwise. intros offset.
  unfold slot_index, slot_base. by rewrite Hc, Hs.
Qed.

Lemma ta_get_range v m i c : ta_get v m i = Some c → 0 ≤ c < 2 ^ 32.
Proof.
  destruct i as [i|]; [|done]. unfold ta_get. case_bool_decide; [|done].
  intros [= <-]. apply mem_word_range.
Qed.

(** The word after [|= f] and then [&= ~f], when no bit of [f] was set. *)
Lemma restore_word c f :
  0 ≤ c < 2 ^ 32 → Z.land (ToInt32 c) (ToInt32 f) = 0 →
  ToUint32 (js_and (Some (ToUint32 (js_or (Some c) (Some f)))) (Some (js_not (Some f)))) = c.
Proof.
  intros Hc H. unfold js_and. cbn [js_int32].
  rewrite ToInt32_ToUint32, js_or_int32, js_not_int32.
  unfold js_or, js_not. cbn [js_int32].
  rewrite land_clear_restore by done.
  unfold ToUint32. rewrite ToInt32_mod. by apply Z.mod_small.
Qed.

(** The current buffer after [setFlag] and after [clearFlag]. *)
Lemma setFlag_current id type w i :
  let w' := snd (setFlag id type w) in
  ta_get (current w') (memory w') i
  = if bool_decide (flag_index w id type = i ∧ is_Some (ta_get (current w) (memory w) i))
    then Some (ToUint32 (js_or (ta_get (current w) (memory w) i) (Some (flagMask type))))
    else ta_get (current w) (memory w) i.
Proof.
  unfold setFlag, modify. cbn [snd memory set_memory].
  change (current (set_memory _ w)) with (current w).
  rewrite ta_get_ta_put.
  destruct (decide (flag_index w id type = i)) as [<-|Hne].
  - done.
  - by rewrite !bool_decide_eq_false_2 by tauto.
Qed.

Lemma clearFlag_current id type w i :
  let w' := snd (clearFlag id type w) in
  ta_get (current w') (memory w') i
  = if bool_decide (flag_index w id type = i ∧ is_Some (ta_get (current w) (memory w) i))
    then Some (ToUint32 (js_and (ta_get (current w) (memory w) i)
                                (Some (js_not (Some (flagMask type))))))
    else ta_get (current w) (memory w) i.
Proof.
  unfold clearFlag, modify. cbn [snd memory set_memory].
  change (current (set_memory _ w)) with (current w).
  rewrite ta_get_ta_put.
  destruct (decide (flag_index w id type = i)) as [<-|Hne].
  - done.
  - by rewrite !bool_decide_eq_false_2 by tauto.
Qed.

(** [remove] where it gets through its checks and finds the component. *)
Lemma remove_run this type w :
  may w true type = true →
  (existsb Entity.is_ref (fields type) = true → may w false type = true) →
  hasFlag w (Entity.id_of w this) type = true →
  ∃ w1, Entity.__deindexOutboundRefs this type w = (Ok tt, w1)
    ∧ same_presence w w1 ∧ keeps w w1
    ∧ Entity.remove this type w = (Ok true, snd (clearFlag (Entity.id_of w this) type w1)).
Proof.
  intros H Hr Hf.
  destruct (deindex_run this type w H Hr Hf) as (w1 & Hd & _ & _ & Hid & _).
  exists w1. split; [done|].
  split; [pose proof (deindex_presence this type w) as Hp; by rewrite Hd in Hp|].
  split.
  { assert (Hk : frame keeps (Entity.__deindexOutboundRefs this type)).
    { unfold Entity.__deindexOutboundRefs. frame_keeps. }
    pose proof (Hk w) as Hk'. by rewrite Hd in Hk'. }
  unfold Entity.remove.
  rewrite (bind_run _ _ _ _ _ (checkMask_allowed _ _ _ H)).
  unfold bind at 1. unfold gets at 1. rewrite Hf. cbn [negb].
  unfold Entity.__remove.
  unfold bind at 1. unfold bind at 1. rewrite Hd.
  unfold bind at 1. unfold gets at 1. rewrite Hid.
  unfold bind at 1. unfold clearFlag at 1, modify at 1.
  unfold bind at 1. unfold gets at 1.
  unfold clearFlag, modify. cbn [snd].
  by destruct (negb _).
Qed.

(** X10: adding a component to an entity that lacks it and removing it again
    restores the current buffer word for word: every [hasFlag] and every
    [isAllocated] answers as before the two calls, and the previous buffer
    was never touched. *)
Theorem add_then_remove_restores_flags (w : World) (this : nat) (type : ComponentType)
    (values : list (string * FieldVal)) (id : Z)
    (Hid : Entity.id_of w this = Some id)
    (Hrange : 0 ≤ id < maxNum w)
    (Hreg : registered w type)
    (Hw : may w true type = true)
    (Hr : may w false type = true)
    (Habsent : hasFlag w (Some id) type = false) :
  ∃ w1 w2,
    Entity.add this type values w = (Ok this, w1)
    ∧ hasFlag w1 (Some id) type = true
    ∧ Entity.remove this type w1 = (Ok true, w2)
    ∧ (∀ i, ta_get (current w2) (memory w2) i = ta_get (current w) (memory w) i)
    ∧ (∀ i, ta_get (previous w2) (memory w2) i = ta_get (previous w) (memory w) i)
    ∧ (∀ id' type', hasFlag w2 id' type' = hasFlag w id' type')
    ∧ (∀ id', isAllocated w2 id' (current w2) = isAllocated w id' (current w)).
Proof.
  destruct Hreg as [Hoff Hnz].
  pose proof (proj2 (flag_index_range w id type Hoff) Hrange) as Hin.
  rewrite <- Hid in Habsent.
  set (w1 := snd (initComponent type (Some id) values (snd (setFlag (Some id) type w)))).
  assert (Hadd : Entity.add this type values w = (Ok this, w1)).
  { rewrite add_run by done. by rewrite Hid. }
  assert (Hc1 : ∀ i, ta_get (current w1) (memory w1) i
                     = ta_get (current (snd (setFlag (Some id) type w)))
                         (memory (snd (setFlag (Some id) type w))) i) by done.
  assert (Hf1 : hasFlag w1 (Some id) type = true).
  { rewrite <- (hasFlag_setFlag w (Some id) type Hin Hnz). by apply hasFlag_ext. }
  assert (Hid1 : Entity.id_of w1 this = Some id) by done.
  assert (Hw1 : may w1 true type = true) by done.
  assert (Hr1 : may w1 false type = true) by done.
  rewrite <- Hid1 in Hf1.
  destruct (remove_run this type w1 Hw1 (fun _ => Hr1) Hf1)
    as (w1' & _ & Hp & Hk & Hrem).
  rewrite Hid1 in Hrem, Hf1.
  exists w1, (snd (clearFlag (Some id) type w1')).
  split; [done|]. split; [done|]. split; [done|].
  assert (Hcur : ∀ i, ta_get (current (snd (clearFlag (Some id) type w1')))
                        (memory (snd (clearFlag (Some id) type w1'))) i
                      = ta_get (current w) (memory w) i).
  { intros i. rewrite clearFlag_current.
    pose proof (same_presence_stride _ _ Hp) as Hs.
    destruct Hp as (_ & _ & _ & _ & _ & _ & Hc).
    assert (Hfi : flag_index w1' (Some id) type = flag_index w (Some id) type).
    { unfold flag_index, slot_index, slot_base. by rewrite Hs. }
    rewrite Hfi, !Hc, !Hc1, !setFlag_current.
    destruct (decide (flag_index w (Some id) type = i)) as [<-|Hne].
    - rewrite !(bool_decide_eq_true_2 (_ ∧ is_Some (ta_get (current w) _ _))) by done.
      rewrite bool_decide_eq_true_2 by eauto.
      destruct Hin as [c Hc0]. rewrite Hc0. f_equal.
      apply restore_word; [by eapply ta_get_range|].
      rewrite Hid in Habsent. unfold hasFlag in Habsent. rewrite Hc0 in Habsent.
      by apply negb_false_iff, Z.eqb_eq in Habsent.
    - by rewrite !bool_decide_eq_false_2 by tauto. }
  split; [done|]. split.
  - intros i.
    pose proof (clearFlag_keeps (Some id) type w1') as (_ & _ & _ & Hp2).
    destruct Hk as (_ & _ & _ & Hp1).
    rewrite Hp2, Hp1. unfold w1, initComponent, setFlag, modify.
    cbn [snd memory set_storage set_memory].
    change (previous (set_storage _ (set_memory ?m w))) with (previous w).
    apply ta_get_ta_put_apart, previous_current_apart.
  - assert (Ht : types (snd (clearFlag (Some id) type w1')) = types w).
    { destruct Hp as (_ & Ht & _). done. }
    split; [by apply current_ext_hasFlag|by apply current_ext_isAllocated].
Qed.

Lemma add_then_remove_restores_flags_witness :
  Entity.id_of bare 0 = Some 1
  ∧ hasFlag bare (Some 1) compA = false
  ∧ ∃ w1 w2,
      Entity.add 0 compA [] bare = (Ok 0%nat, w1)
      ∧ hasFlag w1 (Some 1) compA = true
      ∧ Entity.remove 0 compA w1 = (Ok true, w2)
      ∧ ∀ id' type', hasFlag w2 id' type' = hasFlag bare id' type'.
Proof.
  assert (Hid : Entity.id_of bare 0 = Some 1) by reflexivity.
  assert (Hrange : 0 ≤ 1 < maxNum bare) by (change (maxNum bare) with 5; lia).
  assert (Hreg : registered bare compA) by (split; [reflexivity|discriminate]).
  assert (Habsent : hasFlag bare (Some 1) compA = false) by reflexivity.
  split; [exact Hid|]. split; [exact Habsent|].
  destruct (add_then_remove_restores_flags bare 0 compA [] 1 Hid Hrange Hreg
              eq_refl eq_refl Habsent)
    as (w1 & w2 & H1 & H2 & H3 & _ & _ & H4 & _).
  exists w1, w2. auto.
Defined.

(** ** Reading and writing a component *)

Lemma get_same this type w : snd (Entity.__get this type false w) = w.
Proof.
  unfold Entity.__get. unfold bind at 1.
  pose proof (checkMask_same type false w) as H.
  destruct (Entity.__checkMask type false w) as [[[]|e|] w1]; simpl in H; subst w1; [|done..].
  unfold bind at 1. pose proof (has_same this type w) as H.
  destruct (Entity.has this type w) as [[b|e|] w1]; simpl in H; subst w1; [|done..].
  by destruct b.
Qed.

Lemma get_run this type wr w :
  may w wr type = true → may w false type = true →
  Entity.__get this type wr w
  = (Ok (if hasFlag w (Entity.id_of w this) type
         then Some {| c_type := type; c_id := Entity.id_of w this; c_writable := wr |}
         else None), w).
Proof.
  intros Hw Hr. unfold Entity.__get.
  rewrite (bind_run _ _ _ _ _ (checkMask_allowed _ _ _ Hw)).
  rewrite (bind_run _ _ _ _ _ (has_allowed _ _ _ Hr)).
  by destruct (hasFlag _ _ _).
Qed.

(** X11: [has], [read] and [readIfPresent] change nothing, however they end.
    Where the executing system may read the type, [readIfPresent] returns the
    component exactly when the flag is set and [undefined] otherwise, and
    [read] returns the same component or throws for a missing one. *)
Theorem reading_changes_nothing (w : World) (this : nat) (type : ComponentType) :
  let id := Entity.id_of w this in
  let view := {| c_type := type; c_id := id; c_writable := false |} in
  snd (Entity.has this type w) = w
  ∧ snd (Entity.read this type w) = w
  ∧ snd (Entity.readIfPresent this type w) = w
  ∧ (may w false type = true →
     Entity.readIfPresent this type w
     = (Ok (if hasFlag w id type then Some view else None), w)
     ∧ Entity.read this type w
       = (if hasFlag w id type then Ok view else Throw NoComponent, w)).
Proof.
  intros id view. split; [apply has_same|].
  split; [|split; [apply get_same|]].
  - unfold Entity.read. unfold bind.
    pose proof (get_same this type w) as H.
    destruct (Entity.__get this type false w) as [[[c|]|e|] w1]; simpl in H; by subst w1.
  - intros Hr. unfold Entity.read, Entity.readIfPresent.
    rewrite (bind_run _ _ _ _ _ (get_run _ _ _ _ Hr Hr)).
    rewrite get_run by done. fold id. fold view.
    by destruct (hasFlag w id type).
Qed.

(** [match] with the mask of one type looks at the word of its flag. *)
Lemma match_only w id entities type :
  match_ w id entities (Some (only type)) None = true
  ↔ js_and (ta_get entities (memory w) (flag_index w id type))
           (Some (ToInt32 (flagMask type))) = ToInt32 (flagMask type).
Proof.
  unfold match_. rewrite andb_true_r, match_positive_true. unfold only. split.
  - intros H.
    specialize (H (flagOffset type) (Some (ToInt32 (flagMask type)))).
    rewrite lookup_app_r, length_replicate, Nat.sub_diag in H
      by (by rewrite length_replicate).
    specialize (H eq_refl). injection H as H.
    unfold flag_index, slot_index. unfold slot_word in H.
    by destruct (slot_base w id).
  - intros H i maskByte Hi.
    destruct (Nat.lt_ge_cases i (flagOffset type)) as [Hlt|Hge].
    + rewrite lookup_app_l in Hi by (by rewrite length_replicate).
      apply lookup_replicate in Hi as [-> _].
      unfold js_and. cbn [js_int32]. change (ToInt32 0) with 0. by rewrite Z.land_0_r.
    + rewrite lookup_app_r in Hi by (by rewrite length_replicate).
      rewrite length_replicate in Hi.
      destruct (i - flagOffset type)%nat as [|k] eqn:Ek; [|by destruct k].
      injection Hi as <-. assert (i = flagOffset type) as -> by lia.
      unfold flag_index, slot_index in H. unfold slot_word.
      destruct (slot_base w id); f_equal; exact H.
Qed.

Lemma mutations_in_range w i :
  is_Some (ta_get (mutations w) (memory w) i) ↔ is_Some (ta_get (current w) (memory w) i).
Proof.
  destruct i as [i|]; [|done]. unfold ta_get, mutations, current. cbn [len].
  case_bool_decide; split; intros [? ?]; eauto; done.
Qed.

(** X12: [write(type)] on an entity that has the component returns a
    writable view and marks the component as mutated: [matchMutated] with the
    mask of the type answers [true] afterwards.  It touches neither the
    current nor the previous buffer, and the next [step()] takes the mark
    away.  On an entity that lacks the component it throws and changes
    nothing. *)
Theorem write_marks_mutation (w : World) (this : nat) (type : ComponentType) (id : Z)
    (Hid : Entity.id_of w this = Some id)
    (Hreg : registered w type)
    (Hw : may w true type = true)
    (Hr : may w false type = true) :
  (hasFlag w (Some id) type = false →
     Entity.write this type w = (Throw NoComponent, w))
  ∧ (hasFlag w (Some id) type = true →
     ∃ w', Entity.write this type w
           = (Ok {| c_type := type; c_id := Some id; c_writable := true |}, w')
       ∧ matchMutated w' (Some id) (Some (only type)) None = true
       ∧ (∀ i, ta_get (current w') (memory w') i = ta_get (current w) (memory w) i)
       ∧ (∀ i, ta_get (previous w') (memory w') i = ta_get (previous w) (memory w) i)
       ∧ hasFlag w' (Some id) type = true
       ∧ matchMutated (snd (step w')) (Some id) (Some (only type)) None = false).
Proof.
  destruct Hreg as [Hoff Hnz]. split.
  - intros Hf. unfold Entity.write.
    rewrite (bind_run _ _ _ _ _ (get_run _ _ _ _ Hw Hr)). by rewrite Hid, Hf.
  - intros Hf. rewrite <- Hid in Hf.
    rewrite (write_run _ _ _ Hw Hr Hf). rewrite Hid in *.
    eexists. split; [reflexivity|].
    pose proof (hasFlag_in_range _ _ _ Hf) as Hin.
    apply mutations_in_range in Hin.
    set (w' := snd (markMutated (Some id) type w)).
    assert (Hword : ta_get (mutations w') (memory w') (flag_index w' (Some id) type)
                    = Some (ToUint32 (js_or (ta_get (mutations w) (memory w)
                                               (flag_index w (Some id) type))
                                            (Some (flagMask type))))).
    { unfold w', markMutated, modify. cbn [snd memory set_memory].
      change (mutations (set_memory _ w)) with (mutations w).
      change (flag_index (set_memory ?m w)) with (flag_index w).
      by apply ta_get_ta_put_same. }
    split; [|split; [|split; [|split]]].
    + apply match_only. rewrite Hword. unfold js_and. cbn [js_int32].
      rewrite ToInt32_ToUint32, js_or_int32, ToInt32_idem. unfold js_or. cbn [js_int32].
      apply land_set.
    + apply (markMutated_presence (Some id) type w).
    + apply (markMutated_keeps (Some id) type w).
    + unfold w'. by rewrite hasFlag_markMutated.
    + apply not_true_is_false. unfold matchMutated. rewrite match_only.
      assert (H0 : ta_get (mutations (snd (step w'))) (memory (snd (step w')))
                     (flag_index (snd (step w')) (Some id) type) = Some 0).
      { change (mutations (snd (step w'))) with (mutations w).
        change (flag_index (snd (step w'))) with (flag_index w).
        destruct Hin as [c Hc]. unfold ta_get in *.
        destruct (flag_index w (Some id) type) as [k|]; [|done].
        case_bool_decide as Ek; [|done]. f_equal.
        rewrite step_memory. change (maxNum w') with (maxNum w).
        change (stride w') with (stride w).
        rewrite mutations_base. cbn [len mutations] in Ek.
        rewrite bool_decide_eq_true_2 by lia. done. }
      rewrite H0. unfold js_and. cbn [js_int32]. change (ToInt32 0) with 0.
      rewrite Z.land_0_l. congruence.
Qed.

Lemma write_marks_mutation_witness :
  Entity.id_of four_created 0 = Some 4
  ∧ hasFlag four_created (Some 4) compA = true
  ∧ matchMutated four_created (Some 4) (Some (only compA)) None = false
  ∧ ∃ w', Entity.write 0 compA four_created
          = (Ok {| c_type := compA; c_id := Some 4; c_writable := true |}, w')
      ∧ matchMutated w' (Some 4) (Some (only compA)) None = true.
Proof.
  assert (Hid : Entity.id_of four_created 0 = Some 4) by reflexivity.
  assert (Hreg : registered four_created compA) by (split; [reflexivity|discriminate]).
  split; [exact Hid|]. split; [reflexivity|]. split; [reflexivity|].
  destruct (write_marks_mutation four_created 0 compA 4 Hid Hreg eq_refl eq_refl)
    as [_ H].
  destruct (H eq_refl) as (w' & H1 & H2 & _).
  exists w'. auto.
Defined.

(** ** [createEntity]: the scan from the cursor *)

Lemma find_split {A} (f : A → bool) (l : list A) (k : A) :
  List.find f l = Some k →
  ∃ before after, l = before ++ k :: after ∧ (∀ j, j ∈ before → f j = false) ∧ f k = true.
Proof.
  induction l as [|x l IH]; [done|]. cbn [List.find].
  destruct (f x) eqn:Ex.
  - intros [= ->]. exists [], l. split; [done|]. split; [|done].
    intros j Hj. by apply elem_of_nil in Hj.
  - intros H. destruct (IH H) as (before & after & -> & Hb & Hk).
    exists (x :: before), after. split; [done|]. split; [|done].
    intros j Hj. apply elem_of_cons in Hj as [->|Hj]; auto.
Qed.

(** X13: [createEntity] is first fit from the cursor.  The slot it returns
    is the first free one in the order of the scan, which starts at the
    cursor and wraps around from the last slot to slot 1: every slot the scan
    passed before it was taken.  The cursor is left on the slot after the one
    returned. *)
Theorem createEntity_first_free_from_cursor
    (w : World) (ic : option (list InitItem)) (fuel : nat) (e : nat) (w' : World)
    (Hwf : pool_wf w)
    (Hid : 1 ≤ nextId w < maxNum w)
    (Hfuel : (Z.to_nat (maxNum w - 1) ≤ fuel)%nat)
    (Hok : createEntity fuel ic w = (Ok e, w')) :
  ∃ before k after,
    scan_order w = before ++ k :: after
    ∧ (∀ j, j ∈ before → free w j = false)
    ∧ free w k = true
    ∧ Entity.id_of w' e = Some k
    ∧ nextId w' = next_slot w k.
Proof.
  rewrite createEntity_scan in Hok by done.
  destruct (List.find (free w) (scan_order w)) as [k|] eqn:Ef; [|done].
  destruct (find_split _ _ _ Ef) as (before & after & Hl & Hb & Hk).
  destruct (allocate_Ok _ _ _ _ _ Hwf Hok) as (Hi & _ & Hn & _).
  exists before, k, after. done.
Qed.

Lemma createEntity_first_free_from_cursor_witness :
  pool_wf last_released
  ∧ nextId last_released = 1
  ∧ free last_released 1 = false
  ∧ free last_released 4 = true
  ∧ Entity.id_of (snd (createNone last_released)) 0 = Some 4
  ∧ ∃ before k after,
      scan_order last_released = before ++ k :: after
      ∧ (∀ j, j ∈ before → free last_released j = false)
      ∧ free last_released k = true
      ∧ Entity.id_of (snd (createNone last_released)) 0 = Some k
      ∧ nextId (snd (createNone last_released)) = next_slot last_released k.
Proof.
  assert (Hwf : pool_wf last_released) by (apply (bool_decide_unpack _); vm_compute; exact I).
  assert (Hid : 1 ≤ nextId last_released < maxNum last_released).
  { change (nextId last_released) with 1. change (maxNum last_released) with 5. lia. }
  assert (Hfuel : (Z.to_nat (maxNum last_released - 1) ≤ 4)%nat).
  { change (maxNum last_released) with 5. lia. }
  assert (Hok : createEntity 4 None last_released
                = (Ok 0%nat, snd (createNone last_released))).
  { unfold createNone. rewrite (surjective_pairing (createEntity 4 None last_released)) at 1.
    f_equal; vm_compute; reflexivity. }
  split; [exact Hwf|]. do 4 (split; [vm_compute; reflexivity|]).
  exact (createEntity_first_free_from_cursor last_released None 4 0
           (snd (createNone last_released)) Hwf Hid Hfuel Hok).
Defined.

Lemma isAllocated_outside w id v :
  1 ≤ stride w → len v = maxNum w * stride w → maxNum w ≤ id →
  isAllocated w (Some id) v = true.
Proof.
  intros Hs Hl Hid. apply isAllocated_true. exists 0. split; [lia|].
  unfold slot_index, slot_base, ta_get.
  rewrite bool_decide_eq_false_2; [done|]. rewrite Hl. nia.
Qed.

Lemma createEntity_loop_outside ic w fuel : ∀ initial id,
  1 ≤ stride w → maxNum w ≤ initial ≤ id →
  createEntity_loop fuel initial id ic w = (OutOfFuel, w).
Proof.
  induction fuel as [|fuel IH]; intros initial id Hs Hid; [done|].
  rewrite createEntity_loop_unfold.
  rewrite free_false_of_allocated by (apply isAllocated_outside; [done|done|lia]).
  assert (Hn : next_slot w id = id + 1).
  { unfold next_slot. destruct (Z.eqb_spec (id + 1) (maxNum w)); [lia|done]. }
  rewrite Hn. destruct (Z.eqb_spec (id + 1) initial); [lia|].
  apply IH; [done|lia].
Qed.

(** X14: on a store whose cursor is past the last slot, as it is from the
    start on a store built with [maxEntities = 0], the scan of [createEntity]
    never ends.  Every id it tries lies outside the buffers, where a word
    reads [undefined], which is not [0]: the id counts as allocated, is
    increased, and never meets [maxNum] or the id the scan started from.
    However many turns the loop is given, it is still running after them and
    has changed nothing. *)
Theorem createEntity_never_returns_without_slots
    (w : World) (ic : option (list InitItem)) (fuel : nat)
    (Hcursor : maxNum w ≤ nextId w)
    (Hstride : 1 ≤ stride w) :
  createEntity fuel ic w = (OutOfFuel, w).
Proof.
  unfold createEntity. apply createEntity_loop_outside; [done|lia].
Qed.

Lemma createEntity_never_returns_without_slots_witness :
  maxEntities no_slot = 0
  ∧ nextId no_slot = 1
  ∧ stride no_slot = 1
  ∧ createEntity 1000 None no_slot = (OutOfFuel, no_slot).
Proof.
  assert (Hc : maxNum no_slot ≤ nextId no_slot) by (vm_compute; discriminate).
  assert (Hs : 1 ≤ stride no_slot) by (vm_compute; discriminate).
  do 3 (split; [reflexivity|]).
  exact (createEntity_never_returns_without_slots no_slot None 1000 Hc Hs).
Defined.

Lemma add_already this type values w :
  may w true type = true → may w false type = true →
  hasFlag w (Entity.id_of w this) type = true →
  Entity.add this type values w = (Throw AlreadyHas, w).
Proof.
  intros Hw Hr Hf. unfold Entity.add.
  rewrite (bind_run _ _ _ _ _ (checkMask_allowed _ _ _ Hw)).
  rewrite (bind_run _ _ _ _ _ (has_allowed _ _ _ Hr)). by rewrite Hf.
Qed.

Lemma add_initial_already entity type rest w :
  may w true type = true → may w false type = true →
  hasFlag w (Entity.id_of w entity) type = true →
  add_initial entity (ItemType type :: rest) w = (Throw AlreadyHas, w).
Proof.
  intros Hw Hr Hf. cbn [add_initial].
  destruct rest as [|[type'|values] rest'];
    by rewrite (bind_throw _ _ _ _ _ (add_already _ _ _ _ Hw Hr Hf)).
Qed.

Lemma free_hasFlag w k type :
  Z.of_nat (flagOffset type) < stride w → free w k = true → hasFlag w (Some k) type = false.
Proof.
  intros Hoff Hf. destruct (hasFlag w (Some k) type) eqn:E; [|done].
  apply hasFlag_isAllocated in E; [|done].
  apply free_false_of_allocated in E. congruence.
Qed.

(** X15: a [createEntity] that throws while adding the initial components
    leaves what it did before in place.  When the same component class is
    listed twice, the first [add] succeeds and the second throws: the error
    comes out of [createEntity] with the component attached to the slot the
    scan had settled on, which is no longer free, and with the cursor where
    it was. *)
Theorem createEntity_failure_leaves_slot_taken
    (w : World) (type : ComponentType) (rest : list InitItem) (fuel : nat)
    (Hwf : pool_wf w)
    (Hid : 1 ≤ nextId w < maxNum w)
    (Hfuel : (Z.to_nat (maxNum w - 1) ≤ fuel)%nat)
    (Hreg : registered w type)
    (Hw : may w true type = true)
    (Hr : may w false type = true)
    (Hfree : ∃ k, 1 ≤ k < maxNum w ∧ free w k = true) :
  ∃ k w',
    createEntity fuel (Some (ItemType type :: ItemType type :: rest)) w
    = (Throw AlreadyHas, w')
    ∧ 1 ≤ k < maxNum w
    ∧ free w k = true
    ∧ hasFlag w' (Some k) type = true
    ∧ free w' k = false
    ∧ nextId w' = nextId w.
Proof.
  destruct Hreg as [Hoff Hnz].
  rewrite createEntity_scan by done.
  destruct (List.find (free w) (scan_order w)) as [k|] eqn:Ef.
  2:{ destruct Hfree as (k & Hk & Hf). rewrite find_free_None in Ef.
      rewrite (Ef k) in Hf; [done|]. by apply scan_order_elem. }
  apply find_free_Some in Ef as [Hin Hf]. apply scan_order_elem in Hin; [|done].
  destruct (bindEntity_spec (Some k) w Hwf) as (e & w1 & Hb & _ & _ & Hide & Hwf1 & _).
  pose proof (bindEntity_Ok _ _ _ _ Hb) as (Hmem & Hmn & Hty & Hnx & Hrw & _).
  assert (Hst : stride w1 = stride w) by (unfold stride; by rewrite Hty).
  assert (Hw1 : may w1 true type = true) by (unfold may in *; by rewrite Hrw).
  assert (Hr1 : may w1 false type = true) by (unfold may in *; by rewrite Hrw).
  assert (Hf1 : hasFlag w1 (Entity.id_of w1 e) type = false).
  { rewrite Hide. rewrite (hasFlag_ext w w1) by (by rewrite ?Hmem).
    by apply free_hasFlag. }
  set (w2 := snd (initComponent type (Some k) [] (snd (setFlag (Some k) type w1)))).
  assert (Hadd : Entity.add e type [] w1 = (Ok e, w2)).
  { rewrite add_run by done. by rewrite Hide. }
  assert (Hin1 : is_Some (ta_get (current w1) (memory w1) (flag_index w1 (Some k) type))).
  { apply flag_index_range; [by rewrite Hst|]. rewrite Hmn. lia. }
  assert (Hf2 : hasFlag w2 (Some k) type = true).
  { rewrite <- (hasFlag_setFlag w1 (Some k) type Hin1 Hnz). by apply hasFlag_ext. }
  exists k, w2. split.
  - unfold allocate. rewrite (bind_run _ _ _ _ _ Hb).
    assert (Hai : add_initial e (ItemType type :: ItemType type :: rest) w1
                  = (Throw AlreadyHas, w2)).
    { change (add_initial e (ItemType type :: ItemType type :: rest))
        with (Entity.add e type [] ;; add_initial e (ItemType type :: rest)).
      rewrite (bind_run _ _ _ _ _ Hadd).
      apply add_initial_already; [exact Hw1|exact Hr1|].
      change (Entity.id_of w2 e) with (Entity.id_of w1 e). by rewrite Hide. }
    by rewrite (bind_throw _ _ _ _ _ Hai).
  - split; [done|]. split; [done|]. split; [done|]. split; [|done].
    apply free_false_of_allocated, (hasFlag_isAllocated _ _ type); [|done].
    change (stride w2) with (stride w1). by rewrite Hst.
Qed.

Lemma createEntity_failure_leaves_slot_taken_witness :
  pool_wf demo
  ∧ free demo 1 = true
  ∧ ∃ k w',
      createEntity 4 (Some [ItemType compA; ItemType compA]) demo = (Throw AlreadyHas, w')
      ∧ 1 ≤ k < maxNum demo
      ∧ free demo k = true
      ∧ hasFlag w' (Some k) compA = true
      ∧ free w' k = false
      ∧ nextId w' = nextId demo.
Proof.
  assert (Hwf : pool_wf demo) by (apply (bool_decide_unpack _); vm_compute; exact I).
  assert (Hid : 1 ≤ nextId demo < maxNum demo).
  { change (nextId demo) with 1. change (maxNum demo) with 5. lia. }
  assert (Hfuel : (Z.to_nat (maxNum demo - 1) ≤ 4)%nat).
  { change (maxNum demo) with 5. lia. }
  assert (Hreg : registered demo compA) by (split; [reflexivity|discriminate]).
  assert (Hfree : ∃ k, 1 ≤ k < maxNum demo ∧ free demo k = true).
  { exists 1. change (maxNum demo) with 5. split; [lia|reflexivity]. }
  split; [exact Hwf|]. split; [reflexivity|].
  exact (createEntity_failure_leaves_slot_taken demo compA [] 4 Hwf Hid Hfuel Hreg
           eq_refl eq_refl Hfree).
Defined.

(** ** Iteration to the end *)

Lemma iterate_skip_ext predicate w1 w2 n : ∀ id,
  maxNum w1 = maxNum w2 → (∀ i, predicate i w1 = predicate i w2) →
  iterate_skip predicate w1 n id = iterate_skip predicate w2 n id.
Proof.
  induction n as [|n IH]; intros id Hm Hp; [done|].
  cbn [iterate_skip]. rewrite Hm, Hp. destruct (_ && _); [by apply IH|done].
Qed.

(** Where the skipping loop stops: at the first id from [id] on that the
    predicate selects, or past the last slot. *)
Lemma iterate_skip_filter predicate w n : ∀ id,
  maxNum w - id ≤ Z.of_nat n →
  let j := iterate_skip predicate w n id in
  id ≤ j
  ∧ List.filter (fun i => predicate i w) (seqZ id (maxNum w - id))
    = if j <? maxNum w
      then j :: List.filter (fun i => predicate i w) (seqZ (j + 1) (maxNum w - (j + 1)))
      else [].
Proof.
  induction n as [|n IH]; intros id Hn; cbn [iterate_skip].
  - split; [lia|]. destruct (Z.ltb_spec id (maxNum w)); [lia|].
    by rewrite seqZ_nil by lia.
  - destruct (Z.ltb_spec id (maxNum w)) as [Hlt|Hge]; cbn [andb].
    + replace (maxNum w - id) with (maxNum w - (id + 1) + 1) by lia.
      rewrite seqZ_S_front by lia. cbn [List.filter].
      destruct (predicate id w) eqn:Ep; cbn [negb].
      * split; [lia|]. destruct (Z.ltb_spec id (maxNum w)); [done|lia].
      * destruct (IH (id + 1)) as [Hle Hf]; [lia|]. split; [lia|done].
    + split; [lia|]. destruct (Z.ltb_spec id (maxNum w)); [lia|].
      by rewrite seqZ_nil by lia.
Qed.

Lemma pool_wf_emit e w : pool_wf w → pool_wf (emit e w).
Proof. done. Qed.

(** One [next()] of [iterate]. *)
Lemma iterate_next_run predicate id w1 :
  pool_wf w1 →
  let j := iterate_skip predicate (emit EvFlush w1) (Z.to_nat (maxNum w1 - id)) id in
  if j <? maxNum w1
  then ∃ e wb, iterate_next predicate id w1 = (Ok (Value e, j + 1), wb)
         ∧ Entity.id_of wb e = Some j ∧ pool_wf wb ∧ memory wb = memory w1
         ∧ maxNum wb = maxNum w1 ∧ types wb = types w1 ∧ nextId wb = nextId w1
  else iterate_next predicate id w1 = (Ok (Done, j), emit EvFlush w1).
Proof.
  intros Hwf j.
  assert (Hrun : iterate_next predicate id w1
                 = (if j <? maxNum w1
                    then let! entity := bindEntity (Some j) in ret (Value entity, j + 1)
                    else ret (Done, j)) (emit EvFlush w1)) by done.
  rewrite Hrun. destruct (j <? maxNum w1); [|done].
  destruct (bindEntity_spec (Some j) (emit EvFlush w1) (pool_wf_emit _ _ Hwf))
    as (e & wb & Hb & _ & _ & Hide & Hwfb & _).
  pose proof (bindEntity_Ok _ _ _ _ Hb) as (Hmemb & Hmnb & Htyb & Hnxb & _).
  exists e, wb. unfold bind. rewrite Hb. done.
Qed.

(** The loop over [iterate(predicate)] from the iterator's variable on. *)
Lemma for_of_iterate predicate w (Hp : reads_memory_only predicate) fuel : ∀ id w1,
  (Z.to_nat (maxNum w - id) < fuel)%nat →
  pool_wf w1 → memory w1 = memory w → maxNum w1 = maxNum w → types w1 = types w →
  ∃ w2,
    for_of fuel (iterate_next predicate) id w1
    = (Ok (Some <$> List.filter (fun i => predicate i w) (seqZ id (maxNum w - id))), w2)
    ∧ pool_wf w2 ∧ memory w2 = memory w ∧ maxNum w2 = maxNum w ∧ types w2 = types w
    ∧ nextId w2 = nextId w1.
Proof.
  induction fuel as [|fuel IH]; intros id w1 Hfuel Hwf Hmem Hmn Hty; [lia|].
  cbn [for_of].
  pose proof (iterate_next_run predicate id w1 Hwf) as Hnext. cbn zeta in Hnext.
  assert (Hsk : iterate_skip predicate (emit EvFlush w1) (Z.to_nat (maxNum w1 - id)) id
                = iterate_skip predicate w (Z.to_nat (maxNum w - id)) id).
  { rewrite Hmn. apply iterate_skip_ext; [done|]. intros i. by apply Hp. }
  rewrite Hsk, Hmn in Hnext.
  destruct (iterate_skip_filter predicate w (Z.to_nat (maxNum w - id)) id) as [Hle Hf];
    [lia|].
  rewrite Hf. set (j := iterate_skip predicate w _ id) in *.
  destruct (Z.ltb_spec j (maxNum w)) as [Hlt|Hge].
  - destruct Hnext as (e & wb & Hrun & Hide & Hwfb & Hmemb & Hmnb & Htyb & Hnxb).
    rewrite (bind_run _ _ _ _ _ Hrun). cbn [fst snd].
    unfold bind at 1. unfold gets at 1. rewrite Hide.
    destruct (IH (j + 1) wb) as (w2 & Hrun2 & Hwf2 & Hmem2 & Hmn2 & Hty2 & Hnx2);
      [lia|done|by rewrite Hmemb|by rewrite Hmnb|by rewrite Htyb|].
    exists w2. rewrite (bind_run _ _ _ _ _ Hrun2). cbn [ret].
    split; [done|]. repeat (split; [done|]). by rewrite Hnx2, Hnxb.
  - rewrite (bind_run _ _ _ _ _ Hnext). exists (emit EvFlush w1). cbn [ret fst]. done.
Qed.

(** X16: a [for...of] loop over [iterate(predicate)] that only looks at the
    entities visits the slots the predicate selects among [1, maxEntities],
    each once, in ascending order, for a predicate that reads nothing of the
    store but its memory; the loop ends, and leaves the memory and the cursor
    as they were. *)
Theorem iterate_visits_selected_slots_in_order
    (w : World) (predicate : Z → World → bool) (fuel : nat)
    (Hwf : pool_wf w)
    (Hp : reads_memory_only predicate)
    (Hfuel : (Z.to_nat (maxEntities w) < fuel)%nat) :
  ∃ w',
    for_of fuel (iterate_next predicate) 1 w
    = (Ok (Some <$> List.filter (fun id => predicate id w) (seqZ 1 (maxEntities w))), w')
    ∧ memory w' = memory w
    ∧ nextId w' = nextId w
    ∧ pool_wf w'.
Proof.
  unfold maxEntities in *.
  destruct (for_of_iterate predicate w Hp fuel 1 w Hfuel Hwf eq_refl eq_refl eq_refl)
    as (w' & Hrun & Hwf' & Hmem & _ & _ & Hnx).
  exists w'. done.
Qed.

Lemma matching_reads_memory_only pm nm : reads_memory_only (matching pm nm).
Proof.
  intros id w1 w2 Hm Hn Ht. unfold matching, matchCurrent, match_.
  assert (Hs : stride w1 = stride w2) by (unfold stride; by rewrite Ht).
  assert (Hc : current w1 = current w2) by (unfold current; by rewrite Hn, Hs).
  assert (Hb : slot_base w1 (Some id) = slot_base w2 (Some id)).
  { unfold slot_base. by rewrite Hs. }
  rewrite Hc, Hb. f_equal.
  - destruct pm as [pm|]; [|done]. generalize 0.
    induction pm as [|x pm IH]; intros k; [done|].
    cbn [match_positive]. by rewrite Hm, IH.
  - destruct nm as [nm|]; [|done]. generalize 0.
    induction nm as [|x nm IH]; intros k; [done|].
    cbn [match_negative]. by rewrite Hm, IH.
Qed.

Lemma iterate_visits_selected_slots_in_order_witness :
  pool_wf four_created
  ∧ reads_memory_only (matching (Some [Some 1]) None)
  ∧ ∃ w',
      for_of 5 (iterate_next (matching (Some [Some 1]) None)) 1 four_created
      = (Ok (Some <$> List.filter (fun id => matching (Some [Some 1]) None id four_created)
                        (seqZ 1 (maxEntities four_created))), w')
      ∧ memory w' = memory four_created
      ∧ nextId w' = nextId four_created
      ∧ pool_wf w'.
Proof.
  assert (Hwf : pool_wf four_created)
    by (apply (bool_decide_unpack _); vm_compute; exact I).
  assert (Hfuel : (Z.to_nat (maxEntities four_created) < 5)%nat).
  { change (maxEntities four_created) with 4. lia. }
  split; [exact Hwf|]. split; [apply matching_reads_memory_only|].
  exact (iterate_visits_selected_slots_in_order four_created _ 5 Hwf
           (matching_reads_memory_only _ _) Hfuel).
Defined.

(** One [next()] of [iterateAll]'s iterator. *)
Lemma iterateAll_next_run numResults i w1 :
  pool_wf w1 →
  if numResults <=? i + 1
  then iterateAll_next numResults i w1
       = (Ok (Done, i + 1), if 0 <=? i then emit EvFlush w1 else w1)
  else ∃ e wb, iterateAll_next numResults i w1 = (Ok (Value e, i + 1), wb)
         ∧ Entity.id_of wb e = ta_get (filtered w1) (memory w1) (Some (i + 1))
         ∧ pool_wf wb ∧ memory wb = memory w1
         ∧ maxNum wb = maxNum w1 ∧ types wb = types w1 ∧ nextId wb = nextId w1.
Proof.
  intros Hwf.
  set (wf := if 0 <=? i then emit EvFlush w1 else w1).
  assert (Hwff : pool_wf wf) by (unfold wf; by destruct (0 <=? i)).
  assert (Hsame : memory wf = memory w1 ∧ maxNum wf = maxNum w1 ∧ types wf = types w1
                  ∧ nextId wf = nextId w1) by (unfold wf; by destruct (0 <=? i)).
  destruct Hsame as (Hm & Hn & Ht & Hx).
  assert (Hrun : iterateAll_next numResults i w1
                 = (if numResults <=? i + 1 then ret (Done, i + 1)
                    else
                      let! id := gets (fun w => ta_get (filtered w) (memory w) (Some (i + 1))) in
                      let! entity := bindEntity id in
                      ret (Value entity, i + 1)) wf).
  { unfold iterateAll_next, wf. by destruct (0 <=? i). }
  rewrite Hrun. destruct (numResults <=? i + 1); [done|].
  unfold bind at 1. unfold gets at 1.
  set (id := ta_get (filtered wf) (memory wf) (Some (i + 1))).
  assert (Hid : id = ta_get (filtered w1) (memory w1) (Some (i + 1))).
  { unfold id, filtered, flagSegmentSize, maxEntities, stride. by rewrite Hm, Hn, Ht. }
  destruct (bindEntity_spec id wf Hwff) as (e & wb & Hb & _ & _ & Hide & Hwfb & _).
  pose proof (bindEntity_Ok _ _ _ _ Hb) as (Hmemb & Hmnb & Htyb & Hnxb & _).
  exists e, wb. unfold bind. rewrite Hb. cbn [ret].
  split; [done|]. split; [congruence|]. split; [done|]. repeat split; congruence.
Qed.

(** The loop over [iterateAll]'s iterator, the scratch buffer holding [xs]. *)
Lemma for_of_iterateAll (w1 : World) (xs : list Z) fuel : ∀ i w',
  (∀ (k : nat) x, xs !! k = Some x →
     ta_get (filtered w1) (memory w1) (Some (Z.of_nat k)) = Some x) →
  -1 ≤ i →
  (Z.to_nat (Z.of_nat (length xs) - (i + 1)) < fuel)%nat →
  pool_wf w' → memory w' = memory w1 → maxNum w' = maxNum w1 → types w' = types w1 →
  ∃ w2,
    for_of fuel (iterateAll_next (Z.of_nat (length xs))) i w'
    = (Ok (Some <$> drop (Z.to_nat (i + 1)) xs), w2)
    ∧ memory w2 = memory w1 ∧ nextId w2 = nextId w' ∧ pool_wf w2.
Proof.
  induction fuel as [|fuel IH]; intros i w' Hread Hi Hfuel Hwf Hmem Hmn Hty; [lia|].
  cbn [for_of].
  pose proof (iterateAll_next_run (Z.of_nat (length xs)) i w' Hwf) as Hnext.
  destruct (Z.leb_spec (Z.of_nat (length xs)) (i + 1)) as [Hle|Hgt].
  - rewrite (bind_run _ _ _ _ _ Hnext). cbn [fst ret].
    rewrite drop_ge by lia. eexists. split; [reflexivity|].
    by destruct (0 <=? i).
  - destruct Hnext as (e & wb & Hrun & Hide & Hwfb & Hmemb & Hmnb & Htyb & Hnxb).
    rewrite (bind_run _ _ _ _ _ Hrun). cbn [fst snd].
    unfold bind at 1. unfold gets at 1. rewrite Hide.
    destruct (lookup_lt_is_Some_2 xs (Z.to_nat (i + 1))) as [x Hx]; [lia|].
    assert (Hrd : ta_get (filtered w') (memory w') (Some (i + 1)) = Some x).
    { rewrite <- (Hread _ _ Hx). rewrite Z2Nat.id by lia.
      unfold filtered, flagSegmentSize, maxEntities, stride. by rewrite Hmem, Hmn, Hty. }
    rewrite Hrd.
    destruct (IH (i + 1) wb) as (w2 & Hrun2 & Hmem2 & Hnx2 & Hwf2);
      [done|lia|lia|done|congruence|congruence|congruence|].
    exists w2. rewrite (bind_run _ _ _ _ _ Hrun2). cbn [ret].
    split; [|split; [done|split; [congruence|done]]].
    rewrite (drop_S _ _ _ Hx), fmap_cons.
    replace (S (Z.to_nat (i + 1))) with (Z.to_nat (i + 1 + 1)) by lia. done.
Qed.

(** What [iterateAll] leaves in the scratch buffer reads back as the slots
    it selected. *)
Lemma filtered_read w pm nm (k : nat) x :
  stride w = 1 → 2 ≤ maxNum w → 16 * maxNum w ≤ 2 ^ 32 →
  hits w pm nm !! k = Some x →
  let w1 := set_memory (KernelSpec.put_words (3 * maxNum w) (hits w pm nm) (memory w)) w in
  ta_get (filtered w1) (memory w1) (Some (Z.of_nat k)) = Some x.
Proof.
  intros Hs Hn Hsize Hx w1.
  pose proof (hits_length w pm nm) as Hl.
  pose proof (lookup_lt_Some _ _ _ Hx) as Hk.
  assert (Hin : x ∈ hits w pm nm) by (by eapply list_elem_of_lookup_2).
  apply hits_elem in Hin as [Hxr _].
  unfold ta_get. change (filtered w1) with (filtered w).
  rewrite filtered_base, Hs. cbn [len filtered]. unfold maxEntities.
  rewrite bool_decide_eq_true_2 by lia. f_equal.
  cbn [memory w1 set_memory].
  replace (3 * (maxNum w * 1)) with (3 * maxNum w) by lia.
  rewrite (put_words_lookup _ _ _ _ _ Hx).
  assert (Hx32 : 0 ≤ x < 2 ^ 32).
  { assert (2 ^ 32 = 4294967296) by done. lia. }
  rewrite (KernelFacts.i32_small x Hx32). by apply ToUint32_small.
Qed.

Lemma hits_matching w pm nm :
  stride w = 1 → one_word pm → int32_words pm → one_word nm →
  hits w pm nm
  = List.filter (fun id => matchCurrent w (Some id) pm nm) (seqZ 1 (maxEntities w)).
Proof.
  intros Hs Hp1 Hp2 Hn. unfold hits, maxEntities.
  apply filter_ext_in. intros id Hid.
  apply list_elem_of_In, elem_of_seqZ in Hid.
  apply hit_matchCurrent; try done. lia.
Qed.

(** X17: with one word of flags per slot and masks of at most one word,
    [iterateAll(withMask, withoutMask)] and
    [iterate(id => matchCurrent(id, withMask, withoutMask))] visit the same
    entities in the same order: a [for...of] loop over either sees the slots
    of [1, maxEntities] that match, in ascending order, and [iterateAll]
    returned their number. *)
Theorem iterateAll_visits_what_iterate_visits
    (w : World) (pm nm : option (list jsnum)) (fuel : nat)
    (Hwf : pool_wf w)
    (Hstride : stride w = 1)
    (Hmax : 1 ≤ maxEntities w)
    (Hsize : 16 * maxNum w ≤ 2 ^ 32)
    (Hfuel : (Z.to_nat (maxEntities w) < fuel)%nat)
    (Hpm : one_word pm ∧ int32_words pm)
    (Hnm : one_word nm) :
  let selected :=
    List.filter (fun id => matchCurrent w (Some id) pm nm) (seqZ 1 (maxEntities w)) in
  ∃ w1 w2 w3,
    iterateAll fuel pm nm w = (Ok (Z.of_nat (length selected)), w1)
    ∧ for_of fuel (iterateAll_next (Z.of_nat (length selected))) (-1) w1
      = (Ok (Some <$> selected), w2)
    ∧ for_of fuel (iterate_next (matching pm nm)) 1 w = (Ok (Some <$> selected), w3).
Proof.
  intros selected. destruct Hpm as [Hp1 Hp2].
  assert (Hsel : hits w pm nm = selected) by (by apply hits_matching).
  unfold maxEntities in *.
  assert (Hrun : iterateAll fuel pm nm w
                 = (Ok (Z.of_nat (length (hits w pm nm))),
                    set_memory (KernelSpec.put_words (3 * maxNum w) (hits w pm nm) (memory w)) w)).
  { apply iterateAll_run; try done; lia. }
  set (w1 := set_memory _ w) in Hrun.
  destruct (for_of_iterateAll w1 (hits w pm nm) fuel (-1) w1) as (w2 & Hall & _);
    try done.
  { intros k x Hx. apply (filtered_read w pm nm k x); try done; lia. }
  { pose proof (hits_length w pm nm). lia. }
  destruct (for_of_iterate (matching pm nm) w (matching_reads_memory_only pm nm) fuel 1 w)
    as (w3 & Hit & _); try done.
  exists w1, w2, w3. rewrite <- Hsel. split; [done|]. split; [done|].
  rewrite Hit. do 2 f_equal. by rewrite Hsel.
Qed.

Lemma iterateAll_visits_what_iterate_visits_witness :
  pool_wf four_created
  ∧ stride four_created = 1
  ∧ List.filter (fun id => matchCurrent four_created (Some id) (Some [Some 1]) None)
      (seqZ 1 (maxEntities four_created)) = [1; 2; 3; 4]
  ∧ ∃ w1 w2 w3,
      iterateAll 5 (Some [Some 1]) None four_created
      = (Ok (Z.of_nat (length (List.filter
               (fun id => matchCurrent four_created (Some id) (Some [Some 1]) None)
               (seqZ 1 (maxEntities four_created))))), w1)
      ∧ for_of 5 (iterateAll_next (Z.of_nat (length (List.filter
               (fun id => matchCurrent four_created (Some id) (Some [Some 1]) None)
               (seqZ 1 (maxEntities four_created)))))) (-1) w1
        = (Ok (Some <$> List.filter
               (fun id => matchCurrent four_created (Some id) (Some [Some 1]) None)
               (seqZ 1 (maxEntities four_created))), w2)
      ∧ for_of 5 (iterate_next (matching (Some [Some 1]) None)) 1 four_created
        = (Ok (Some <$> List.filter
               (fun id => matchCurrent four_created (Some id) (Some [Some 1]) None)
               (seqZ 1 (maxEntities four_created))), w3).
Proof.
  assert (Hwf : pool_wf four_created)
    by (apply (bool_decide_unpack _); vm_compute; exact I).
  assert (Hs : stride four_created = 1) by reflexivity.
  assert (Hmax : 1 ≤ maxEntities four_created)
    by (change (maxEntities four_created) with 4; lia).
  assert (Hsize : 16 * maxNum four_created ≤ 2 ^ 32)
    by (change (maxNum four_created) with 5; lia).
  assert (Hfuel : (Z.to_nat (maxEntities four_created) < 5)%nat)
    by (change (maxEntities four_created) with 4; lia).
  assert (Hpm : one_word (Some [Some 1]) ∧ int32_words (Some [Some 1])).
  { split.
    - intros a [= <-]. simpl. lia.
    - intros a x [= <-] Hx. apply list_elem_of_singleton in Hx as ->.
      exists 1. split; [done|lia]. }
  assert (Hnm : one_word None) by (by intros a).
  split; [exact Hwf|]. split; [exact Hs|]. split; [vm_compute; reflexivity|].
  exact (iterateAll_visits_what_iterate_visits four_created (Some [Some 1]) None 5
           Hwf Hs Hmax Hsize Hfuel Hpm Hnm).
Defined.

(** X18: with one word of flags per slot, [iterateAll] writes into the
    scratch buffer and nowhere else: the current, previous and mutation
    buffers read as before, so does every [hasFlag]; it returns at most
    [maxEntities], binds no handle and does not flush. *)
Theorem iterateAll_writes_scratch_only
    (w : World) (pm nm : option (list jsnum)) (fuel : nat)
    (Hstride : stride w = 1)
    (Hmax : 1 ≤ maxEntities w)
    (Hsize : 16 * maxNum w ≤ 2 ^ 32)
    (Hfuel : (Z.to_nat (maxEntities w) ≤ fuel)%nat) :
  ∃ n w',
    iterateAll fuel pm nm w = (Ok n, w')
    ∧ 0 ≤ n ≤ maxEntities w
    ∧ (∀ i, ta_get (current w') (memory w') i = ta_get (current w) (memory w) i)
    ∧ (∀ i, ta_get (previous w') (memory w') i = ta_get (previous w) (memory w) i)
    ∧ (∀ i, ta_get (mutations w') (memory w') i = ta_get (mutations w) (memory w) i)
    ∧ (∀ id type, hasFlag w' id type = hasFlag w id type)
    ∧ events w' = events w ∧ pool w' = pool w ∧ heap w' = heap w ∧ nextId w' = nextId w.
Proof.
  unfold maxEntities in *.
  eexists _, _. split; [apply iterateAll_run; try done; lia|].
  pose proof (hits_length w pm nm) as Hl.
  split; [lia|].
  set (w' := set_memory _ w).
  assert (Hlow : ∀ a, a < 3 * maxNum w → mem_word (memory w') a = mem_word (memory w) a).
  { intros a Ha. unfold w'. cbn [memory set_memory]. apply put_words_other. lia. }
  assert (Hc : ∀ i, ta_get (current w') (memory w') i = ta_get (current w) (memory w) i).
  { intros i. change (current w') with (current w). apply ta_get_ext.
    intros a Ha. apply Hlow. cbn [base len current] in Ha. rewrite Hstride in Ha. lia. }
  split; [done|]. split; [|split; [|split]].
  - intros i. change (previous w') with (previous w). apply ta_get_ext.
    intros a Ha. apply Hlow. rewrite previous_base in Ha.
    cbn [len previous] in Ha. rewrite Hstride in Ha. lia.
  - intros i. change (mutations w') with (mutations w). apply ta_get_ext.
    intros a Ha. apply Hlow. rewrite mutations_base in Ha.
    cbn [len mutations] in Ha. rewrite Hstride in Ha. lia.
  - by apply current_ext_hasFlag.
  - done.
Qed.

Lemma iterateAll_writes_scratch_only_witness :
  stride four_created = 1
  ∧ ∃ n w',
      iterateAll 4 (Some [Some 1]) None four_created = (Ok n, w')
      ∧ 0 ≤ n ≤ maxEntities four_created
      ∧ (∀ id type, hasFlag w' id type = hasFlag four_created id type)
      ∧ events w' = events four_created.
Proof.
  assert (Hs : stride four_created = 1) by reflexivity.
  assert (Hmax : 1 ≤ maxEntities four_created)
    by (change (maxEntities four_created) with 4; lia).
  assert (Hsize : 16 * maxNum four_created ≤ 2 ^ 32)
    by (change (maxNum four_created) with 5; lia).
  assert (Hfuel : (Z.to_nat (maxEntities four_created) ≤ 4)%nat)
    by (change (maxEntities four_created) with 4; lia).
  split; [exact Hs|].
  destruct (iterateAll_writes_scratch_only four_created (Some [Some 1]) None 4
              Hs Hmax Hsize Hfuel)
    as (n & w' & H1 & H2 & _ & _ & _ & H3 & H4 & _).
  exists n, w'. auto.
Defined.

(** *** A store without a slot *)

Module KernelTrap.
Import Kernel.

(** With [segSize = 4] the loop starts past its exit test and runs to the
    end of the memory, where a load traps; [j] is the turn. *)
Lemma loop_runs_off (n : nat) : ∀ j l m fuel,
  Z.of_nat n = 16384 - j → 1 ≤ j →
  segSize l = 4 → currOffset l = 4 * j → (n < fuel)%nat →
  fst (loop fuel 65536 l m) = Throw WasmTrap.
Proof.
  induction n as [|n IH]; intros j l m fuel Hn Hj Hseg Hcur Hfuel;
    (destruct fuel as [|fuel]; [lia|]); cbn [loop].
  - (* the load of this turn is at the end of the memory *)
    unfold bind at 1. unfold turn, bind at 1. unfold load at 1.
    rewrite Hcur. replace j with 16384 by lia. done.
  - assert (Hld : ∀ m', load 65536 (currOffset l) m'
                        = (Ok (mem_word m' (currOffset l / 4)), m')).
    { intros m'. apply KernelFacts.load_ok; rewrite Hcur; [lia|].
      rewrite Z.mul_comm. apply Z.mod_mul. lia. }
    unfold bind at 1. unfold turn.
    rewrite (bind_run _ _ _ _ _ (Hld m)). rewrite (bind_run _ _ _ _ _ (Hld m)).
    set (cond := Z.land _ _).
    destruct (negb (cond =? 0)).
    + unfold bind at 1. unfold bind at 1. unfold store at 1.
      destruct ((filtOffset l + 4 <=? 65536) && (filtOffset l mod 4 =? 0)); [|done].
      cbn [ret fst snd currOffset segSize]. rewrite Hseg, Hcur.
      assert (Hi : i32 (4 * j + 4) = 4 * (j + 1)).
      { rewrite KernelFacts.i32_small; [lia|]. assert (2 ^ 32 = 4294967296) by done. lia. }
      rewrite Hi. destruct (Z.eqb_spec (4 * (j + 1)) 4); [lia|].
      apply (IH (j + 1)); try done; lia.
    + unfold bind at 1. cbn [ret fst snd currOffset segSize]. rewrite Hseg, Hcur.
      assert (Hi : i32 (4 * j + 4) = 4 * (j + 1)).
      { rewrite KernelFacts.i32_small; [lia|]. assert (2 ^ 32 = 4294967296) by done. lia. }
      rewrite Hi. destruct (Z.eqb_spec (4 * (j + 1)) 4); [lia|].
      apply (IH (j + 1)); try done; lia.
Qed.

End KernelTrap.

(** X19: on a store built for no entity, with one word of flags per slot,
    [iterateAll] does not return an empty result: its kernel starts on the
    word after the flag segment, so the test that ends the loop never holds,
    and the loop runs through the memory up to its end, where a load traps.
    The call ends in the trap, whatever the masks and the memory hold. *)
Theorem iterateAll_traps_without_slots
    (w : World) (pm nm : option (list jsnum)) (fuel : nat)
    (Hmax : maxEntities w = 0)
    (Hstride : stride w = 1)
    (Hfuel : (Z.to_nat 16384 ≤ fuel)%nat) :
  fst (iterateAll fuel pm nm w) = Throw WasmTrap.
Proof.
  unfold maxEntities in Hmax.
  assert (Hseg : flagSegmentSize w = 4) by (unfold flagSegmentSize; nia).
  assert (Hblocks : blocks w * 2 ^ 16 = 65536).
  { unfold blocks, filterSegmentSize, maxEntities. rewrite Hseg.
    replace (maxNum w - 1) with 0 by lia. done. }
  unfold iterateAll. unfold bind at 1. unfold get at 1.
  rewrite Hblocks, Hseg.
  unfold bind at 1. unfold on_memory, Kernel.iterateAll.
  unfold bind at 1.
  set (l0 := {| Kernel.segSize := _ |}).
  pose proof (KernelTrap.loop_runs_off (Z.to_nat 16383) 1 l0 (memory w) fuel) as H.
  destruct (Kernel.loop fuel 65536 l0 (memory w)) as [[l|e|] m] eqn:E;
    cbn [fst] in H; specialize (H ltac:(lia) ltac:(lia) eq_refl eq_refl ltac:(lia));
    try done.
  by injection H as ->.
Qed.

Lemma iterateAll_traps_without_slots_witness :
  maxEntities no_slot = 0
  ∧ stride no_slot = 1
  ∧ fst (iterateAll (Z.to_nat 16384) None None no_slot) = Throw WasmTrap.
Proof.
  assert (Hm : maxEntities no_slot = 0) by reflexivity.
  assert (Hs : stride no_slot = 1) by reflexivity.
  assert (Hf : (Z.to_nat 16384 ≤ Z.to_nat 16384)%nat) by lia.
  split; [exact Hm|]. split; [exact Hs|].
  exact (iterateAll_traps_without_slots no_slot None None (Z.to_nat 16384) Hm Hs Hf).
Defined.

(** ** [delete()] *)

Lemma shrinks_refl w : shrinks w w.
Proof. done. Qed.

Lemma shrinks_trans a b c : shrinks a b → shrinks b c → shrinks a c.
Proof.
  intros (M1 & T1 & H1 & R1 & F1) (M2 & T2 & H2 & R2 & F2).
  repeat split; try congruence. intros id type H. by apply F1, F2.
Qed.

Lemma same_presence_shrinks w w' : same_presence w w' → shrinks w w'.
Proof.
  intros H. pose proof H as (M & T & _ & _ & Hh & R & _).
  repeat split; try done. intros id type. by rewrite (same_presence_hasFlag _ _ _ _ H).
Qed.

Lemma land_clear_le c f f' : Z.land (Z.land c (Z.lnot f)) f' ≠ 0 → Z.land c f' ≠ 0.
Proof.
  intros H H0. apply H. apply Z.bits_inj'. intros n Hn.
  assert (Hb : Z.testbit (Z.land c f') n = false) by (by rewrite H0, Z.bits_0).
  rewrite Z.land_spec in Hb.
  rewrite !Z.land_spec, Z.lnot_spec, Z.bits_0 by done.
  by destruct (Z.testbit c n), (Z.testbit f n), (Z.testbit f' n).
Qed.

Lemma clearFlag_shrinks id type : frame shrinks (clearFlag id type).
Proof.
  intros w. repeat split. intros id' type'.
  unfold clearFlag, modify. cbn [snd]. rewrite hasFlag_put.
  case_bool_decide as E; [|done]. destruct E as [-> [c Hc]].
  unfold hasFlag. rewrite Hc. rewrite js_and_int32. unfold js_and. cbn [js_int32].
  rewrite js_not_int32. unfold js_not. cbn [js_int32].
  rewrite !negb_true_iff, !Z.eqb_neq. apply land_clear_le.
Qed.

Lemma frame_presence_shrinks {A} (m : St A) : frame same_presence m → frame shrinks m.
Proof. intros H w. apply same_presence_shrinks, H. Qed.

Lemma remove_inner_shrinks this type : frame shrinks (Entity.__remove this type).
Proof.
  unfold Entity.__remove, Entity.__wipeInboundRefs.
  repeat frame_step shrinks_refl shrinks_trans;
    auto using clearFlag_shrinks, frame_presence_shrinks, deindex_presence.
Qed.

Lemma delete_loop_shrinks this ts : frame shrinks (Entity.delete_loop this ts).
Proof.
  induction ts as [|type ts IH]; cbn [Entity.delete_loop];
    repeat frame_step shrinks_refl shrinks_trans;
    auto using remove_inner_shrinks, frame_presence_shrinks, checkMask_presence.
Qed.

Lemma shrinks_id_of w w' this : shrinks w w' → Entity.id_of w' this = Entity.id_of w this.
Proof. intros (_ & _ & Hh & _). unfold Entity.id_of. by rewrite Hh. Qed.

Lemma shrinks_absent w w' id type :
  shrinks w w' → hasFlag w id type = false → hasFlag w' id type = false.
Proof.
  intros (_ & _ & _ & _ & H) Hf. destruct (hasFlag w' id type) eqn:E; [|done].
  apply H in E. congruence.
Qed.

(** [__remove] where it succeeds: the flag is clear afterwards. *)
Lemma remove_inner_Ok this type w b w' :
  Entity.__remove this type w = (Ok b, w') →
  hasFlag w' (Entity.id_of w this) type = false.
Proof.
  intros H. unfold Entity.__remove in H.
  apply bind_Ok in H as ([] & w1 & Hd & H).
  pose proof (deindex_presence this type w) as Hp. rewrite Hd in Hp. cbn [snd] in Hp.
  apply bind_Ok in H as (id & w1' & Hg & H). injection Hg as <- <-.
  apply bind_Ok in H as ([] & w2 & Hc & H).
  apply bind_Ok in H as (al & w3 & Hg & H). injection Hg as <- <-.
  apply bind_Ok in H as ([] & w4 & Hwipe & H). injection H as <- <-.
  assert (w4 = w2) as -> by (destruct (negb _); by injection Hwipe).
  rewrite <- (same_presence_id_of _ _ this Hp).
  replace w2 with (snd (clearFlag (Entity.id_of w1 this) type w1)) by (by rewrite Hc).
  apply hasFlag_clearFlag.
Qed.

Lemma delete_loop_Ok this ts : ∀ w w',
  Entity.delete_loop this ts w = (Ok tt, w') →
  ∀ type, type ∈ ts → hasFlag w' (Entity.id_of w this) type = false.
Proof.
  induction ts as [|t ts IH]; intros w w' H type Hin; [by apply elem_of_nil in Hin|].
  cbn [Entity.delete_loop] in H.
  apply bind_Ok in H as (present & w0 & Hg & H). injection Hg as <- <-.
  apply bind_Ok in H as ([] & w1 & Hstep & H).
  assert (Hs1 : shrinks w w1).
  { destruct (hasFlag w (Entity.id_of w this) t); cbn [negb] in Hstep.
    - pose proof (frame_bind shrinks shrinks_trans (Entity.__checkMask t true)
                    (fun _ => Entity.__remove this t ;; ret tt)) as Hf.
      specialize (Hf (frame_presence_shrinks _ (checkMask_presence t true))).
      assert (Hk : ∀ a : unit, frame shrinks (Entity.__remove this t ;; ret tt)).
      { intros _. apply (frame_bind _ shrinks_trans); [apply remove_inner_shrinks|].
        intros ?. apply (frame_ret _ shrinks_refl). }
      specialize (Hf Hk w). by rewrite Hstep in Hf.
    - by injection Hstep as <-. }
  pose proof (delete_loop_shrinks this ts w1) as Hs2. rewrite H in Hs2. cbn [snd] in Hs2.
  pose proof (shrinks_id_of _ _ this Hs1) as Hid1.
  apply elem_of_cons in Hin as [->|Hin].
  - apply (shrinks_absent _ _ _ _ Hs2).
    destruct (hasFlag w (Entity.id_of w this) t) eqn:Ef; cbn [negb] in Hstep.
    + apply bind_Ok in Hstep as ([] & w0 & Hc & Hstep).
      pose proof (checkMask_same t true w) as Hcs. rewrite Hc in Hcs. cbn [snd] in Hcs.
      subst w0.
      apply bind_Ok in Hstep as (b & w0 & Hr & Hstep). injection Hstep as <-.
      by apply remove_inner_Ok in Hr.
    + injection Hstep as <-. done.
  - rewrite <- Hid1. by apply (IH w1 w').
Qed.

(** [__remove] where nothing is denied. *)
Lemma remove_inner_run this type w :
  may w true type = true → may w false type = true →
  hasFlag w (Entity.id_of w this) type = true →
  ∃ w', Entity.__remove this type w = (Ok true, w') ∧ rwMasks w' = rwMasks w.
Proof.
  intros Hw Hr Hf.
  destruct (deindex_run this type w Hw (fun _ => Hr) Hf) as (w1 & Hd & _ & _ & Hid & Hrw).
  unfold Entity.__remove.
  rewrite (bind_run _ _ _ _ _ Hd).
  unfold bind at 1. unfold gets at 1.
  unfold bind at 1. unfold clearFlag at 1, modify at 1.
  unfold bind at 1. unfold gets at 1.
  eexists. split.
  - destruct (negb _); reflexivity.
  - done.
Qed.

Lemma delete_loop_run this ts : ∀ w,
  rwMasks w = None → ∃ w', Entity.delete_loop this ts w = (Ok tt, w') ∧ rwMasks w' = None.
Proof.
  induction ts as [|t ts IH]; intros w Hrw; [by exists w|].
  cbn [Entity.delete_loop]. unfold bind at 1. unfold gets at 1.
  destruct (hasFlag w (Entity.id_of w this) t) eqn:Ef; cbn [negb].
  - assert (Hm : ∀ b, may w b t = true) by (intros b; unfold may; by rewrite Hrw).
    destruct (remove_inner_run this t w (Hm true) (Hm false) Ef) as (w1 & Hr & Hrw1).
    unfold bind at 1. unfold bind at 1.
    rewrite (checkMask_allowed _ _ _ (Hm true)).
    unfold bind at 1. rewrite Hr. cbn [ret].
    apply IH. congruence.
  - unfold bind at 1. cbn [ret]. by apply IH.
Qed.

(** X20: when [delete()] returns, the entity has none of the store's
    component types left, and no flag has appeared anywhere; the handle is
    still bound to the same slot.  While no system is executing, [delete()]
    always returns. *)
Theorem delete_removes_every_component (w : World) (this : nat) :
  (∀ w', Entity.delete this w = (Ok tt, w') →
     (∀ type, type ∈ types w → hasFlag w' (Entity.id_of w this) type = false)
     ∧ Entity.id_of w' this = Entity.id_of w this
     ∧ (∀ id type, hasFlag w' id type = true → hasFlag w id type = true))
  ∧ (rwMasks w = None → ∃ w', Entity.delete this w = (Ok tt, w')).
Proof.
  split.
  - intros w' H. unfold Entity.delete in H.
    apply bind_Ok in H as (ts & w0 & Hg & H). injection Hg as <- <-.
    pose proof (delete_loop_shrinks this (types w) w) as Hs. rewrite H in Hs. cbn [snd] in Hs.
    split; [by apply delete_loop_Ok|]. split; [by apply shrinks_id_of|].
    by destruct Hs as (_ & _ & _ & _ & Hs).
  - intros Hrw. unfold Entity.delete. unfold bind, gets.
    destruct (delete_loop_run this (types w) w Hrw) as (w' & H & _). eauto.
Qed.

(** ** The constructor *)

Lemma stride_nonneg w : 0 ≤ stride w.
Proof.
  unfold stride, ceil_div.
  assert (- Z.of_nat (length (types w)) / 32 ≤ 0); [|lia].
  apply Z.div_le_upper_bound; lia.
Qed.

Lemma stride_covers w : Z.of_nat (length (types w)) ≤ 32 * stride w.
Proof.
  unfold stride. pose proof (ceil_div_mul (Z.of_nat (length (types w))) 32). lia.
Qed.

(** X21: the four typed arrays the constructor lays out on the memory do not
    overlap and end within the pages it asks for, whatever the number of
    entities and of component types; and the stride gives every component
    type a bit: 32 bits for each word of a slot. *)
Theorem buffers_do_not_overlap (w : World) (Hmax : 0 ≤ maxEntities w) :
  apart (current w) (previous w)
  ∧ apart (current w) (mutations w)
  ∧ apart (current w) (filtered w)
  ∧ apart (previous w) (mutations w)
  ∧ apart (previous w) (filtered w)
  ∧ apart (mutations w) (filtered w)
  ∧ 0 ≤ base (current w)
  ∧ 4 * (base (filtered w) + len (filtered w)) ≤ blocks w * 2 ^ 16
  ∧ Z.of_nat (length (types w)) ≤ 32 * stride w.
Proof.
  unfold maxEntities in Hmax.
  pose proof (stride_nonneg w) as Hs.
  assert (Hlen : 0 ≤ maxNum w * stride w) by nia.
  unfold apart. rewrite previous_base, mutations_base, filtered_base.
  cbn [base len current previous mutations filtered]. unfold maxEntities.
  repeat split; try lia.
  - unfold blocks, filterSegmentSize, flagSegmentSize, maxEntities.
    etrans; [|apply ceil_div_mul; lia]. lia.
  - apply stride_covers.
Qed.

Lemma buffers_do_not_overlap_witness :
  0 ≤ maxEntities demo
  ∧ apart (current demo) (previous demo)
  ∧ apart (mutations demo) (filtered demo)
  ∧ 4 * (base (filtered demo) + len (filtered demo)) ≤ blocks demo * 2 ^ 16.
Proof.
  assert (H : 0 ≤ maxEntities demo) by (change (maxEntities demo) with 4; lia).
  split; [exact H|].
  destruct (buffers_do_not_overlap demo H) as (H1 & _ & _ & _ & _ & H2 & _ & H3 & _).
  auto.
Defined.

Lemma Entities_fields n ts rw :
  maxNum (Entities n ts rw) = n + 1
  ∧ nextId (Entities n ts rw) = 1
  ∧ memory (Entities n ts rw) = ∅
  ∧ rwMasks (Entities n ts rw) = rw
  ∧ events (Entities n ts rw) = []
  ∧ length (types (Entities n ts rw)) = length ts
  ∧ pool_wf (Entities n ts rw).
Proof.
  unfold Entities, pool_wf.
  pose proof (PoolFacts.new_wf newEntity 20 []) as Hwf.
  destruct (Pool.new newEntity 20 []) as [p h].
  cbn [maxNum nextId memory rwMasks events types pool heap].
  repeat split; try done; try apply Hwf. by rewrite length_imap.
Qed.

Lemma mem_word_empty a : mem_word ∅ a = 0.
Proof. unfold mem_word. by rewrite lookup_empty. Qed.

(** X22: a store fresh from the constructor holds nothing: no entity has any
    component, every slot of [1, maxEntities] is free, the cursor is on slot
    1 and the pool of handles is well formed; so the first [createEntity()]
    returns a handle bound to slot 1. *)
Theorem fresh_store_is_empty
    (maxEntities_ : Z) (types_ : list (string * list Field)) (rw : option ReadWriteMasks)
    (fuel : nat)
    (Hmax : 1 ≤ maxEntities_)
    (Hfuel : (Z.to_nat maxEntities_ ≤ fuel)%nat) :
  let w := Entities maxEntities_ types_ rw in
  maxEntities w = maxEntities_
  ∧ stride w = ceil_div (Z.of_nat (length types_)) 32
  ∧ nextId w = 1
  ∧ pool_wf w
  ∧ (∀ id type, hasFlag w id type = false)
  ∧ (∀ id, 1 ≤ id ≤ maxEntities_ → free w id = true)
  ∧ ∃ e w', createEntity fuel None w = (Ok e, w')
      ∧ Entity.id_of w' e = Some 1
      ∧ nextId w' = (if maxEntities_ =? 1 then 1 else 2).
Proof.
  intros w.
  destruct (Entities_fields maxEntities_ types_ rw) as (Hmn & Hnx & Hmem & Hrw & _ & Hlen & Hwf).
  fold w in Hmn, Hnx, Hmem, Hrw, Hlen, Hwf.
  assert (Hget : ∀ v i, ta_get v (memory w) i = undefined ∨ ta_get v (memory w) i = Some 0).
  { intros v [i|]; [|by left]. unfold ta_get. case_bool_decide; [|by left].
    right. by rewrite Hmem, mem_word_empty. }
  assert (Hfree : ∀ id, 1 ≤ id ≤ maxEntities_ → free w id = true).
  { intros id Hid. unfold free.
    assert (Hna : ∀ v, len v = maxNum w * stride w →
                       isAllocated w (Some id) v = false).
    { intros v Hv. apply not_true_is_false. rewrite isAllocated_true.
      intros (offset & Ho & Hne). apply Hne.
      unfold ta_get, slot_index, slot_base. rewrite Hv.
      rewrite bool_decide_eq_true_2 by nia. by rewrite Hmem, mem_word_empty. }
    by rewrite !Hna. }
  split; [unfold maxEntities; lia|]. split; [unfold stride; by rewrite Hlen|].
  split; [done|]. split; [done|]. split.
  { intros id type. unfold hasFlag.
    destruct (Hget (current w) (flag_index w id type)) as [-> | ->]; done. }
  split; [done|].
  assert (Hid : 1 ≤ nextId w < maxNum w) by lia.
  assert (Hscan : List.find (free w) (scan_order w) = Some 1).
  { unfold scan_order. rewrite Hnx, Hmn.
    replace (maxEntities_ + 1 - 1) with (maxEntities_ - 1 + 1) by lia.
    rewrite seqZ_S_front by lia. cbn [app List.find]. by rewrite Hfree by lia. }
  pose proof (createEntity_scan w None fuel Hid) as Hrun.
  rewrite Hscan in Hrun. rewrite Hmn in Hrun.
  replace (maxEntities_ + 1 - 1) with maxEntities_ in Hrun by lia.
  specialize (Hrun Hfuel).
  destruct (bindEntity_spec (Some 1) w Hwf) as (e & w1 & Hb & _ & _ & Hide & Hwf1 & _).
  pose proof (bindEntity_Ok _ _ _ _ Hb) as (_ & Hmn1 & _).
  exists e, (set_nextId (next_slot w1 1) w1). split.
  - rewrite Hrun. unfold allocate. rewrite (bind_run _ _ _ _ _ Hb). done.
  - split; [done|]. cbn [nextId set_nextId]. unfold next_slot. rewrite Hmn1, Hmn.
    destruct (Z.eqb_spec (1 + 1) (maxEntities_ + 1)), (Z.eqb_spec maxEntities_ 1); lia.
Qed.

Lemma fresh_store_is_empty_witness :
  1 ≤ 4
  ∧ free demo 4 = true
  ∧ ∃ e w', createEntity 4 None demo = (Ok e, w') ∧ Entity.id_of w' e = Some 1.
Proof.
  assert (H : 1 ≤ 4) by lia.
  assert (Hf : (Z.to_nat 4 ≤ 4)%nat) by lia.
  split; [exact H|].
  destruct (fresh_store_is_empty 4 [("A", fieldsA); ("B", [])] None 4 H Hf)
    as (_ & _ & _ & _ & _ & H1 & e & w' & H2 & H3 & _).
  split; [apply H1; lia|]. exists e, w'. auto.
Defined.

(** ** Queries against [hasFlag] *)

Lemma match_only_negative w id entities type :
  match_ w id entities None (Some (only type)) = true
  ↔ js_and (ta_get entities (memory w) (flag_index w id type))
           (Some (ToInt32 (flagMask type))) = 0.
Proof.
  unfold match_. cbn [andb]. rewrite match_negative_true. unfold only. split.
  - intros H.
    specialize (H (flagOffset type) (Some (ToInt32 (flagMask type)))).
    rewrite lookup_app_r, length_replicate, Nat.sub_diag in H
      by (by rewrite length_replicate).
    specialize (H eq_refl).
    unfold flag_index, slot_index. unfold slot_word in H.
    by destruct (slot_base w id).
  - intros H i maskByte Hi.
    destruct (Nat.lt_ge_cases i (flagOffset type)) as [Hlt|Hge].
    + rewrite lookup_app_l in Hi by (by rewrite length_replicate).
      apply lookup_replicate in Hi as [-> _].
      unfold js_and. cbn [js_int32]. change (ToInt32 0) with 0. by rewrite Z.land_0_r.
    + rewrite lookup_app_r in Hi by (by rewrite length_replicate).
      rewrite length_replicate in Hi.
      destruct (i - flagOffset type)%nat as [|k] eqn:Ek; [|by destruct k].
      injection Hi as <-. assert (i = flagOffset type) as -> by lia.
      unfold flag_index, slot_index in H. unfold slot_word.
      by destruct (slot_base w id).
Qed.

Lemma js_and_ToInt32_r a f : js_and a (Some (ToInt32 f)) = js_and a (Some f).
Proof. unfold js_and. cbn [js_int32]. by rewrite ToInt32_idem. Qed.

(** X23: queries and [hasFlag] agree.  With the mask of one type as the
    negative mask, [matchCurrent] answers [true] exactly for the slots on
    which [hasFlag] answers [false]; with it as the positive mask,
    [matchCurrent] answers [true] only where [hasFlag] does, and it does so
    on every slot once [setFlag] has set the flag there. *)
Theorem queries_agree_with_hasFlag (w : World) (id : jsnum) (type : ComponentType) :
  matchCurrent w id None (Some (only type)) = negb (hasFlag w id type)
  ∧ (ToInt32 (flagMask type) ≠ 0 →
     matchCurrent w id (Some (only type)) None = true → hasFlag w id type = true)
  ∧ (is_Some (ta_get (current w) (memory w) (flag_index w id type)) →
     matchCurrent (snd (setFlag id type w)) id (Some (only type)) None = true
     ∧ matchCurrent (snd (clearFlag id type w)) id None (Some (only type)) = true).
Proof.
  split; [|split].
  - apply eq_true_iff_eq. unfold matchCurrent.
    rewrite match_only_negative, js_and_ToInt32_r, negb_true_iff.
    unfold hasFlag. rewrite negb_false_iff. symmetry. apply Z.eqb_eq.
  - intros Hnz H. unfold matchCurrent in H. rewrite match_only, js_and_ToInt32_r in H.
    unfold hasFlag. rewrite H. by apply negb_true_iff, Z.eqb_neq.
  - intros Hin. split.
    + unfold matchCurrent. apply match_only. rewrite js_and_ToInt32_r.
      unfold setFlag, modify. cbn [snd memory set_memory].
      change (current (set_memory _ w)) with (current w).
      change (flag_index (set_memory ?m w)) with (flag_index w).
      rewrite ta_get_ta_put_same by done.
      unfold js_and. cbn [js_int32]. rewrite ToInt32_ToUint32, js_or_int32.
      unfold js_or. cbn [js_int32]. apply land_set.
    + unfold matchCurrent. apply match_only_negative. rewrite js_and_ToInt32_r.
      pose proof (hasFlag_clearFlag w id type) as H. unfold hasFlag in H.
      by apply negb_false_iff, Z.eqb_eq in H.
Qed.

(** ** Bad arguments to [createEntity] *)

(** X24: an element of [initialComponents] that is not a component class
    where one is expected makes [createEntity] throw.  At the head of the
    list nothing has been attached by then: the flag buffers and the cursor
    are as before.  After a class and its values, the class has been attached
    by then and stays so, the cursor being where it was. *)
Theorem createEntity_rejects_stray_values
    (w : World) (type : ComponentType) (values stray : list (string * FieldVal))
    (rest : list InitItem) (fuel : nat)
    (Hwf : pool_wf w)
    (Hid : 1 ≤ nextId w < maxNum w)
    (Hfuel : (Z.to_nat (maxNum w - 1) ≤ fuel)%nat)
    (Hreg : registered w type)
    (Hw : may w true type = true)
    (Hr : may w false type = true)
    (Hfree : ∃ k, 1 ≤ k < maxNum w ∧ free w k = true) :
  (∃ w', createEntity fuel (Some (ItemValues stray :: rest)) w = (Throw BadArguments, w')
     ∧ memory w' = memory w ∧ nextId w' = nextId w)
  ∧ (∃ k w',
       createEntity fuel (Some (ItemType type :: ItemValues values :: ItemValues stray :: rest)) w
       = (Throw BadArguments, w')
       ∧ free w k = true
       ∧ hasFlag w' (Some k) type = true
       ∧ nextId w' = nextId w).
Proof.
  destruct Hreg as [Hoff Hnz].
  rewrite !createEntity_scan by done.
  destruct (List.find (free w) (scan_order w)) as [k|] eqn:Ef.
  2:{ destruct Hfree as (k & Hk & Hf). rewrite find_free_None in Ef.
      rewrite (Ef k) in Hf; [done|]. by apply scan_order_elem. }
  apply find_free_Some in Ef as [Hin Hf]. apply scan_order_elem in Hin; [|done].
  destruct (bindEntity_spec (Some k) w Hwf) as (e & w1 & Hb & _ & _ & Hide & Hwf1 & _).
  pose proof (bindEntity_Ok _ _ _ _ Hb) as (Hmem & Hmn & Hty & Hnx & Hrw & _).
  split.
  - exists w1. unfold allocate. rewrite (bind_run _ _ _ _ _ Hb). done.
  - assert (Hst : stride w1 = stride w) by (unfold stride; by rewrite Hty).
    assert (Hw1 : may w1 true type = true) by (unfold may in *; by rewrite Hrw).
    assert (Hr1 : may w1 false type = true) by (unfold may in *; by rewrite Hrw).
    assert (Hf1 : hasFlag w1 (Entity.id_of w1 e) type = false).
    { rewrite Hide. rewrite (hasFlag_ext w w1) by (by rewrite ?Hmem).
      by apply free_hasFlag. }
    set (w2 := snd (initComponent type (Some k) values (snd (setFlag (Some k) type w1)))).
    assert (Hadd : Entity.add e type values w1 = (Ok e, w2)).
    { rewrite add_run by done. by rewrite Hide. }
    assert (Hin1 : is_Some (ta_get (current w1) (memory w1) (flag_index w1 (Some k) type))).
    { apply flag_index_range; [by rewrite Hst|]. rewrite Hmn. lia. }
    assert (Hf2 : hasFlag w2 (Some k) type = true).
    { rewrite <- (hasFlag_setFlag w1 (Some k) type Hin1 Hnz). by apply hasFlag_ext. }
    exists k, w2. split; [|done].
    unfold allocate. rewrite (bind_run _ _ _ _ _ Hb).
    assert (Hai : add_initial e (ItemType type :: ItemValues values :: ItemValues stray :: rest) w1
                  = (Throw BadArguments, w2)).
    { change (add_initial e (ItemType type :: ItemValues values :: ItemValues stray :: rest))
        with (Entity.add e type values ;; add_initial e (ItemValues stray :: rest)).
      rewrite (bind_run _ _ _ _ _ Hadd). done. }
    by rewrite (bind_throw _ _ _ _ _ Hai).
Qed.

Lemma createEntity_rejects_stray_values_witness :
  pool_wf demo
  ∧ (∃ w', createEntity 4 (Some [ItemValues []]) demo = (Throw BadArguments, w')
       ∧ memory w' = memory demo ∧ nextId w' = nextId demo)
  ∧ ∃ k w',
      createEntity 4 (Some [ItemType compA; ItemValues []; ItemValues []]) demo
      = (Throw BadArguments, w')
      ∧ free demo k = true
      ∧ hasFlag w' (Some k) compA = true
      ∧ nextId w' = nextId demo.
Proof.
  assert (Hwf : pool_wf demo) by (apply (bool_decide_unpack _); vm_compute; exact I).
  assert (Hid : 1 ≤ nextId demo < maxNum demo).
  { change (nextId demo) with 1. change (maxNum demo) with 5. lia. }
  assert (Hfuel : (Z.to_nat (maxNum demo - 1) ≤ 4)%nat).
  { change (maxNum demo) with 5. lia. }
  assert (Hreg : registered demo compA) by (split; [reflexivity|discriminate]).
  assert (Hfree : ∃ k, 1 ≤ k < maxNum demo ∧ free demo k = true).
  { exists 1. change (maxNum demo) with 5. split; [lia|reflexivity]. }
  split; [exact Hwf|].
  exact (createEntity_rejects_stray_values demo compA [] [] [] 4 Hwf Hid Hfuel Hreg
           eq_refl eq_refl Hfree).
Defined.

(** ** The decorators *)

Module DecoratorFacts.
Import Decorators.

Lemma decorated_group g scheduler c r :
  decorated (ArgGroup g) scheduler c r
  = system_decorator {| d_group := Some g; d_scheduler := scheduler |} c
      (if bool_decide (SystemGroup g ∈ systemTypes r) then r
       else push_system (SystemGroup g) r).
Proof. done. Qed.

Lemma decorated_systemTypes g scheduler c r :
  systemTypes (decorated (ArgGroup g) scheduler c r)
  = systemTypes r
    ++ (if bool_decide (SystemGroup g ∈ systemTypes r) then [] else [SystemGroup g])
    ++ [SystemType c].
Proof.
  rewrite decorated_group. unfold system_decorator. cbn [d_group d_scheduler].
  case_bool_decide; destruct scheduler; cbn [systemTypes push_system];
    by rewrite <- ?app_assoc.
Qed.

Lemma decorated_contents g scheduler c r g' :
  contents_of (decorated (ArgGroup g) scheduler c r) g'
  = if bool_decide (g' = g) then contents_of r g ++ [c] else contents_of r g'.
Proof.
  rewrite decorated_group. unfold system_decorator, contents_of. cbn [d_group d_scheduler].
  destruct (bool_decide (SystemGroup g ∈ systemTypes r));
    destruct scheduler; cbn [__contents push_system];
    (destruct (decide (g' = g)) as [->|Hne];
     [by rewrite bool_decide_eq_true_2, lookup_insert_eq
     |by rewrite bool_decide_eq_false_2, lookup_insert_ne]).
Qed.

Lemma decorated_scheduler g scheduler c r c' :
  __staticScheduler (decorated (ArgGroup g) scheduler c r) !! c'
  = match scheduler with
    | Some s => if bool_decide (c' = c) then Some s else __staticScheduler r !! c'
    | None => __staticScheduler r !! c'
    end.
Proof.
  rewrite decorated_group. unfold system_decorator. cbn [d_group d_scheduler].
  destruct (bool_decide (SystemGroup g ∈ systemTypes r));
    destruct scheduler; cbn [__staticScheduler push_system]; try done;
    (destruct (decide (c' = c)) as [->|Hne];
     [by rewrite bool_decide_eq_true_2, lookup_insert_eq
     |by rewrite bool_decide_eq_false_2, lookup_insert_ne]).
Qed.

End DecoratorFacts.

(** X25: [@system(group)] on one class after the other registers the group
    once, before its first member, and every class after it in the order of
    the decorations: a group that is in [systemTypes] already is not pushed
    again.  Each class is appended to the group's [__contents], no other
    group's contents change, and a scheduler given with the group becomes the
    [__staticScheduler] of every decorated class. *)
Theorem system_registers_group_once
    (g : string) (scheduler : option string) (cs : list string) (r : Decorators.Registry)
    (Hcs : cs ≠ []) :
  let r' := foldl (fun r c => Decorators.decorated (Decorators.ArgGroup g) scheduler c r) r cs in
  Decorators.systemTypes r'
  = Decorators.systemTypes r
    ++ (if bool_decide (Decorators.SystemGroup g ∈ Decorators.systemTypes r)
        then [] else [Decorators.SystemGroup g])
    ++ (Decorators.SystemType <$> cs)
  ∧ Decorators.contents_of r' g = Decorators.contents_of r g ++ cs
  ∧ (∀ g', g' ≠ g → Decorators.contents_of r' g' = Decorators.contents_of r g')
  ∧ (∀ c s, c ∈ cs → scheduler = Some s → Decorators.__staticScheduler r' !! c = Some s).
Proof.
  intros r'. subst r'.
  destruct cs as [|c0 cs]; [done|]. clear Hcs. cbn [foldl].
  (* after the first decoration the group is registered *)
  set (r1 := Decorators.decorated (Decorators.ArgGroup g) scheduler c0 r).
  assert (Hin1 : Decorators.SystemGroup g ∈ Decorators.systemTypes r1).
  { unfold r1. rewrite DecoratorFacts.decorated_systemTypes.
    case_bool_decide as E.
    - apply elem_of_app. by left.
    - apply elem_of_app. right. apply elem_of_cons. by left. }
  assert (Hrest : ∀ cs r1,
    Decorators.SystemGroup g ∈ Decorators.systemTypes r1 →
    let r' := foldl (fun r c => Decorators.decorated (Decorators.ArgGroup g) scheduler c r)
                r1 cs in
    Decorators.systemTypes r' = Decorators.systemTypes r1 ++ (Decorators.SystemType <$> cs)
    ∧ Decorators.contents_of r' g = Decorators.contents_of r1 g ++ cs
    ∧ (∀ g', g' ≠ g → Decorators.contents_of r' g' = Decorators.contents_of r1 g')
    ∧ (∀ c s, scheduler = Some s →
         Decorators.__staticScheduler r' !! c
         = if bool_decide (c ∈ cs) then Some s else Decorators.__staticScheduler r1 !! c)).
  { clear. intros cs. induction cs as [|c cs IH]; intros r1 Hin; cbn [foldl].
    - cbn zeta. rewrite !app_nil_r. repeat split; try done.
    - set (r2 := Decorators.decorated (Decorators.ArgGroup g) scheduler c r1).
      assert (Hst2 : Decorators.systemTypes r2
                     = Decorators.systemTypes r1 ++ [Decorators.SystemType c]).
      { unfold r2. rewrite DecoratorFacts.decorated_systemTypes.
        by rewrite bool_decide_eq_true_2. }
      assert (Hin2 : Decorators.SystemGroup g ∈ Decorators.systemTypes r2).
      { rewrite Hst2. apply elem_of_app. by left. }
      destruct (IH r2 Hin2) as (H1 & H2 & H3 & H4).
      split; [|split; [|split]].
      + rewrite H1, Hst2, fmap_cons, <- app_assoc. done.
      + rewrite H2. unfold r2. rewrite DecoratorFacts.decorated_contents.
        rewrite bool_decide_eq_true_2 by done. by rewrite <- app_assoc.
      + intros g' Hg'. rewrite H3 by done. unfold r2.
        rewrite DecoratorFacts.decorated_contents. by rewrite bool_decide_eq_false_2.
      + intros c' s Hs. rewrite (H4 c' s Hs). unfold r2.
        rewrite DecoratorFacts.decorated_scheduler, Hs.
        destruct (decide (c' ∈ cs)) as [Hc|Hc].
        * rewrite !bool_decide_eq_true_2; [done| |done]. apply elem_of_cons; by right.
        * rewrite (bool_decide_eq_false_2 (c' ∈ cs)) by done.
          destruct (decide (c' = c)) as [->|Hne].
          -- rewrite !bool_decide_eq_true_2; [done| |done]. apply elem_of_cons; by left.
          -- rewrite !bool_decide_eq_false_2; [done| |done].
             intros H. by apply elem_of_cons in H as [?|?]. }
  destruct (Hrest cs r1 Hin1) as (H1 & H2 & H3 & H4).
  split; [|split; [|split]].
  - rewrite H1. unfold r1. rewrite DecoratorFacts.decorated_systemTypes.
    rewrite fmap_cons, <- !app_assoc. done.
  - rewrite H2. unfold r1. rewrite DecoratorFacts.decorated_contents.
    rewrite bool_decide_eq_true_2 by done. by rewrite <- app_assoc.
  - intros g' Hg'. rewrite H3 by done. unfold r1.
    rewrite DecoratorFacts.decorated_contents. by rewrite bool_decide_eq_false_2.
  - intros c s Hc Hs. rewrite (H4 c s Hs).
    case_bool_decide as E; [done|]. unfold r1.
    rewrite DecoratorFacts.decorated_scheduler, Hs.
    rewrite bool_decide_eq_true_2; [done|]. by apply elem_of_cons in Hc as [?|?].
Qed.

Lemma system_registers_group_once_witness :
  ["S1"; "S2"] ≠ []
  ∧ Decorators.systemTypes
      (foldl (fun r c => Decorators.decorated (Decorators.ArgGroup "G") None c r)
         Decorators.empty ["S1"; "S2"])
    = [Decorators.SystemGroup "G"; Decorators.SystemType "S1"; Decorators.SystemType "S2"].
Proof.
  assert (H : ["S1"; "S2"] ≠ @nil string) by discriminate.
  split; [exact H|].
  exact (proj1 (system_registers_group_once "G" None ["S1"; "S2"] Decorators.empty H)).
Defined.

(** ** [step()] and the test of [createEntity] *)

Lemma step_previous w i :
  ta_get (previous (snd (step w))) (memory (snd (step w))) i
  = ta_get (current w) (memory w) i.
Proof.
  destruct i as [i|]; [|done]. unfold ta_get. rewrite previous_base.
  change (maxNum (snd (step w))) with (maxNum w).
  change (stride (snd (step w))) with (stride w).
  cbn [len base previous current].
  change (maxNum (snd (step w))) with (maxNum w).
  change (stride (snd (step w))) with (stride w).
  case_bool_decide as E; [|done]. f_equal. rewrite step_memory.
  repeat case_bool_decide; try lia; f_equal; lia.
Qed.

Lemma step_current w i :
  ta_get (current (snd (step w))) (memory (snd (step w))) i
  = ta_get (current w) (memory w) i.
Proof.
  destruct i as [i|]; [|done]. unfold ta_get. cbn [len base current].
  change (maxNum (snd (step w))) with (maxNum w).
  change (stride (snd (step w))) with (stride w).
  case_bool_decide as E; [|done]. f_equal. rewrite step_memory.
  repeat case_bool_decide; try lia; done.
Qed.

(** X26: once [step()] has run, the slots [createEntity] may take are
    exactly those that hold no component: a slot is free after the step if
    and only if it was unallocated in the current buffer before it, whatever
    the previous buffer held.  A slot released during a frame is so handed
    out again after the frame's end, and [hasFlag] is not changed by the
    step. *)
Theorem step_frees_released_slots (w : World) (id : Z) :
  free (snd (step w)) id = negb (isAllocated w (Some id) (current w))
  ∧ isAllocated (snd (step w)) (Some id) (previous (snd (step w)))
    = isAllocated w (Some id) (current w)
  ∧ isAllocated (snd (step w)) (Some id) (current (snd (step w)))
    = isAllocated w (Some id) (current w)
  ∧ ∀ id' type, hasFlag (snd (step w)) id' type = hasFlag w id' type.
Proof.
  assert (Hp : isAllocated (snd (step w)) (Some id) (previous (snd (step w)))
               = isAllocated w (Some id) (current w)).
  { unfold isAllocated. change (stride (snd (step w))) with (stride w).
    apply existsb_pointwise. intros offset.
    change (slot_index (snd (step w))) with (slot_index w). by rewrite step_previous. }
  assert (Hc : isAllocated (snd (step w)) (Some id) (current (snd (step w)))
               = isAllocated w (Some id) (current w)).
  { apply current_ext_isAllocated; [done|]. apply step_current. }
  split; [|split; [done|split; [done|]]].
  - unfold free. rewrite Hp, Hc. by destruct (isAllocated w (Some id) (current w)).
  - intros id' type. apply current_ext_hasFlag; [done|]. apply step_current.
Qed.
